(** * whisper.linux: the streaming dictation pipeline

    A shallow embedding of the Python sources under
    [examples/whisper.linux/app/] (commands.py, transcriber.py, audio.py,
    injector.py, app.py) together with the properties of the pipeline
    that the specification states about them, and further ones that the
    sources show.

    Conventions of the embedding.
    - A Python [str] is the list of its Unicode code points ([list N]);
      a [bytes] object is a list of octets, also [list N].
    - A Python [float] is read as the rational it denotes ([Q]); the
      sources only multiply such values by small integer constants and
      compare them with integers.
    - Calls that leave the coordinator (injecting text, synthesising keys,
      chimes, notifications, timers, capture) are recorded, in order, in a
      trace of [Effect]s, and are taken to return.  Values that come from
      outside (the clock, the answer of xdotool, the result of the
      transcriber subprocess) are arguments of the entry point that reads
      them.
    - An entry point of the coordinator runs from its first statement to
      its last.  The one place where the sources make the coordinator wait
      for another thread, the [join] of the segment worker in the stop
      routines, is modelled as such: the worker goes on with the queued
      segments while the coordinator waits.

    The first part of the file is the embedding; the second part holds the
    lemmas and theorems. *)

From Stdlib Require Import String Ascii.
From Stdlib Require Import List NArith ZArith QArith Qminmax Bool Lia Lqa.
Import ListNotations.

Open Scope nat_scope.

(* ------------------------------------------------------------------ *)
(** * Python strings *)
(* ------------------------------------------------------------------ *)

Module Py.

Local Open Scope N_scope.

Definition str := list N.

Fixpoint str_eqb (a b : str) : bool :=
  match a, b with
  | [], [] => true
  | x :: a', y :: b' => N.eqb x y && str_eqb a' b'
  | _, _ => false
  end.

(** ** Literals: a Rocq string holds UTF-8 octets; [u] decodes them. *)

Fixpoint utf8_decode (bs : list N) : str :=
  match bs with
  | [] => []
  | b :: r =>
      if (b <? 128)%N then b :: utf8_decode r
      else if (b <? 224)%N then
        match r with
        | b1 :: r1 => ((b - 192) * 64 + (b1 - 128))%N :: utf8_decode r1
        | [] => []
        end
      else if (b <? 240)%N then
        match r with
        | b1 :: b2 :: r2 =>
            ((b - 224) * 4096 + (b1 - 128) * 64 + (b2 - 128))%N
              :: utf8_decode r2
        | _ => []
        end
      else
        match r with
        | b1 :: b2 :: b3 :: r3 =>
            ((b - 240) * 262144 + (b1 - 128) * 4096
             + (b2 - 128) * 64 + (b3 - 128))%N :: utf8_decode r3
        | _ => []
        end
  end.

Definition u (s : string) : str :=
  utf8_decode (map N_of_ascii (list_ascii_of_string s)).

(** ** Truthiness of a sequence: [if s:] *)

Definition truthy {A} (l : list A) : bool :=
  match l with [] => false | _ => true end.

(** ** [str.isspace] for one code point (CPython's [_PyUnicode_IsWhitespace]). *)

Definition isspace (c : N) : bool :=
  ((9 <=? c) && (c <=? 13)) || ((28 <=? c) && (c <=? 32))
  || (c =? 133) || (c =? 160) || (c =? 5760)
  || ((8192 <=? c) && (c <=? 8202))
  || (c =? 8232) || (c =? 8233) || (c =? 8239) || (c =? 8287)
  || (c =? 12288).

(** ** [str.split()] with no argument: the maximal runs of non-whitespace. *)

Fixpoint split_from (cur : str) (s : str) : list str :=
  match s with
  | [] => if truthy cur then [cur] else []
  | c :: r =>
      if isspace c
      then (if truthy cur then cur :: split_from [] r else split_from [] r)
      else split_from (cur ++ [c]) r
  end.

Definition split (s : str) : list str := split_from [] s.

(** ** [sep.join(parts)] *)

Fixpoint join (sep : str) (parts : list str) : str :=
  match parts with
  | [] => []
  | [p] => p
  | p :: rest => p ++ sep ++ join sep rest
  end.

(** ** [str.strip()] and [str.strip(chars)] *)

Fixpoint lstrip_by (p : N -> bool) (s : str) : str :=
  match s with
  | [] => []
  | c :: r => if p c then lstrip_by p r else s
  end.

Definition rstrip_by (p : N -> bool) (s : str) : str :=
  rev (lstrip_by p (rev s)).

Definition strip_by (p : N -> bool) (s : str) : str :=
  rstrip_by p (lstrip_by p s).

Definition strip (s : str) : str := strip_by isspace s.

Definition mem_char (chars : str) (c : N) : bool := existsb (N.eqb c) chars.

Definition strip_chars (chars : str) (s : str) : str :=
  strip_by (mem_char chars) s.

(** ** [str.lower()].

    CPython lowers through the Unicode case tables.  The embedding
    carries the rows for Basic Latin, Latin-1 and the Cyrillic block,
    which is the repertoire of the default wake word, of the default
    command table and of the hallucination patterns; other code points
    are left as they are. *)

Definition lower1 (c : N) : N :=
  if (65 <=? c) && (c <=? 90) then c + 32
  else if (192 <=? c) && (c <=? 222) && negb (c =? 215) then c + 32
  else if (1024 <=? c) && (c <=? 1039) then c + 80
  else if (1040 <=? c) && (c <=? 1071) then c + 32
  else c.

Definition lower (s : str) : str := map lower1 s.

(** ** [old in s], [s.startswith], [s.endswith], [s.replace(old, new)] *)

Fixpoint startswith (s pre : str) {struct pre} : bool :=
  match pre, s with
  | [], _ => true
  | p :: pre', c :: s' => N.eqb p c && startswith s' pre'
  | _ :: _, [] => false
  end.

Fixpoint contains (s sub : str) : bool :=
  startswith s sub ||
  match s with
  | [] => false
  | _ :: r => contains r sub
  end.

Definition endswith (s suf : str) : bool := startswith (rev s) (rev suf).

(** [replace_from k old new s]: the scan of [str.replace] for a non-empty
    [old]; [k] counts the characters of a match still to be skipped. *)
Fixpoint replace_from (k : nat) (old new s : str) : str :=
  match s with
  | [] => []
  | c :: r =>
      match k with
      | S k' => replace_from k' old new r
      | O =>
          if startswith s old
          then new ++ replace_from (length old - 1)%nat old new r
          else c :: replace_from 0%nat old new r
      end
  end.

Definition replace (old new s : str) : str := replace_from 0%nat old new s.

End Py.

Import Py.

(* ------------------------------------------------------------------ *)
(** * [difflib.SequenceMatcher(None, a, b).ratio()] *)
(* ------------------------------------------------------------------ *)

(** The standard library's matcher, without junk ([isjunk] is [None], and
    the automatic junk heuristic only starts at 200 elements, which no
    word of a sentence reaches).  [find_longest_match] returns the longest
    common block; of those the one that starts earliest in [a], and of
    those the one that starts earliest in [b].  The matching blocks are
    found by recursion to the left and to the right of that block, and the
    ratio is [2 * matches / (len a + len b)], or [1] for two empty
    sequences. *)

Module Difflib.

Fixpoint common_prefix (a b : str) : nat :=
  match a, b with
  | x :: a', y :: b' => if N.eqb x y then S (common_prefix a' b') else 0
  | _, _ => 0
  end.

Fixpoint scan_b (i : nat) (ai b : str) (j : nat) (best : nat * nat * nat)
  : nat * nat * nat :=
  match b with
  | [] => best
  | _ :: b' =>
      let k := common_prefix ai b in
      scan_b i ai b' (S j) (if snd best <? k then (i, j, k) else best)
  end.

Fixpoint scan_a (a b : str) (i : nat) (best : nat * nat * nat)
  : nat * nat * nat :=
  match a with
  | [] => best
  | _ :: a' => scan_a a' b (S i) (scan_b i a b 0 best)
  end.

Definition find_longest_match (a b : str) : nat * nat * nat :=
  scan_a a b 0 (0, 0, 0).

Fixpoint matching (fuel : nat) (a b : str) : nat :=
  match fuel with
  | O => 0
  | S f =>
      let '(i, j, k) := find_longest_match a b in
      if k =? 0 then 0
      else matching f (firstn i a) (firstn j b) + k
           + matching f (skipn (i + k) a) (skipn (j + k) b)
  end.

Definition matches (a b : str) : nat := matching (length a) a b.

Definition ratio (a b : str) : Q :=
  match (length a + length b)%nat with
  | O => 1%Q
  | S n => (Z.of_nat (2 * matches a b)%nat # Pos.of_succ_nat n)%Q
  end.

End Difflib.

(* ------------------------------------------------------------------ *)
(** * Calls that leave the process *)
(* ------------------------------------------------------------------ *)

Inductive AppState := IDLE | RECORDING | PROCESSING | LISTENING | DICTATING.

Inductive Sound := StartChime | EndChime.

Inductive Effect :=
| Inject (text : str)                 (* TextInjector.inject *)
| SendKey (name : str)                (* TextInjector.send_key *)
| SaveWindow                          (* xdotool getactivewindow *)
| RestoreWindow (id : str)            (* xdotool windowactivate --sync *)
| PlaySound (s : Sound)               (* _play_sound *)
| Notify (title message : str)        (* tray.notify *)
| TraySetState (s : AppState)         (* tray.set_state *)
| TimerStart (timeout : Q)            (* threading.Timer(...).start() *)
| TimerCancel                         (* Timer.cancel() *)
| StreamStart | StreamStop            (* AudioStream.start / stop *)
| RecorderStart | RecorderStop        (* AudioRecorder.start / stop *)
| WorkerStart | WorkerJoin            (* segment worker thread *)
| LogError (message : str).

(* ------------------------------------------------------------------ *)
(** * commands.py *)
(* ------------------------------------------------------------------ *)

Module VoiceCommands.

(** [DEFAULT_VOICE_COMMANDS] of config.py, in insertion order. *)
Definition DEFAULT_COMMANDS : list (str * str) :=
  [ (u "enter", u "key:Return");
    (u "энтер", u "key:Return");
    (u "ввод", u "key:Return");
    (u "backspace", u "backspace");
    (u "бэкспейс", u "backspace");
    (u "бекспейс", u "backspace");
    (u "назад", u "backspace");
    (u "tab", u "key:Tab");
    (u "таб", u "key:Tab");
    (u "табуляция", u "key:Tab");
    (u "escape", u "key:Escape");
    (u "эскейп", u "key:Escape");
    (u "стоп", u "key:Escape") ].

Definition FUZZY_THRESHOLD : Q := (75 # 100)%Q.

(** The characters that [process] strips from both ends of a word; code
    point 34 is the double quote. *)
Definition PUNCTUATION : str := u ".,!?;:-" ++ [34%N] ++ u "'()[]".

(** [self._commands[word]] when [word in self._commands]. *)
Fixpoint lookup (cmds : list (str * str)) (word : str) : option str :=
  match cmds with
  | [] => None
  | (k, a) :: rest => if str_eqb k word then Some a else lookup rest word
  end.

(** The loop of [_match_command] over [self._commands.items()]. *)
Fixpoint best_fuzzy (cmds : list (str * str)) (word : str)
  (best_ratio : Q) (best_action : option str) : option str :=
  match cmds with
  | [] => best_action
  | (cmd_word, action) :: rest =>
      let ratio := Difflib.ratio cmd_word word in
      if Qle_bool FUZZY_THRESHOLD ratio && negb (Qle_bool ratio best_ratio)
      then best_fuzzy rest word ratio (Some action)
      else best_fuzzy rest word best_ratio best_action
  end.

Definition _match_command (cmds : list (str * str)) (word : str)
  : option str :=
  if negb (truthy word) then None
  else match lookup cmds word with
       | Some a => Some a
       | None => best_fuzzy cmds word 0%Q None
       end.

(** The local variables of [process] and the calls made so far. *)
Record Loop := mkLoop {
  buffer : list str;
  had_commands : bool;
  calls : list Effect
}.

Definition call (e : Effect) (l : Loop) : Loop :=
  mkLoop (buffer l) (had_commands l) (calls l ++ [e]).

(** The body of [for word in words]. *)
Definition body (cmds : list (str * str)) (l : Loop) (word : str) : Loop :=
  let clean := lower (strip_chars PUNCTUATION word) in
  match _match_command cmds clean with
  | Some action =>
      if truthy action then
        let l := mkLoop (buffer l) true (calls l) in
        if str_eqb action (u "backspace") then
          if truthy (buffer l)
          then mkLoop (removelast (buffer l)) true (calls l)
          else call (SendKey (u "ctrl+BackSpace")) l
        else
          let l := if truthy (buffer l)
                   then mkLoop [] true
                          (calls l ++ [Inject (join (u " ") (buffer l))])
                   else l in
          call (SendKey (skipn 4 action)) l
      else mkLoop (buffer l ++ [word]) (had_commands l) (calls l)
  | None => mkLoop (buffer l ++ [word]) (had_commands l) (calls l)
  end.

(** [process(text, inject_fn, send_key_fn)]: the returned flag and the
    calls to the two functions, in order. *)
Definition process (cmds : list (str * str)) (text : str)
  : bool * list Effect :=
  let words := split text in
  if negb (truthy words) then (false, [])
  else
    let l := fold_left (body cmds) words (mkLoop [] false []) in
    let l := if truthy (buffer l)
             then call (Inject (join (u " ") (buffer l))) l else l in
    (had_commands l, calls l).

(** ** The processor as the specification words it *)

Inductive Action := NonCommand | KeyPress (name : str) | Backspace.

(** A token's action: the entry it matches after lowercasing and
    stripping punctuation, if any. *)
Definition classify (cmds : list (str * str)) (token : str) : Action :=
  match _match_command cmds (lower (strip_chars PUNCTUATION token)) with
  | Some action =>
      if negb (truthy action) then NonCommand
      else if str_eqb action (u "backspace") then Backspace
      else KeyPress (skipn 4 action)
  | None => NonCommand
  end.

Definition flush (buf : list str) : list Effect :=
  if truthy buf then [Inject (join (u " ") buf)] else [].

Fixpoint scan (act : str -> Action) (buf : list str) (tokens : list str)
  : list Effect :=
  match tokens with
  | [] => flush buf
  | t :: rest =>
      match act t with
      | NonCommand => scan act (buf ++ [t]) rest
      | KeyPress k => flush buf ++ SendKey k :: scan act [] rest
      | Backspace =>
          if truthy buf then scan act (removelast buf) rest
          else SendKey (u "ctrl+BackSpace") :: scan act [] rest
      end
  end.

(** A token matches a command entry: exactly, or with similarity at
    least 0.75. *)
Definition matches_entry (cmds : list (str * str)) (token : str) : Prop :=
  exists key action,
    In (key, action) cmds /\
    (key = lower (strip_chars PUNCTUATION token) \/
     (FUZZY_THRESHOLD <= Difflib.ratio key (lower (strip_chars PUNCTUATION token)))%Q).

(** A text that is already a sentence of words separated by one space. *)
Definition is_word (w : str) : Prop :=
  w <> [] /\ forallb (fun c => negb (isspace c)) w = true.

Definition single_spaced (text : str) : Prop :=
  exists ws, Forall is_word ws /\ text = join (u " ") ws.

(** The same, as a test that can be run. *)
Definition matches_entryb (cmds : list (str * str)) (token : str) : bool :=
  let clean := lower (strip_chars PUNCTUATION token) in
  existsb (fun e => str_eqb (fst e) clean
                    || Qle_bool FUZZY_THRESHOLD (Difflib.ratio (fst e) clean))
          cmds.

End VoiceCommands.



(* ------------------------------------------------------------------ *)
(** * Regular expressions, as far as transcriber.py uses [re] *)
(* ------------------------------------------------------------------ *)

(** [pattern.search(text)] only asks whether some substring of the text
    belongs to the language of the pattern, so the matcher works with
    derivatives.  The patterns are compiled with [re.IGNORECASE], hence a
    literal and a character set match up to [lower1].  [\s] is
    [isspace]; [\w] and [\d] follow the Unicode tables in CPython, of
    which the embedding carries Basic Latin, Latin-1 and Cyrillic. *)

Module Re.

Inductive re :=
| Empty                       (* matches nothing *)
| Eps                         (* matches the empty string *)
| Chr (c : N)                 (* a literal character *)
| Any (cs : str)              (* [...] *)
| Space | Word | Digit | Dot  (* \s  \w  \d  . *)
| Cat (r s : re)
| Alt (r s : re)
| Star (r : re).

Definition isdigit (c : N) : bool := ((48 <=? c) && (c <=? 57))%N.

Definition isword (c : N) : bool :=
  (isdigit c || ((65 <=? c) && (c <=? 90)) || ((97 <=? c) && (c <=? 122))
   || (c =? 95) || (c =? 170) || (c =? 181) || (c =? 186)
   || ((192 <=? c) && (c <=? 255) && negb (c =? 215) && negb (c =? 247))
   || ((1024 <=? c) && (c <=? 1153)) || ((1162 <=? c) && (c <=? 1327)))%N.

Definition accepts (r : re) (c : N) : bool :=
  match r with
  | Chr x => N.eqb (lower1 c) (lower1 x)
  | Any cs => existsb (fun x => N.eqb (lower1 c) (lower1 x)) cs
  | Space => isspace c
  | Word => isword c
  | Digit => isdigit c
  | Dot => negb (N.eqb c 10)
  | _ => false
  end.

Fixpoint nullable (r : re) : bool :=
  match r with
  | Eps | Star _ => true
  | Cat r s => nullable r && nullable s
  | Alt r s => nullable r || nullable s
  | _ => false
  end.

Definition cat (r s : re) : re :=
  match r, s with
  | Empty, _ | _, Empty => Empty
  | Eps, _ => s
  | _, _ => Cat r s
  end.

Definition alt (r s : re) : re :=
  match r, s with
  | Empty, _ => s
  | _, Empty => r
  | _, _ => Alt r s
  end.

Fixpoint deriv (c : N) (r : re) : re :=
  match r with
  | Empty | Eps => Empty
  | Cat r s =>
      alt (cat (deriv c r) s) (if nullable r then deriv c s else Empty)
  | Alt r s => alt (deriv c r) (deriv c s)
  | Star r' => cat (deriv c r') (Star r')
  | _ => if accepts r c then Eps else Empty
  end.

(** Some prefix of [s] matches [r]. *)
Fixpoint match_prefix (r : re) (s : str) : bool :=
  nullable r ||
  match s with
  | [] => false
  | c :: t => match_prefix (deriv c r) t
  end.

(** [re.compile(r, re.IGNORECASE).search(s)] as a truth value. *)
Fixpoint search (r : re) (s : str) : bool :=
  match_prefix r s ||
  match s with
  | [] => false
  | _ :: t => search r t
  end.

Definition lit (s : str) : re := fold_right (fun c r => Cat (Chr c) r) Eps s.
Definition plus (r : re) : re := Cat r (Star r).
Definition opt (r : re) : re := Alt r Eps.
Definition seq (rs : list re) : re := fold_right Cat Eps rs.
Definition union (rs : list re) : re := fold_right Alt Empty rs.

End Re.

(* ------------------------------------------------------------------ *)
(** * transcriber.py *)
(* ------------------------------------------------------------------ *)

Module Transcriber.

Import Re.

(** [\s+] between two literals. *)
Definition ws : re := plus Space.
Definition l (s : string) : re := lit (u s).

Definition _HALLUCINATION_PATTERNS : list re :=
  [ l "субтитр";
    seq [l "редактор"; ws; l "субтитр"];
    seq [l "перевод"; Star Word; ws; l "субтитр"];
    l "подредактир";
    seq [l "продолжение"; ws; l "следует"];
    seq [l "спасибо"; ws; l "за"; ws;
         union [l "просмотр"; l "подписк"; l "внимание"]];
    l "подписывайтесь";
    seq [l "не"; ws; l "забудьте"; ws; l "подписаться"];
    seq [l "ставьте"; ws; l "лайк"];
    seq [l "с"; ws; l "вами"; ws; l "был"; opt (Any (u "аио")); Space];
    seq [l "а"; plus (Any (u "пп")); l "ортизатор"];
    seq [l "добро"; ws; l "пожаловать"];
    seq [l "до"; ws; l "новых"; ws; l "встреч"];
    seq [l "до"; ws; l "свидания"; Star Dot; l "друзья"];
    seq [l "subtitle"; opt (l "s"); ws;
         union [l "by"; l "made"; l "edited"; l "created"]];
    seq [l "thank"; opt (l "s"); ws; l "for"; ws; l "watching"];
    seq [l "subscribe"; ws; union [l "to"; l "and"]];
    seq [l "please"; ws; union [l "like"; l "subscribe"]];
    seq [l "don"; opt (l "'"); l "t"; ws; l "forget"; ws; l "to"; ws;
         l "subscribe"];
    seq [l "copyright"; ws; Digit; Digit; Digit; Digit] ].

Definition _HALLUCINATION_RE : re := union _HALLUCINATION_PATTERNS.

Definition _MAX_WORDS_PER_SEC : Q := 5.
Definition _MAX_CHARS_PER_SEC : Q := 25.

Definition Qltb (x y : Q) : bool := negb (Qle_bool y x).

(** Python's [max(a, b)]: [b] when [b > a], otherwise [a]. *)
Definition py_max (a b : Q) : Q := if Qltb a b then b else a.

(** Layer 2 of [_is_hallucination], the body of [if duration_s > 0]. *)
Definition speech_rate_check (text : str) (duration_s : Q) : bool :=
  let words := split text in
  let word_count := length words in
  let char_count := length (replace (u " ") [] text) in
  let max_words := py_max 2 (duration_s * _MAX_WORDS_PER_SEC) in
  let max_chars := py_max 10 (duration_s * _MAX_CHARS_PER_SEC) in
  if Qltb max_words (inject_Z (Z.of_nat word_count)) then true
  else if Qltb max_chars (inject_Z (Z.of_nat char_count)) then true
  else false.

Definition _is_hallucination (text : str) (duration_s : Q) : bool :=
  if search _HALLUCINATION_RE text then true
  else if Qltb 0 duration_s then speech_rate_check text duration_s
  else false.

(** ** The speech-rate layer as the specification words it *)

(** The number of whitespace-separated words: the places where a word
    starts. *)
Fixpoint count_words_from (after_space : bool) (s : str) : nat :=
  match s with
  | [] => 0
  | c :: r =>
      if isspace c then count_words_from true r
      else (if after_space then 1 else 0) + count_words_from false r
  end.

Definition count_words (s : str) : nat := count_words_from true s.

(** The number of characters other than the space. *)
Definition count_non_space (s : str) : nat :=
  length (filter (fun c => negb (N.eqb c 32)) s).

Definition exceeds (n : nat) (bound : Q) : Prop :=
  (bound < inject_Z (Z.of_nat n))%Q.

(** ** WakeWordDetector *)

Record WakeWordDetector := mkDetector {
  _wake_word : str;
  _variants : list str
}.

Definition WAKE_FUZZY_THRESHOLD : Q := (7 # 10)%Q.

Definition _build_variants (word : str) : list str :=
  word ::
  flat_map
    (fun suffix =>
       if endswith word suffix && (length suffix + 2 <? length word)
       then [firstn (length word - length suffix) word] else [])
    [u "а"; u "я"; u "ша"; u "жа"].

Definition new_detector (wake_word : str) : WakeWordDetector :=
  let w := strip (lower wake_word) in
  mkDetector w (_build_variants w).

Definition _is_fuzzy_match (d : WakeWordDetector) (word : str) : bool :=
  if Qle_bool WAKE_FUZZY_THRESHOLD (Difflib.ratio (_wake_word d) word)
  then true
  else existsb
         (fun variant =>
            Qle_bool WAKE_FUZZY_THRESHOLD (Difflib.ratio variant word))
         (_variants d).

Definition WAKE_PUNCTUATION : str := VoiceCommands.PUNCTUATION.

Definition contains_wake_word (d : WakeWordDetector) (text : str) : bool :=
  let text_lower := strip (lower text) in
  if contains text_lower (_wake_word d) then true
  else existsb
         (fun word =>
            let word := strip_chars WAKE_PUNCTUATION word in
            truthy word && _is_fuzzy_match d word)
         (split text_lower).

(** [re.escape(wake_word)] under [re.IGNORECASE]: literal comparison up
    to [lower1]. *)
Fixpoint ci_startswith (s pre : str) {struct pre} : bool :=
  match pre, s with
  | [], _ => true
  | p :: pre', c :: s' => N.eqb (lower1 c) (lower1 p) && ci_startswith s' pre'
  | _ :: _, [] => false
  end.

Fixpoint ci_search (s pat : str) : bool :=
  ci_startswith s pat ||
  match s with
  | [] => false
  | _ :: r => ci_search r pat
  end.

(** [pattern.sub("", text)]: the leftmost non-overlapping matches go. *)
Fixpoint ci_remove_from (k : nat) (pat s : str) : str :=
  match s with
  | [] => []
  | c :: r =>
      match k with
      | S k' => ci_remove_from k' pat r
      | O =>
          if ci_startswith s pat
          then ci_remove_from (length pat - 1) pat r
          else c :: ci_remove_from 0 pat r
      end
  end.

Definition ci_remove (pat s : str) : str :=
  if truthy pat then ci_remove_from 0 pat s else s.

(** [re.sub(r"\s+", " ", s)] *)
Fixpoint collapse_ws (in_run : bool) (s : str) : str :=
  match s with
  | [] => []
  | c :: r =>
      if isspace c
      then (if in_run then collapse_ws true r else 32%N :: collapse_ws true r)
      else c :: collapse_ws false r
  end.

Definition strip_wake_word (d : WakeWordDetector) (text : str) : str :=
  if ci_search text (_wake_word d) then
    let result := ci_remove (_wake_word d) text in
    let result := strip (collapse_ws false result) in
    strip_chars (u ".,!?;:- ") result
  else
    let words := split text in
    let kept :=
      filter
        (fun w =>
           let clean := lower (strip_chars WAKE_PUNCTUATION w) in
           negb (truthy clean && _is_fuzzy_match d clean))
        words in
    let result := strip (join (u " ") kept) in
    strip_chars (u ".,!?;:- ") result.

(** ** Transcriber.transcribe *)

Record CompletedProcess := mkCompleted {
  returncode : Z;
  stdout : str;
  stderr : str
}.

Inductive Exn :=
| FileNotFoundError
| RuntimeError (returncode : Z) (stderr_head : str)
| TimeoutExpired.

(** What [subprocess.run(cmd, ..., timeout=300)] does. *)
Inductive RunResult :=
| Completed (p : CompletedProcess)
| RunRaised (e : Exn).

Inductive Outcome :=
| Returned (text : str)
| Raised (e : Exn).

Definition BLANK_AUDIO : str := u "[BLANK_AUDIO]".

(** [isfile] is [os.path.isfile(wav_path)]; [run] is the result of the
    whisper-cli subprocess. *)
Definition transcribe (isfile : bool) (run : RunResult) (duration_s : Q)
  : Outcome :=
  if negb isfile then Raised FileNotFoundError
  else
    match run with
    | RunRaised e => Raised e
    | Completed result =>
        if negb (Z.eqb (returncode result) 0)
        then Raised (RuntimeError (returncode result)
                                  (firstn 200 (stderr result)))
        else
          let text := strip (stdout result) in
          let text := strip (replace BLANK_AUDIO [] text) in
          if truthy text && _is_hallucination text duration_s
          then Returned []
          else Returned text
    end.

End Transcriber.

(* ------------------------------------------------------------------ *)
(** * audio.py *)
(* ------------------------------------------------------------------ *)

Module Audio.

Definition bytes := list N.

(** ** [struct.pack("<I", n)] and [struct.pack("<H", n)]: little-endian,
    [struct.error] (here [None]) when [n] does not fit. *)

Fixpoint le_bytes (width : nat) (n : Z) : bytes :=
  match width with
  | O => []
  | S w => Z.to_N (n mod 256) :: le_bytes w (n / 256)
  end.

Definition pack (width : nat) (n : Z) : option bytes :=
  if ((0 <=? n) && (n <? 256 ^ Z.of_nat width))%Z
  then Some (le_bytes width n) else None.

(** [struct.unpack] of a little-endian unsigned field. *)
Fixpoint unpack (bs : bytes) : Z :=
  match bs with
  | [] => 0
  | b :: r => Z.of_N b + 256 * unpack r
  end.

(** [f.read()[lo:lo+n]] *)
Definition slice (lo n : nat) (bs : bytes) : bytes := firstn n (skipn lo bs).

Definition bind {A B} (m : option A) (k : A -> option B) : option B :=
  match m with Some a => k a | None => None end.

Local Notation "x <- m ;; k" := (bind m (fun x => k))
  (at level 61, m at next level, right associativity).

(** [_write_wav(path, pcm_data, sample_rate, channels, bits)]: the bytes
    of the file once every [f.write] has run, or [None] when a
    [struct.pack] raised. *)
Definition _write_wav (pcm_data : bytes) (sample_rate channels bits : Z)
  : option bytes :=
  let data_size := Z.of_nat (length pcm_data) in
  let byte_rate := (sample_rate * channels * bits / 8)%Z in
  let block_align := (channels * bits / 8)%Z in
  riff_size <- pack 4 (36 + data_size)%Z ;;
  fmt_size <- pack 4 16%Z ;;
  audio_format <- pack 2 1%Z ;;
  channels_f <- pack 2 channels ;;
  sample_rate_f <- pack 4 sample_rate ;;
  byte_rate_f <- pack 4 byte_rate ;;
  block_align_f <- pack 2 block_align ;;
  bits_f <- pack 2 bits ;;
  data_size_f <- pack 4 data_size ;;
  Some (u "RIFF" ++ riff_size ++ u "WAVE" ++ u "fmt " ++ fmt_size
        ++ audio_format ++ channels_f ++ sample_rate_f ++ byte_rate_f
        ++ block_align_f ++ bits_f ++ u "data" ++ data_size_f ++ pcm_data).

(** The call with the defaults of the signature, as app.py makes it. *)
Definition write_wav (pcm_data : bytes) : option bytes :=
  _write_wav pcm_data 16000 1 16.

(** ** SimpleVAD *)

Definition FRAME_MS : Z := 30.
Definition TRAILING_SILENCE_MS : Z := 300.
Definition SAMPLE_RATE : Z := 16000.

(** [self._frame_bytes] and [self._silence_frames]; both are fixed by the
    class constants. *)
Definition _frame_bytes : nat := Z.to_nat (SAMPLE_RATE * 2 * FRAME_MS / 1000).
Definition _silence_frames : Z := (TRAILING_SILENCE_MS / FRAME_MS)%Z.

Record SimpleVAD := mkVAD {
  _threshold : Z;
  _min_speech_ms : Z;
  _max_speech_s : Q;
  _buffer : bytes;
  _speech_buffer : bytes;
  _in_speech : bool;
  _silent_count : Z
}.

(** What the two callbacks are called with, in order. *)
Inductive VadEvent :=
| SpeechStart
| SpeechEnd (pcm : bytes).

Definition new_vad (vad_threshold min_speech_ms : Z) (max_speech_s : Q)
  : SimpleVAD :=
  mkVAD vad_threshold min_speech_ms max_speech_s [] [] false 0.

Definition reset (v : SimpleVAD) : SimpleVAD :=
  mkVAD (_threshold v) (_min_speech_ms v) (_max_speech_s v) [] [] false 0.

(** The samples of [array.array("h")]: signed 16-bit, little-endian; a
    trailing odd byte is cut off. *)
Fixpoint samples (frame : bytes) : list Z :=
  match frame with
  | lo :: hi :: r =>
      let v := (Z.of_N lo + 256 * Z.of_N hi)%Z in
      (if (v <? 32768)%Z then v else v - 65536)%Z :: samples r
  | _ => []
  end.

(** [_rms(frame) >= threshold].  The root mean square is a float in the
    source; for an integer threshold the comparison is the one below on
    the sum of squares ([0.0] is returned for a frame without samples). *)
Definition rms_at_least (frame : bytes) (threshold : Z) : bool :=
  let ss := samples frame in
  match ss with
  | [] => (threshold <=? 0)%Z
  | _ =>
      ((threshold <=? 0)
       || (threshold * threshold * Z.of_nat (length ss)
           <=? fold_right (fun x acc => x * x + acc) 0 ss))%Z
  end.

(** [int(x)] for a float: truncation towards zero. *)
Definition py_int (x : Q) : Z := Z.quot (Qnum x) (Zpos (Qden x)).

Definition max_bytes (v : SimpleVAD) : Z :=
  py_int (_max_speech_s v * inject_Z SAMPLE_RATE * 2)%Q.

Definition duration_ms (pcm : bytes) : Z :=
  (Z.of_nat (length pcm) * 1000 / (SAMPLE_RATE * 2))%Z.

Definition _emit_speech (v : SimpleVAD) : SimpleVAD * list VadEvent :=
  let pcm := _speech_buffer v in
  let v' := mkVAD (_threshold v) (_min_speech_ms v) (_max_speech_s v)
                  (_buffer v) [] false 0 in
  if (_min_speech_ms v <=? duration_ms pcm)%Z
  then (v', [SpeechEnd pcm])
  else (v', []).

(** The body of the [while] loop of [feed], after the frame has been cut
    from the input buffer. *)
Definition on_frame (v : SimpleVAD) (frame : bytes)
  : SimpleVAD * list VadEvent :=
  let '(v1, ev1) :=
    if rms_at_least frame (_threshold v) then
      let ev := if negb (_in_speech v) then [SpeechStart] else [] in
      (mkVAD (_threshold v) (_min_speech_ms v) (_max_speech_s v)
             (_buffer v) (_speech_buffer v ++ frame) true 0, ev)
    else if _in_speech v then
      let v' := mkVAD (_threshold v) (_min_speech_ms v) (_max_speech_s v)
                      (_buffer v) (_speech_buffer v ++ frame) true
                      (_silent_count v + 1) in
      if (_silence_frames <=? _silent_count v')%Z
      then _emit_speech v' else (v', [])
    else (v, []) in
  if _in_speech v1
     && (max_bytes v1 <=? Z.of_nat (length (_speech_buffer v1)))%Z
  then let '(v2, ev2) := _emit_speech v1 in (v2, ev1 ++ ev2)
  else (v1, ev1).

(** [while len(self._buffer) >= self._frame_bytes]; every round removes a
    frame from the buffer, so [fuel] rounds suffice when [fuel] is the
    length of the buffer. *)
Fixpoint feed_loop (fuel : nat) (v : SimpleVAD) : SimpleVAD * list VadEvent :=
  match fuel with
  | O => (v, [])
  | S fuel' =>
      if _frame_bytes <=? length (_buffer v) then
        let frame := firstn _frame_bytes (_buffer v) in
        let v := mkVAD (_threshold v) (_min_speech_ms v) (_max_speech_s v)
                       (skipn _frame_bytes (_buffer v)) (_speech_buffer v)
                       (_in_speech v) (_silent_count v) in
        let '(v1, ev1) := on_frame v frame in
        let '(v2, ev2) := feed_loop fuel' v1 in
        (v2, ev1 ++ ev2)
      else (v, [])
  end.

Definition feed (v : SimpleVAD) (chunk : bytes) : SimpleVAD * list VadEvent :=
  let v := mkVAD (_threshold v) (_min_speech_ms v) (_max_speech_s v)
                 (_buffer v ++ chunk) (_speech_buffer v)
                 (_in_speech v) (_silent_count v) in
  feed_loop (length (_buffer v)) v.

(** A VAD in use: chunks are fed, and the coordinator may reset it. *)
Inductive VadOp :=
| Feed (chunk : bytes)
| Reset.

Fixpoint run_vad (v : SimpleVAD) (ops : list VadOp)
  : SimpleVAD * list VadEvent :=
  match ops with
  | [] => (v, [])
  | Feed chunk :: rest =>
      let '(v1, ev1) := feed v chunk in
      let '(v2, ev2) := run_vad v1 rest in
      (v2, ev1 ++ ev2)
  | Reset :: rest => run_vad (reset v) rest
  end.

(** The duration of a segment in milliseconds, exactly: 32 bytes make one
    millisecond of 16 kHz 16-bit mono audio. *)
Definition duration_ms_exact (pcm : bytes) : Q :=
  (Z.of_nat (length pcm) # 32)%Q.

(** Two frames for examples, as in the test fixtures: 30 ms at a constant
    amplitude of 10000 (bytes 16, 39), and 30 ms of silence. *)
Definition loud_frame : bytes := flat_map (fun _ => [16; 39]%N) (seq 0 480).
Definition silent_frame : bytes := repeat 0%N 960.

(** Between two frames: outside speech the speech buffer is empty, and in
    speech it is still below the forced-emit bound. *)
Definition vad_inv (v : SimpleVAD) : Prop :=
  if _in_speech v
  then (Z.of_nat (length (_speech_buffer v)) < max_bytes v)%Z
  else _speech_buffer v = [].

Definition same_params (v v' : SimpleVAD) : Prop :=
  _threshold v' = _threshold v /\ _min_speech_ms v' = _min_speech_ms v
  /\ _max_speech_s v' = _max_speech_s v.

(** A segment handed to [on_speech_end] by a VAD with the parameters of
    [v]: long enough, and at most one frame over the bound. *)
Definition ok_event (v : SimpleVAD) (e : VadEvent) : Prop :=
  match e with
  | SpeechStart => True
  | SpeechEnd pcm =>
      (_min_speech_ms v <= duration_ms pcm)%Z
      /\ (Z.of_nat (length pcm) <= max_bytes v + Z.of_nat _frame_bytes)%Z
  end.

End Audio.

(* ------------------------------------------------------------------ *)
(** * app.py: the coordinator *)
(* ------------------------------------------------------------------ *)

Module App.

Import Transcriber Audio.

Record Config := mkConfig {
  input_mode : str;
  output_mode : str;
  wake_word : str;
  wake_model : str;
  notification : bool;
  end_signal : bool;
  voice_commands : bool;
  voice_commands_map : list (str * str);
  silence_timeout : Q;
  vad_threshold : Z;
  min_speech_ms : Z;
  max_speech_s : Q
}.

(** The attributes of [WhisperLinuxApp].  [_tray] and [_qt_app] record
    whether the object is there; [_silence_timer] holds the timeout of the
    [threading.Timer] it refers to; [_segment_queue] holds the segments
    that the VAD has put and the worker has not finished yet ([None] in
    the list is the sentinel that ends the worker). *)
Record App := mkApp {
  config : Config;
  state : AppState;
  _tray : bool;
  _qt_app : bool;
  _prev_window_id : option str;
  _audio_stream : bool;
  _vad : option SimpleVAD;
  _wake_detector : option WakeWordDetector;
  _silence_timer : option Q;
  _segment_queue : option (list (option bytes));
  _segment_worker : bool;
  _accumulated_texts : list str;
  _voice_commands : list (str * str);
  _mute_until : Q
}.

(** [WhisperLinuxApp.__init__] *)
Definition new_app (c : Config) : App :=
  mkApp c IDLE false false None false None None None None false []
        (voice_commands_map c) 0.

Definition set_state (x : AppState) (a : App) : App :=
  mkApp (config a) x (_tray a) (_qt_app a) (_prev_window_id a)
        (_audio_stream a) (_vad a) (_wake_detector a) (_silence_timer a)
        (_segment_queue a) (_segment_worker a) (_accumulated_texts a)
        (_voice_commands a) (_mute_until a).

Definition set_prev_window_id (x : option str) (a : App) : App :=
  mkApp (config a) (state a) (_tray a) (_qt_app a) x
        (_audio_stream a) (_vad a) (_wake_detector a) (_silence_timer a)
        (_segment_queue a) (_segment_worker a) (_accumulated_texts a)
        (_voice_commands a) (_mute_until a).

Definition set_audio_stream (x : bool) (a : App) : App :=
  mkApp (config a) (state a) (_tray a) (_qt_app a) (_prev_window_id a)
        x (_vad a) (_wake_detector a) (_silence_timer a)
        (_segment_queue a) (_segment_worker a) (_accumulated_texts a)
        (_voice_commands a) (_mute_until a).

Definition set_vad (x : option SimpleVAD) (a : App) : App :=
  mkApp (config a) (state a) (_tray a) (_qt_app a) (_prev_window_id a)
        (_audio_stream a) x (_wake_detector a) (_silence_timer a)
        (_segment_queue a) (_segment_worker a) (_accumulated_texts a)
        (_voice_commands a) (_mute_until a).

Definition set_wake_detector (x : option WakeWordDetector) (a : App) : App :=
  mkApp (config a) (state a) (_tray a) (_qt_app a) (_prev_window_id a)
        (_audio_stream a) (_vad a) x (_silence_timer a)
        (_segment_queue a) (_segment_worker a) (_accumulated_texts a)
        (_voice_commands a) (_mute_until a).

Definition set_silence_timer (x : option Q) (a : App) : App :=
  mkApp (config a) (state a) (_tray a) (_qt_app a) (_prev_window_id a)
        (_audio_stream a) (_vad a) (_wake_detector a) x
        (_segment_queue a) (_segment_worker a) (_accumulated_texts a)
        (_voice_commands a) (_mute_until a).

Definition set_segment_queue (x : option (list (option bytes))) (a : App)
  : App :=
  mkApp (config a) (state a) (_tray a) (_qt_app a) (_prev_window_id a)
        (_audio_stream a) (_vad a) (_wake_detector a) (_silence_timer a)
        x (_segment_worker a) (_accumulated_texts a)
        (_voice_commands a) (_mute_until a).

Definition set_segment_worker (x : bool) (a : App) : App :=
  mkApp (config a) (state a) (_tray a) (_qt_app a) (_prev_window_id a)
        (_audio_stream a) (_vad a) (_wake_detector a) (_silence_timer a)
        (_segment_queue a) x (_accumulated_texts a)
        (_voice_commands a) (_mute_until a).

Definition set_accumulated_texts (x : list str) (a : App) : App :=
  mkApp (config a) (state a) (_tray a) (_qt_app a) (_prev_window_id a)
        (_audio_stream a) (_vad a) (_wake_detector a) (_silence_timer a)
        (_segment_queue a) (_segment_worker a) x
        (_voice_commands a) (_mute_until a).

Definition set_mute_until (x : Q) (a : App) : App :=
  mkApp (config a) (state a) (_tray a) (_qt_app a) (_prev_window_id a)
        (_audio_stream a) (_vad a) (_wake_detector a) (_silence_timer a)
        (_segment_queue a) (_segment_worker a) (_accumulated_texts a)
        (_voice_commands a) x.

(** ** Methods: they read and update [self] and make calls *)

Definition M (A : Type) : Type := App -> A * App * list Effect.

Definition ret {A} (x : A) : M A := fun a => (x, a, []).

Definition mbind {A B} (m : M A) (k : A -> M B) : M B :=
  fun a =>
    let '(x, a1, t1) := m a in
    let '(y, a2, t2) := k x a1 in
    (y, a2, t1 ++ t2).

Local Notation "x <- m ;; k" := (mbind m (fun x => k))
  (at level 61, m at next level, right associativity).
Local Notation "m ;; k" := (mbind m (fun _ => k))
  (at level 61, right associativity).

Definition gets {A} (f : App -> A) : M A := fun a => (f a, a, []).
Definition modify (f : App -> App) : M unit := fun a => (tt, f a, []).
Definition emit (e : Effect) : M unit := fun a => (tt, a, [e]).
Definition emits (es : list Effect) : M unit := fun a => (tt, a, es).
Definition when (b : bool) (m : M unit) : M unit := if b then m else ret tt.

(** The state and the trace a method ends with. *)
Definition exec {A} (m : M A) (a : App) : App := snd (fst (m a)).
Definition trace {A} (m : M A) (a : App) : list Effect := snd (m a).

Definition state_eqb (x y : AppState) : bool :=
  match x, y with
  | IDLE, IDLE | RECORDING, RECORDING | PROCESSING, PROCESSING
  | LISTENING, LISTENING | DICTATING, DICTATING => true
  | _, _ => false
  end.

(** A float is false exactly when it is zero. *)
Definition nonzero (x : Q) : bool := negb (Qeq_bool x 0).

Definition _inject_text (text : str) : M unit :=
  enabled <- gets (fun a => voice_commands (config a)) ;;
  if enabled then
    cmds <- gets _voice_commands ;;
    emits (snd (VoiceCommands.process cmds text))
  else emit (Inject text).

Definition _set_state (s : AppState) : M unit :=
  modify (set_state s) ;;
  tray <- gets _tray ;;
  when tray (emit (TraySetState s)).

(** With a Qt application the call is posted to the UI thread; the
    embedding runs it in place. *)
Definition _marshal_set_state (s : AppState) : M unit := _set_state s.

Definition _marshal_notify (title message : str) : M unit :=
  tray <- gets _tray ;;
  when tray (emit (Notify title message)).

Definition _cancel_silence_timer : M unit :=
  t <- gets _silence_timer ;;
  match t with
  | Some _ => emit TimerCancel ;; modify (set_silence_timer None)
  | None => ret tt
  end.

Definition _reset_silence_timer : M unit :=
  _cancel_silence_timer ;;
  timeout <- gets (fun a => silence_timeout (config a)) ;;
  modify (set_silence_timer (Some timeout)) ;;
  emit (TimerStart timeout).

(** What [xdotool getactivewindow] did. *)
Inductive WindowQuery :=
| QueryDone (returncode : Z) (stdout : str)
| QueryRaised.

Definition _save_active_window (q : WindowQuery) : M unit :=
  emit SaveWindow ;;
  match q with
  | QueryDone rc out =>
      when (Z.eqb rc 0 && truthy (strip out))
           (modify (set_prev_window_id (Some (strip out))))
  | QueryRaised => modify (set_prev_window_id None)
  end.

Definition _restore_active_window : M unit :=
  w <- gets _prev_window_id ;;
  match w with
  | Some id => when (truthy id) (emit (RestoreWindow id))
  | None => ret tt
  end.

Definition vad_reset : M unit :=
  v <- gets _vad ;;
  match v with
  | Some vad => modify (set_vad (Some (reset vad)))
  | None => ret tt
  end.

(** [now] is [time.time()]. *)
Definition _play_start_signal (now : Q) : M unit :=
  enabled <- gets (fun a => end_signal (config a)) ;;
  if negb enabled then ret tt
  else
    modify (set_mute_until (now + (6 # 10))) ;;
    vad_reset ;;
    emit (PlaySound StartChime).

Definition _play_end_signal (now : Q) : M unit :=
  enabled <- gets (fun a => end_signal (config a)) ;;
  if negb enabled then ret tt
  else
    modify (set_mute_until (now + (6 # 10))) ;;
    vad_reset ;;
    emit (PlaySound EndChime).

Definition _flush_accumulated_text : M unit :=
  acc <- gets _accumulated_texts ;;
  when (truthy acc) (
    let all_text := join (u " ") acc in
    _restore_active_window ;;
    _inject_text all_text ;;
    modify (set_accumulated_texts [])).

Definition _on_speech_start : M unit :=
  s <- gets state ;;
  when (state_eqb s DICTATING) _cancel_silence_timer.

Definition _on_speech_end (pcm_data : bytes) : M unit :=
  s <- gets state ;;
  when (state_eqb s DICTATING) _cancel_silence_timer ;;
  q <- gets _segment_queue ;;
  match q with
  | Some items => modify (set_segment_queue (Some (items ++ [Some pcm_data])))
  | None => ret tt
  end.

(** The callbacks the VAD makes while it is fed. *)
Fixpoint vad_callbacks (events : list VadEvent) : M unit :=
  match events with
  | [] => ret tt
  | SpeechStart :: rest => _on_speech_start ;; vad_callbacks rest
  | SpeechEnd pcm :: rest => _on_speech_end pcm ;; vad_callbacks rest
  end.

Definition _on_audio_data (now : Q) (chunk : bytes) : M unit :=
  mute <- gets _mute_until ;;
  if nonzero mute && Qltb now mute then ret tt
  else
    v <- gets _vad ;;
    match v with
    | Some vad =>
        let '(vad', events) := feed vad chunk in
        modify (set_vad (Some vad')) ;;
        vad_callbacks events
    | None => ret tt
    end.

(** The part of [_process_speech_segment] that follows
    [if not text: return]: the wake-word arbitration and the handling of
    dictated text. *)
Definition on_segment_text (now : Q) (text : str) : M unit :=
  det <- gets _wake_detector ;;
  let woke := match det with
              | Some d => contains_wake_word d text
              | None => false
              end in
  if woke then
    let remaining := match det with
                     | Some d => strip_wake_word d text
                     | None => []
                     end in
    s <- gets state ;;
    match s with
    | LISTENING =>
        _cancel_silence_timer ;;
        modify (set_accumulated_texts []) ;;
        modify (set_state DICTATING) ;;
        _marshal_set_state DICTATING ;;
        _play_start_signal now ;;
        _marshal_notify (u "whisper.linux") (u "Dictation started")
    | DICTATING =>
        _cancel_silence_timer ;;
        when (truthy remaining) (
          om <- gets (fun a => output_mode (config a)) ;;
          if str_eqb om (u "stream") then
            _restore_active_window ;;
            _inject_text remaining
          else
            modify (fun a => set_accumulated_texts
                               (_accumulated_texts a ++ [remaining]) a)) ;;
        _flush_accumulated_text ;;
        modify (set_state LISTENING) ;;
        _marshal_set_state LISTENING ;;
        _marshal_notify (u "whisper.linux") (u "Dictation paused")
    | _ => ret tt
    end
  else
    s <- gets state ;;
    when (state_eqb s DICTATING) (
      om <- gets (fun a => output_mode (config a)) ;;
      (if str_eqb om (u "stream") then
         _restore_active_window ;;
         _inject_text text
       else
         modify (fun a => set_accumulated_texts
                            (_accumulated_texts a ++ [text]) a)) ;;
      im <- gets (fun a => input_mode (config a)) ;;
      when (str_eqb im (u "listen")) _reset_silence_timer ;;
      notif <- gets (fun a => notification (config a)) ;;
      when notif (
        let preview :=
          firstn 80 text ++ (if 80 <? length text then u "..." else []) in
        _marshal_notify (u "whisper.linux") preview)).

(** [_process_speech_segment(pcm_data)], run by the segment worker.
    [run] is what the whisper-cli subprocess did; the temporary WAV file
    exists when the transcriber is called.  An exception on the way is
    caught and logged. *)
Definition _process_speech_segment (now : Q) (run : RunResult)
  (pcm_data : bytes) : M unit :=
  let duration_s := (Z.of_nat (length pcm_data) # 32000)%Q in
  match write_wav pcm_data with
  | None => emit (LogError (u "Stream segment processing failed"))
  | Some _ =>
      match transcribe true run duration_s with
      | Raised _ => emit (LogError (u "Stream segment processing failed"))
      | Returned text =>
          if negb (truthy text) then ret tt else on_segment_text now text
      end
  end.

Definition _on_silence_timeout (now : Q) : M unit :=
  s <- gets state ;;
  when (state_eqb s DICTATING) (
    v <- gets _vad ;;
    let in_speech := match v with Some vad => _in_speech vad | None => false end in
    if in_speech then _reset_silence_timer
    else
      _flush_accumulated_text ;;
      modify (set_state LISTENING) ;;
      _marshal_set_state LISTENING ;;
      _marshal_notify (u "whisper.linux") (u "Dictation paused (silence)") ;;
      _play_end_signal now).

(** While the coordinator waits in [self._segment_worker.join(timeout)],
    the worker goes on with the segments that are in the queue before the
    sentinel.  [runs] lists what the transcriber did for the segments the
    worker gets through before the join returns. *)
Fixpoint worker_drain (now : Q) (runs : list RunResult)
  (items : list (option bytes)) {struct runs} : M unit :=
  match runs, items with
  | run :: runs', Some pcm :: items' =>
      _process_speech_segment now run pcm ;;
      worker_drain now runs' items'
  | _, _ => ret tt
  end.

Definition stop_worker (now : Q) (runs : list RunResult) : M unit :=
  q <- gets _segment_queue ;;
  match q with
  | Some items => modify (set_segment_queue (Some (items ++ [None])))
  | None => ret tt
  end ;;
  w <- gets _segment_worker ;;
  when w (
    emit WorkerJoin ;;
    q <- gets _segment_queue ;;
    worker_drain now runs (match q with Some items => items | None => [] end) ;;
    modify (set_segment_worker false)) ;;
  modify (set_segment_queue None).

Definition stop_stream : M unit :=
  s <- gets _audio_stream ;;
  when s (emit StreamStop ;; modify (set_audio_stream false)).

Definition _stop_listening (now : Q) (runs : list RunResult) : M unit :=
  _cancel_silence_timer ;;
  _flush_accumulated_text ;;
  stop_stream ;;
  modify (set_vad None) ;;
  modify (set_wake_detector None) ;;
  stop_worker now runs ;;
  _set_state IDLE.

Definition _stop_hotkey_stream (now : Q) (runs : list RunResult) : M unit :=
  _cancel_silence_timer ;;
  _flush_accumulated_text ;;
  stop_stream ;;
  modify (set_vad None) ;;
  stop_worker now runs ;;
  _set_state IDLE ;;
  _play_end_signal now.

Definition new_session_vad : M unit :=
  c <- gets config ;;
  modify (set_vad (Some (new_vad (vad_threshold c) (min_speech_ms c)
                                 (max_speech_s c)))).

Definition start_failed : M unit :=
  emit (LogError (u "Failed to start audio stream")) ;;
  tray <- gets _tray ;;
  when tray (emit (Notify (u "Error") (u "Stream failed"))) ;;
  modify (set_segment_worker false) ;;
  modify (set_segment_queue None).

(** [started] tells whether [AudioStream.start] returned. *)
Definition _start_listening (q : WindowQuery) (started : bool) : M unit :=
  _save_active_window q ;;
  w <- gets (fun a => wake_word (config a)) ;;
  modify (set_wake_detector (Some (new_detector w))) ;;
  new_session_vad ;;
  modify (set_audio_stream true) ;;
  modify (set_segment_queue (Some [])) ;;
  modify (set_segment_worker true) ;;
  emit WorkerStart ;;
  emit StreamStart ;;
  if started then _set_state LISTENING else start_failed.

Definition _start_hotkey_stream (now : Q) (q : WindowQuery) (started : bool)
  : M unit :=
  _save_active_window q ;;
  modify (set_wake_detector None) ;;
  new_session_vad ;;
  modify (set_audio_stream true) ;;
  modify (set_accumulated_texts []) ;;
  modify (set_segment_queue (Some [])) ;;
  modify (set_segment_worker true) ;;
  emit WorkerStart ;;
  emit StreamStart ;;
  if started then _set_state DICTATING ;; _play_start_signal now
  else start_failed.

Definition _start_recording (q : WindowQuery) (started : bool) : M unit :=
  _save_active_window q ;;
  emit RecorderStart ;;
  if started then _set_state RECORDING
  else
    emit (LogError (u "Failed to start recording")) ;;
    tray <- gets _tray ;;
    when tray (emit (Notify (u "Error") (u "Recording failed"))).

(** [has_wav] tells whether [recorder.stop()] returned a path. *)
Definition _stop_recording (has_wav : bool) : M unit :=
  emit RecorderStop ;;
  if negb has_wav then _set_state IDLE
  else _set_state PROCESSING.

(** The thread that [_stop_recording] starts. *)
Definition _transcribe_and_inject (now : Q) (isfile : bool) (run : RunResult)
  : M unit :=
  match transcribe isfile run 0 with
  | Returned text =>
      if truthy text then
        _restore_active_window ;;
        _inject_text text ;;
        tray <- gets _tray ;;
        notif <- gets (fun a => notification (config a)) ;;
        when (tray && notif)
             (emit (Notify (u "whisper.linux")
                           (firstn 80 text
                            ++ (if 80 <? length text then u "..." else []))))
      else
        tray <- gets _tray ;;
        when tray (emit (Notify (u "whisper.linux") (u "(no speech detected)")))
  | Raised _ =>
      emit (LogError (u "Transcription/injection failed")) ;;
      tray <- gets _tray ;;
      when tray (emit (Notify (u "Error") (u "Transcription/injection failed")))
  end ;;
  _set_state IDLE ;;
  _play_end_signal now.

(** What the outside hands to a [toggle]: the clock, the answer of
    xdotool, whether the capture came up, whether the recorder left a
    file, and the transcriber runs the worker finishes during a join. *)
Record Env := mkEnv {
  now : Q;
  window : WindowQuery;
  started : bool;
  has_wav : bool;
  runs : list RunResult
}.

Definition _toggle_hotkey (e : Env) : M unit :=
  s <- gets state ;;
  match s with
  | IDLE =>
      om <- gets (fun a => output_mode (config a)) ;;
      if str_eqb om (u "batch") then _start_recording (window e) (started e)
      else _start_hotkey_stream (now e) (window e) (started e)
  | RECORDING => _stop_recording (has_wav e)
  | DICTATING => _stop_hotkey_stream (now e) (runs e)
  | _ => ret tt
  end.

Definition _toggle_listen (e : Env) : M unit :=
  s <- gets state ;;
  match s with
  | IDLE => _start_listening (window e) (started e)
  | LISTENING | DICTATING => _stop_listening (now e) (runs e)
  | _ => ret tt
  end.

Definition toggle (e : Env) : M unit :=
  im <- gets (fun a => input_mode (config a)) ;;
  if str_eqb im (u "listen") then _toggle_listen e else _toggle_hotkey e.

Definition _force_idle (e : Env) : M unit :=
  s <- gets state ;;
  match s with
  | RECORDING => emit RecorderStop ;; _set_state IDLE
  | LISTENING | DICTATING =>
      im <- gets (fun a => input_mode (config a)) ;;
      if str_eqb im (u "hotkey") && state_eqb s DICTATING
      then _stop_hotkey_stream (now e) (runs e)
      else _stop_listening (now e) (runs e) ;; _set_state IDLE
  | _ => _set_state IDLE
  end.

(** ** Reading a trace *)

(** The calls made on the text injector. *)
Definition is_injector_call (e : Effect) : bool :=
  match e with
  | Inject _ | SendKey _ => true
  | _ => false
  end.

Definition injector_calls (t : list Effect) : list Effect :=
  filter is_injector_call t.

(** What playing the start chime does to the coordinator when end signals
    are enabled: the mute deadline and the reset of the VAD. *)
Definition muted_from (now : Q) (a : App) : App :=
  if end_signal (config a)
  then set_vad (option_map reset (_vad a)) (set_mute_until (now + (6 # 10)) a)
  else a.

(** ** Configurations and inputs for examples *)

(** The listen+stream and listen+batch configurations of the test
    fixtures. *)
Definition config_listen (output : str) : Config :=
  mkConfig (u "listen") output (u "дуняша") [] true true true
           VoiceCommands.DEFAULT_COMMANDS 3 300 500 30.

(** The transcriber exits with status zero and prints [text]. *)
Definition prints (text : string) : RunResult :=
  Completed (mkCompleted 0 (u text) []).

(** One second of audio. *)
Definition one_second : bytes := repeat 0%N (N.to_nat 32000).

(** 600 ms at amplitude 10000 followed by 300 ms of silence. *)
Definition utterance : bytes :=
  flat_map (fun _ => loud_frame) (seq 0 20)
  ++ flat_map (fun _ => silent_frame) (seq 0 10).

Definition env_at (t : Q) (runs : list RunResult) : Env :=
  mkEnv t (QueryDone 0 (u "4194307")) true true runs.

(** Listen+stream: the session is toggled on, the wake word starts the
    dictation, one segment is dictated, and the silence timer fires. *)
Definition listening_after_timeout : App :=
  let s0 := new_app (config_listen (u "stream")) in
  let s1 := exec (toggle (env_at 0 [])) s0 in
  let s2 := exec (_process_speech_segment 10 (prints "дуняша") one_second) s1 in
  let s3 := exec (_process_speech_segment 12 (prints "привет мир")
                                          one_second) s2 in
  exec (_on_silence_timeout 15) s3.

(** Listen+batch: the session is toggled on and the wake word starts the
    dictation. *)
Definition dictating_batch : App :=
  let s0 := new_app (config_listen (u "batch")) in
  let s1 := exec (toggle (env_at 0 [])) s0 in
  exec (_process_speech_segment 10 (prints "дуняша") one_second) s1.

(** The same, after the microphone has delivered an utterance that the VAD
    has put in the queue and the worker has not finished yet. *)
Definition dictating_batch_segment_pending : App :=
  exec (_on_audio_data 12 utterance) dictating_batch.

(** The same, after the segment "первая часть" has been dictated. *)
Definition dictating_batch_first_part : App :=
  exec (_process_speech_segment 12 (prints "первая часть") one_second)
       dictating_batch.


End App.

(* ------------------------------------------------------------------ *)
(** * Reading the coordinator's runs *)
(* ------------------------------------------------------------------ *)

Module Runs.

Import Transcriber Audio App.

(** The segments among the callbacks of the VAD, in order. *)
Definition segments (events : list VadEvent) : list bytes :=
  flat_map (fun e => match e with SpeechEnd pcm => [pcm] | SpeechStart => [] end)
           events.


(** No wake word is heard in [text]: there is no detector, or the
    detector does not find it. *)
Definition no_wake (a : App) (text : str) : Prop :=
  match _wake_detector a with
  | Some d => contains_wake_word d text = false
  | None => True
  end.

Definition is_log (e : Effect) : Prop := exists m, e = LogError m.

End Runs.

Module Frames.

Import Transcriber Audio App.



End Frames.

(* ------------------------------------------------------------------ *)
(** * Reading the calls of the voice-command processor *)
(* ------------------------------------------------------------------ *)

Module Calls.

Import VoiceCommands.

(** A token that [process] counts as a command. *)
Definition is_command (a : Action) : bool :=
  match a with NonCommand => false | _ => true end.

Definition is_backspace (a : Action) : bool :=
  match a with Backspace => true | _ => false end.

(** The texts handed to [inject_fn] and the keys handed to
    [send_key_fn], in call order. *)
Definition injected (t : list Effect) : list str :=
  flat_map (fun e => match e with Inject s => [s] | _ => [] end) t.

Definition keys (t : list Effect) : list str :=
  flat_map (fun e => match e with SendKey k => [k] | _ => [] end) t.

(** The key a token stands for, if it is a key-press command. *)
Definition key_of (a : Action) : list str :=
  match a with KeyPress k => [k] | _ => [] end.

End Calls.

(* ------------------------------------------------------------------ *)
(** * The ends of a stripped text *)
(* ------------------------------------------------------------------ *)

Module Ends.

(** Both ends of a text are clear of the characters that [p] picks: the
    text is empty, or it begins and ends with a character that [p]
    rejects. *)
Definition ends_clear (p : N -> bool) (s : str) : Prop :=
  s = [] \/ (exists c r, s = c :: r /\ p c = false)
            /\ (exists r c, s = r ++ [c] /\ p c = false).

End Ends.

(* ------------------------------------------------------------------ *)
(** * The frames of an audio stream *)
(* ------------------------------------------------------------------ *)

Module Frames30.

Import Audio.

(** The whole frames that the loop of [feed] cuts from a buffer. *)
Fixpoint frames_from (fuel : nat) (s : bytes) : list bytes :=
  match fuel with
  | O => []
  | S fuel' =>
      if _frame_bytes <=? length s
      then firstn _frame_bytes s :: frames_from fuel' (skipn _frame_bytes s)
      else []
  end.

Definition frames (s : bytes) : list bytes := frames_from (length s) s.

(** The VAD with another input buffer. *)
Definition with_buffer (b : bytes) (v : SimpleVAD) : SimpleVAD :=
  mkVAD (_threshold v) (_min_speech_ms v) (_max_speech_s v) b
        (_speech_buffer v) (_in_speech v) (_silent_count v).

End Frames30.

(* ------------------------------------------------------------------ *)
(** * injector.py: text and keys through external programs *)
(* ------------------------------------------------------------------ *)

Module Injector.

(** What [subprocess.run(..., check=True, timeout=...)] can raise: a
    non-zero exit status, a missing program, an elapsed timeout, or
    another [OSError] such as a program that may not be executed. *)
Inductive Exn :=
| CalledProcessError
| FileNotFoundError
| TimeoutExpired
| PermissionError.

(** One call of [subprocess.run]: the argument vector and the text given
    as [input], if any. *)
Record Call := mkCall {
  argv : list str;
  input : option str
}.

(** The machine the injector runs on: what the [n]-th subprocess of a
    run does ([None]: exit status zero). *)
Definition Sys := nat -> Call -> option Exn.

Inductive Res (A : Type) :=
| Ok (x : A)
| Raise (e : Exn).

Arguments Ok {A} x.
Arguments Raise {A} e.

(** A method: from the machine and the calls made so far to a result and
    the calls made. *)
Definition I (A : Type) : Type := Sys -> list Call -> Res A * list Call.

Definition ret {A} (x : A) : I A := fun _ calls => (Ok x, calls).

Definition bind {A B} (m : I A) (k : A -> I B) : I B :=
  fun sys calls =>
    match m sys calls with
    | (Ok x, calls') => k x sys calls'
    | (Raise e, calls') => (Raise e, calls')
    end.

Definition run (args : list str) (inp : option str) : I unit :=
  fun sys calls =>
    let c := mkCall args inp in
    (match sys (length calls) c with
     | None => Ok tt
     | Some e => Raise e
     end, calls ++ [c]).

(** [try: m; <on_ok>  except <caught>: <on_fail>], where [on_ok] is what
    follows [m] inside or after the [try] when nothing was raised, and
    [on_fail] is the handler with what follows it. *)
Definition try_ (m : I unit) (caught : Exn -> bool) (on_ok on_fail : I unit)
  : I unit :=
  fun sys calls =>
    match m sys calls with
    | (Ok _, calls') => on_ok sys calls'
    | (Raise e, calls') =>
        if caught e then on_fail sys calls' else (Raise e, calls')
    end.

(** [except (subprocess.CalledProcessError, FileNotFoundError)] *)
Definition failed (e : Exn) : bool :=
  match e with
  | CalledProcessError | FileNotFoundError => true
  | _ => false
  end.

Record Config := mkConfig {
  display_server : str;
  use_clipboard_fallback : bool;
  paste_keys : str
}.

(** [str.isascii] *)
Definition isascii (s : str) : bool := forallb (fun c => (c <? 128)%N) s.

(** [s.split(sep)] for a one-character separator. *)
Fixpoint split_on (sep : N) (cur s : str) : list str :=
  match s with
  | [] => [cur]
  | c :: r =>
      if N.eqb c sep then cur :: split_on sep [] r
      else split_on sep (cur ++ [c]) r
  end.

Definition PLUS : N := 43%N.

Definition _YDOTOOL_KEY_MAP : list (str * str) :=
  [ (u "Return", u "Enter"); (u "Escape", u "Esc") ].

(** [_YDOTOOL_KEY_MAP.get(p, p)] *)
Definition ydotool_name (p : str) : str :=
  match VoiceCommands.lookup _YDOTOOL_KEY_MAP p with
  | Some name => name
  | None => p
  end.

(** A key name without a [+] sign. *)
Definition no_plus (s : str) : Prop := mem_char s PLUS = false.

Definition _inject_clipboard_x11 (text : str) : I unit :=
  bind (run [u "xclip"; u "-selection"; u "clipboard"] (Some text))
       (fun _ =>
  run [u "xdotool"; u "key"; u "--clearmodifiers"; u "ctrl+v"] None).

Definition _inject_x11 (cfg : Config) (text : str) : I unit :=
  if use_clipboard_fallback cfg || negb (isascii text)
  then _inject_clipboard_x11 text
  else
    try_ (run [u "xdotool"; u "type"; u "--clearmodifiers"; u "--"; text]
              None)
         failed
         (ret tt)
         (_inject_clipboard_x11 text).

Definition _inject_wayland (cfg : Config) (text : str) : I unit :=
  try_ (run [u "wtype"; u "--"; text] None) failed
    (ret tt)
    (try_ (bind (run [u "wl-copy"; u "--"; text] None)
                (fun _ => run [u "wl-copy"; u "--primary"; u "--"; text] None))
          failed
       (let paste_keys := paste_keys cfg in
        try_ (run [u "ydotool"; u "key"; u "--delay"; u "100"; paste_keys]
                  None)
             failed
          (ret tt)
          (try_ (run [u "xdotool"; u "key"; u "--clearmodifiers"; paste_keys]
                     None)
                failed
             (ret tt)
             (ret tt)))
       (_inject_x11 cfg text)).

Definition inject (cfg : Config) (text : str) : I unit :=
  if negb (truthy text) then ret tt
  else if str_eqb (display_server cfg) (u "wayland")
       then _inject_wayland cfg text
       else _inject_x11 cfg text.

Definition _send_key_x11 (key : str) : I unit :=
  try_ (run [u "xdotool"; u "key"; u "--clearmodifiers"; key] None) failed
    (ret tt) (ret tt).

(** The command line for wtype: modifiers with [-M], the key with [-k]. *)
Definition wtype_cmd (key : str) : list str :=
  if mem_char key PLUS then
    let parts := split_on PLUS [] key in
    [u "wtype"]
    ++ flat_map (fun mod_ => [u "-M"; lower mod_]) (removelast parts)
    ++ [u "-k"; last parts []]
  else [u "wtype"; u "-k"; key].

(** The key name for ydotool. *)
Definition evdev_key (key : str) : str :=
  if mem_char key PLUS then
    let parts := split_on PLUS [] key in
    join [PLUS] (map ydotool_name parts)
  else ydotool_name key.

Definition _send_key_wayland (key : str) : I unit :=
  try_ (run (wtype_cmd key) None) failed
    (ret tt)
    (try_ (run [u "ydotool"; u "key"; u "--delay"; u "50"; evdev_key key]
               None)
          failed
       (ret tt)
       (try_ (run [u "xdotool"; u "key"; u "--clearmodifiers"; key] None)
             failed
          (ret tt)
          (ret tt))).

Definition send_key (cfg : Config) (key : str) : I unit :=
  if str_eqb (display_server cfg) (u "wayland")
  then _send_key_wayland key
  else _send_key_x11 key.

(** ** Reading a run *)

(** The calls of a method on a machine, and its result. *)
Definition calls_of (m : I unit) (sys : Sys) : list Call := snd (m sys []).
Definition result_of (m : I unit) (sys : Sys) : Res unit := fst (m sys []).

(** The [n]-th call of a run failed in a way that the injector catches. *)
Definition failed_at (sys : Sys) (calls : list Call) (n : nat) : Prop :=
  exists c e, nth_error calls n = Some c /\ sys n c = Some e
              /\ failed e = true.

End Injector.

(* ------------------------------------------------------------------ *)
(** * The coordinator as a machine driven by events *)
(* ------------------------------------------------------------------ *)

Module Machine.

Import Transcriber Audio App.

(** What can happen to the coordinator.  Every method runs to its end
    before the next event (the threads are taken one call at a time):
    SIGUSR1 or the tray toggles; the tray forces the idle state; the
    reader thread delivers a chunk; the segment worker takes the next
    segment from the queue; the silence timer fires (a timer that is not
    armed does not fire); the transcription thread of batch mode gets to
    run. *)
Inductive Event :=
| Toggle (e : Env)
| ForceIdle (e : Env)
| AudioData (now : Q) (chunk : bytes)
| WorkerTakes (now : Q) (run : RunResult)
| SilenceTimer (now : Q)
| BatchDone (now : Q) (isfile : bool) (run : RunResult).

(** One round of [_segment_worker_loop]. *)
Definition worker_takes (now : Q) (run : RunResult) : M unit :=
  mbind (gets _segment_queue) (fun q =>
  match q with
  | Some (Some pcm :: items) =>
      mbind (modify (set_segment_queue (Some items))) (fun _ =>
      _process_speech_segment now run pcm)
  | _ => ret tt
  end).

Definition fire (ev : Event) : M unit :=
  match ev with
  | Toggle e => toggle e
  | ForceIdle e => _force_idle e
  | AudioData now chunk => _on_audio_data now chunk
  | WorkerTakes now run => worker_takes now run
  | SilenceTimer now =>
      mbind (gets _silence_timer) (fun t =>
      match t with
      | Some _ => _on_silence_timeout now
      | None => ret tt
      end)
  | BatchDone now isfile run => _transcribe_and_inject now isfile run
  end.

Fixpoint run_events (a : App) (events : list Event) : App :=
  match events with
  | [] => a
  | ev :: rest => run_events (exec (fire ev) a) rest
  end.

Definition is_streaming (s : AppState) : bool :=
  match s with
  | LISTENING | DICTATING => true
  | _ => false
  end.

(** The states each pair of modes makes use of. *)
Definition allowed (c : Config) (s : AppState) : bool :=
  if str_eqb (input_mode c) (u "listen") then
    match s with IDLE | LISTENING | DICTATING => true | _ => false end
  else if str_eqb (output_mode c) (u "batch") then
    match s with IDLE | RECORDING | PROCESSING => true | _ => false end
  else
    match s with IDLE | DICTATING => true | _ => false end.

(** A session that is up: capture, VAD, queue and worker. *)
Definition live (a : App) : Prop :=
  _audio_stream a = true /\ _vad a <> None
  /\ _segment_queue a <> None /\ _segment_worker a = true.

Definition coherent (a : App) : Prop :=
  allowed (config a) (state a) = true
  /\ (is_streaming (state a) = true -> live a)
  /\ (_segment_worker a = true <-> _segment_queue a <> None)
  /\ (input_mode (config a) <> u "listen" ->
      _wake_detector a = None /\ _silence_timer a = None).

(** The invariant of a coordinator that was made with [cfg]. *)
Definition inv (cfg : Config) (a : App) : Prop :=
  config a = cfg /\ coherent a.

(** What the processing of a segment leaves alone. *)
Definition seg_frame (a a' : App) : Prop :=
  config a' = config a
  /\ _audio_stream a' = _audio_stream a
  /\ (_vad a = None <-> _vad a' = None)
  /\ _wake_detector a' = _wake_detector a
  /\ _segment_queue a' = _segment_queue a
  /\ _segment_worker a' = _segment_worker a
  /\ (is_streaming (state a) = false -> state a' = state a)
  /\ (is_streaming (state a) = true -> is_streaming (state a') = true)
  /\ (input_mode (config a) <> u "listen" -> _wake_detector a = None ->
      state a' = state a
      /\ (_silence_timer a = None -> _silence_timer a' = None)).

End Machine.

(* ------------------------------------------------------------------ *)
(** * Properties of the string model *)
(* ------------------------------------------------------------------ *)

Lemma str_eqb_eq (a b : str) : str_eqb a b = true <-> a = b.
Proof.
  revert b; induction a as [|x a IH]; intros [|y b]; simpl; split;
    try congruence; try reflexivity.
  - intros H. apply andb_true_iff in H as [Hx Hab].
    apply N.eqb_eq in Hx. apply IH in Hab. congruence.
  - intros [= -> ->]. rewrite N.eqb_refl. now apply IH.
Qed.

Lemma truthy_app {A} (l : list A) (x : A) : truthy (l ++ [x]) = true.
Proof. destruct l; reflexivity. Qed.

Import VoiceCommands.

Lemma split_from_word (w cur rest : str) :
  forallb (fun c => negb (isspace c)) w = true ->
  split_from cur (w ++ rest) = split_from (cur ++ w) rest.
Proof.
  revert cur; induction w as [|c w IH]; intros cur H; simpl.
  - now rewrite app_nil_r.
  - simpl in H. apply andb_true_iff in H as [Hc Hw].
    apply negb_true_iff in Hc. rewrite Hc.
    rewrite IH by assumption. now rewrite <- app_assoc.
Qed.

(** Splitting a sentence of single-spaced words gives the words back. *)
Lemma split_join_words (ws : list str) :
  Forall is_word ws -> split (join (u " ") ws) = ws.
Proof.
  unfold split. induction 1 as [|w ws [Hne Hw] Hws IH]; [reflexivity|].
  destruct ws as [|w' ws'].
  - simpl join. rewrite <- (app_nil_r w) at 1.
    rewrite split_from_word by assumption. simpl.
    destruct w; [congruence | reflexivity].
  - change (join (u " ") (w :: w' :: ws'))
      with (w ++ u " " ++ join (u " ") (w' :: ws')).
    rewrite split_from_word by assumption.
    remember (join (u " ") (w' :: ws')) as rest eqn:E.
    change (u " ") with [32%N]. simpl.
    destruct w; [congruence|]. simpl. now rewrite IH.
Qed.

(* ------------------------------------------------------------------ *)
(** * The voice-command processor *)
(* ------------------------------------------------------------------ *)

Section VoiceCommandsFacts.

Variable cmds : list (str * str).

Lemma matches_entryb_spec (token : str) :
  matches_entryb cmds token = true <-> matches_entry cmds token.
Proof.
  unfold matches_entryb, matches_entry. rewrite existsb_exists. split.
  - intros [[k a] [Hin H]]. exists k, a. split; [assumption|]. simpl in H.
    apply orb_true_iff in H as [H|H].
    + left. now apply str_eqb_eq.
    + right. now apply Qle_bool_iff.
  - intros [k [a [Hin H]]]. exists (k, a). split; [assumption|]. simpl.
    apply orb_true_iff. destruct H as [H|H].
    + left. now apply str_eqb_eq.
    + right. now apply Qle_bool_iff.
Qed.

Lemma lookup_none (word : str) :
  (forall k a, In (k, a) cmds -> k <> word) -> lookup cmds word = None.
Proof.
  induction cmds as [|[k a] rest IH]; intros H; simpl; [reflexivity|].
  destruct (str_eqb k word) eqn:E.
  - apply str_eqb_eq in E. exfalso. apply (H k a); [now left | assumption].
  - apply IH. intros k' a' Hin. apply (H k' a'). now right.
Qed.

Lemma best_fuzzy_none (word : str) (best : Q) :
  (forall k a, In (k, a) cmds ->
               ~ (FUZZY_THRESHOLD <= Difflib.ratio k word)%Q) ->
  best_fuzzy cmds word best None = None.
Proof.
  revert best. induction cmds as [|[k a] rest IH]; intros best H; simpl;
    [reflexivity|].
  destruct (Qle_bool FUZZY_THRESHOLD (Difflib.ratio k word)) eqn:E.
  - apply Qle_bool_iff in E. exfalso. apply (H k a); [now left | assumption].
  - simpl. apply IH. intros k' a' Hin. apply (H k' a'). now right.
Qed.

(** A token that matches no entry is not a command. *)
Lemma no_entry_no_command (token : str) :
  ~ matches_entry cmds token ->
  _match_command cmds (lower (strip_chars PUNCTUATION token)) = None.
Proof.
  intros H. unfold _match_command.
  destruct (truthy _); simpl; [|reflexivity].
  rewrite lookup_none.
  - apply best_fuzzy_none. intros k a Hin Hr. apply H.
    exists k, a. split; [assumption | now right].
  - intros k a Hin Hk. apply H. exists k, a. split; [assumption | now left].
Qed.

Lemma no_entry_classify (token : str) :
  ~ matches_entry cmds token -> classify cmds token = NonCommand.
Proof.
  intros H. unfold classify. now rewrite no_entry_no_command.
Qed.

(** One round of the loop, seen from the trace: the calls made so far
    followed by what the scan still owes. *)
Lemma body_scan (l : Loop) (word : str) (rest : list str) :
  calls (body cmds l word)
    ++ scan (classify cmds) (buffer (body cmds l word)) rest
  = calls l ++ scan (classify cmds) (buffer l) (word :: rest).
Proof.
  simpl scan. unfold body, classify.
  destruct (_match_command cmds _) as [action|]; [|reflexivity].
  destruct (truthy action); simpl; [|reflexivity].
  destruct (str_eqb action (u "backspace")).
  - destruct (truthy (buffer l)) eqn:B; simpl.
    + reflexivity.
    + destruct (buffer l); [|discriminate]. simpl.
      now rewrite <- app_assoc.
  - unfold flush. destruct (truthy (buffer l)) eqn:B; simpl.
    + now rewrite <- !app_assoc.
    + destruct (buffer l); [|discriminate]. simpl.
      now rewrite <- app_assoc.
Qed.

Lemma fold_body_scan (words : list str) (l : Loop) :
  let l' := fold_left (body cmds) words l in
  calls l' ++ flush (buffer l') = calls l ++ scan (classify cmds) (buffer l) words.
Proof.
  revert l. induction words as [|w ws IH]; intros l; simpl.
  - reflexivity.
  - rewrite IH. apply body_scan.
Qed.

(** The loop of [process] makes exactly the calls of the scan. *)
Lemma process_scan (text : str) :
  snd (process cmds text) = scan (classify cmds) [] (split text).
Proof.
  unfold process. destruct (split text) as [|w ws] eqn:E; [reflexivity|].
  change (scan (classify cmds) [] (w :: ws))
    with (calls (mkLoop [] false [])
          ++ scan (classify cmds) (buffer (mkLoop [] false [])) (w :: ws)).
  rewrite <- fold_body_scan.
  change (negb (truthy (w :: ws))) with false. cbv iota zeta.
  set (l := fold_left (body cmds) (w :: ws) _).
  unfold flush. destruct (truthy (buffer l)); simpl;
    [reflexivity | now rewrite app_nil_r].
Qed.

Lemma fold_body_flag (words : list str) (l : Loop) :
  (forall t, In t words -> ~ matches_entry cmds t) ->
  had_commands (fold_left (body cmds) words l) = had_commands l.
Proof.
  revert l. induction words as [|w ws IH]; intros l H; simpl; [reflexivity|].
  rewrite IH by (intros t Ht; apply H; now right).
  unfold body. rewrite no_entry_no_command by (apply H; now left).
  reflexivity.
Qed.

Lemma scan_plain (buf tokens : list str) :
  (forall t, In t tokens -> ~ matches_entry cmds t) ->
  scan (classify cmds) buf tokens = flush (buf ++ tokens).
Proof.
  revert buf. induction tokens as [|t ts IH]; intros buf H; simpl.
  - now rewrite app_nil_r.
  - rewrite no_entry_classify by (apply H; now left).
    rewrite IH by (intros t' Ht'; apply H; now right).
    now rewrite <- app_assoc.
Qed.

End VoiceCommandsFacts.

(** Discharges [forall t, In t (split text) -> ~ matches_entry cmds t] on a
    concrete text by running the matcher on each token. *)
Ltac no_token_matches :=
  let t := fresh "t" in
  let Ht := fresh "Ht" in
  let H := fresh "H" in
  intros t Ht H; apply matches_entryb_spec in H; vm_compute in Ht;
  repeat (destruct Ht as [Ht|Ht];
          [subst t; vm_compute in H; discriminate H|]);
  exact Ht.

(** C5.  [VoiceCommands.process] scans the tokens of the text from left to
    right over a buffer: a key-press command injects the joined buffer when
    it is non-empty, clears it and then sends the key; a backspace command
    drops the last buffered token without injecting, or sends
    ctrl+BackSpace when the buffer is empty; what remains in the buffer is
    injected at the end (this is [scan]).  With the default table,
    "hello enter world" gives inject("hello"), key("Return"),
    inject("world") in that order, and "hello world backspace more" gives
    the single call inject("hello more"). *)
Theorem process_scans_left_to_right :
  (forall cmds text,
     snd (process cmds text) = scan (classify cmds) [] (split text))
  /\ snd (process DEFAULT_COMMANDS (u "hello enter world"))
     = [Inject (u "hello"); SendKey (u "Return"); Inject (u "world")]
  /\ snd (process DEFAULT_COMMANDS (u "hello world backspace more"))
     = [Inject (u "hello more")].
Proof.
  split; [exact process_scan|].
  split; vm_compute; reflexivity.
Qed.

(** C6, as stated, fails: with the default table no token of
    "hello  world" (two spaces) is a command, yet the text that is
    injected is "hello world", not the text that was given. *)
Lemma process_respaces_text :
  u "hello  world" <> []
  /\ Forall (fun t => ~ matches_entry DEFAULT_COMMANDS t)
            (split (u "hello  world"))
  /\ snd (process DEFAULT_COMMANDS (u "hello  world"))
     = [Inject (u "hello world")]
  /\ snd (process DEFAULT_COMMANDS (u "hello  world"))
     <> [Inject (u "hello  world")].
Proof.
  split; [discriminate|].
  split; [apply Forall_forall; no_token_matches|].
  split; [vm_compute; reflexivity | vm_compute; discriminate].
Qed.

(** C6, amended.  For a text none of whose tokens matches a command entry
    (exactly or with similarity at least 0.75), [process] reports no
    command, never calls the key function, and, when the text has at least
    one token, calls the inject function exactly once, with the tokens
    joined by single spaces; that is the text itself when the text is
    already single-spaced. *)
Theorem process_plain_text (cmds : list (str * str)) (text : str) :
  (forall t, In t (split text) -> ~ matches_entry cmds t) ->
  process cmds text
  = (false, if truthy (split text)
            then [Inject (join (u " ") (split text))] else [])
  /\ (single_spaced text -> text <> [] ->
      snd (process cmds text) = [Inject text]).
Proof.
  intros H.
  assert (Hcalls : snd (process cmds text) = flush (split text)).
  { rewrite process_scan. now rewrite scan_plain. }
  assert (Hflag : fst (process cmds text) = false).
  { unfold process.
    destruct (split text) as [|w ws] eqn:E; [reflexivity|].
    change (negb (truthy (w :: ws))) with false. cbv iota zeta.
    set (l := fold_left (body cmds) (w :: ws) _).
    assert (Hf : had_commands l = false).
    { unfold l. rewrite fold_body_flag; [reflexivity|].
      intros t Ht. apply H. try rewrite E. exact Ht. }
    destruct (truthy (buffer l)); simpl; exact Hf. }
  split.
  - rewrite (surjective_pairing (process cmds text)), Hflag, Hcalls.
    reflexivity.
  - intros [ws [Hws ->]] Hne. rewrite Hcalls.
    rewrite split_join_words by assumption.
    destruct ws; [now elim Hne | reflexivity].
Qed.

Lemma process_plain_text_witness :
  process DEFAULT_COMMANDS (u "hello world")
  = (false, [Inject (u "hello world")]).
Proof.
  refine (proj1 (process_plain_text DEFAULT_COMMANDS (u "hello world") _)).
  no_token_matches.
Defined.

(* ------------------------------------------------------------------ *)
(** * The hallucination filter and the transcriber adapter *)
(* ------------------------------------------------------------------ *)

Import Transcriber.

Lemma Qltb_lt (x y : Q) : Qltb x y = true <-> (x < y)%Q.
Proof.
  unfold Qltb. rewrite negb_true_iff. split.
  - intros H. apply Qnot_le_lt. intros Hle.
    apply Qle_bool_iff in Hle. congruence.
  - intros H. destruct (Qle_bool y x) eqn:E; [|reflexivity].
    apply Qle_bool_iff in E. exfalso. exact (Qlt_not_le _ _ H E).
Qed.

Lemma py_max_lt (a b c : Q) :
  Qltb (py_max a b) c = true <-> (Qmax a b < c)%Q.
Proof.
  rewrite Qltb_lt. rewrite Q.max_lub_lt_iff. unfold py_max.
  destruct (Qltb a b) eqn:E.
  - apply Qltb_lt in E. split; [|tauto].
    intros H. split; [|assumption]. now apply Qlt_trans with b.
  - assert (Hba : (b <= a)%Q).
    { apply Qnot_lt_le. intros H. apply Qltb_lt in H. congruence. }
    split; [|tauto].
    intros H. split; [assumption|]. now apply Qle_lt_trans with a.
Qed.

(** [len(text.split())] counts the places where a word starts. *)
Lemma length_split_from (cur s : str) :
  length (split_from cur s)
  = if truthy cur then S (count_words_from false s)
    else count_words_from true s.
Proof.
  revert cur. induction s as [|c r IH]; intros cur; simpl.
  - destruct cur; reflexivity.
  - destruct (isspace c).
    + destruct cur; simpl; rewrite IH; reflexivity.
    + rewrite IH, truthy_app. destruct cur; reflexivity.
Qed.

Lemma length_split (s : str) : length (split s) = count_words s.
Proof. unfold split. now rewrite length_split_from. Qed.

(** [text.replace(" ", "")] drops the spaces and nothing else. *)
Lemma replace_space (s : str) :
  replace (u " ") [] s = filter (fun c => negb (N.eqb c 32)) s.
Proof.
  unfold replace. change (u " ") with [32%N].
  induction s as [|c r IH]; [reflexivity|].
  cbn [replace_from startswith filter length Nat.sub].
  rewrite N.eqb_sym. destruct (N.eqb c 32); simpl.
  - exact IH.
  - now rewrite IH.
Qed.

Lemma speech_rate_check_spec (text : str) (d : Q) :
  speech_rate_check text d = true <->
  exceeds (count_words text) (Qmax 2 (d * 5))
  \/ exceeds (count_non_space text) (Qmax 10 (d * 25)).
Proof.
  unfold speech_rate_check, exceeds, count_non_space.
  rewrite length_split, replace_space.
  change _MAX_WORDS_PER_SEC with 5%Q. change _MAX_CHARS_PER_SEC with 25%Q.
  destruct (Qltb (py_max 2 (d * 5)) _) eqn:E1.
  - apply py_max_lt in E1. tauto.
  - destruct (Qltb (py_max 10 (d * 25)) _) eqn:E2.
    + apply py_max_lt in E2. tauto.
    + split; [discriminate|]. intros [H|H]; apply py_max_lt in H; congruence.
Qed.



(** What [strip] leaves is empty or has a character that is not
    whitespace. *)
Lemma lstrip_by_head (p : N -> bool) (s : str) :
  lstrip_by p s = [] \/ exists c r, lstrip_by p s = c :: r /\ p c = false.
Proof.
  induction s as [|c r IH]; simpl; [now left|].
  destruct (p c) eqn:E; [exact IH|]. right. now exists c, r.
Qed.




(* ------------------------------------------------------------------ *)
(** * The WAV writer *)
(* ------------------------------------------------------------------ *)

Import Audio.

Lemma le_bytes_length (width : nat) (n : Z) : length (le_bytes width n) = width.
Proof.
  revert n. induction width as [|w IH]; intros n; simpl; [reflexivity|].
  now rewrite IH.
Qed.

Lemma unpack_le_bytes (width : nat) (n : Z) :
  (0 <= n < 256 ^ Z.of_nat width)%Z -> unpack (le_bytes width n) = n.
Proof.
  revert n. induction width as [|w IH]; intros n Hn.
  - simpl in *. lia.
  - cbn [le_bytes unpack].
    rewrite Nat2Z.inj_succ, Z.pow_succ_r in Hn by lia.
    rewrite IH.
    + rewrite Z2N.id by (apply Z.mod_pos_bound; lia).
      pose proof (Z.div_mod n 256). lia.
    + split.
      * apply Z.div_pos; lia.
      * apply Z.div_lt_upper_bound; lia.
Qed.

Lemma pack_fits (width : nat) (n : Z) :
  (0 <= n < 256 ^ Z.of_nat width)%Z -> pack width n = Some (le_bytes width n).
Proof.
  intros [H0 H1]. unfold pack.
  apply Z.leb_le in H0. apply Z.ltb_lt in H1. now rewrite H0, H1.
Qed.

(** The file that [write_wav] leaves: the fixed fields, the two size
    fields, and then the samples. *)
Lemma write_wav_bytes (pcm : bytes) :
  (Z.of_nat (length pcm) + 36 < 2 ^ 32)%Z ->
  write_wav pcm
  = Some ([82; 73; 70; 70]%N
          ++ le_bytes 4 (36 + Z.of_nat (length pcm))
          ++ [87; 65; 86; 69; 102; 109; 116; 32;
              16; 0; 0; 0; 1; 0; 1; 0; 128; 62; 0; 0; 0; 125; 0; 0;
              2; 0; 16; 0; 100; 97; 116; 97]%N
          ++ le_bytes 4 (Z.of_nat (length pcm))
          ++ pcm).
Proof.
  intros H. unfold write_wav, _write_wav.
  rewrite (pack_fits 4 (36 + Z.of_nat (length pcm)))
    by (change (256 ^ Z.of_nat 4)%Z with (2 ^ 32)%Z; lia).
  rewrite (pack_fits 4 (Z.of_nat (length pcm)))
    by (change (256 ^ Z.of_nat 4)%Z with (2 ^ 32)%Z; lia).
  reflexivity.
Qed.

(** C7, as stated, fails: the size fields of the header are 32 bits wide,
    and for a PCM string of 2^32 - 36 bytes [struct.pack] raises on the
    first of them, so no file with a header is produced. *)
Lemma write_wav_rejects_4gib :
  write_wav (repeat 0%N (N.to_nat 4294967260)) = None.
Proof.
  unfold write_wav, _write_wav.
  rewrite repeat_length, N_nat_Z. reflexivity.
Qed.

(** C7, amended.  For every PCM byte string of fewer than 2^32 - 36 bytes
    (what the 32-bit size fields of the format can describe), [write_wav]
    produces a file of 44 header bytes followed by exactly the PCM bytes;
    the data-chunk length field holds the byte length of the PCM input,
    and the format fields declare PCM at 16 kHz, mono, 16 bit. *)
Theorem write_wav_layout (pcm : bytes) :
  (Z.of_nat (length pcm) + 36 < 2 ^ 32)%Z ->
  exists file,
    write_wav pcm = Some file
    /\ length file = 44 + length pcm
    /\ skipn 44 file = pcm
    /\ unpack (slice 40 4 file) = Z.of_nat (length pcm)
    /\ slice 0 4 file = u "RIFF"
    /\ unpack (slice 4 4 file) = (36 + Z.of_nat (length pcm))%Z
    /\ slice 8 8 file = u "WAVEfmt "
    /\ unpack (slice 16 4 file) = 16%Z
    /\ unpack (slice 20 2 file) = 1%Z
    /\ unpack (slice 22 2 file) = 1%Z
    /\ unpack (slice 24 4 file) = 16000%Z
    /\ unpack (slice 28 4 file) = 32000%Z
    /\ unpack (slice 32 2 file) = 2%Z
    /\ unpack (slice 34 2 file) = 16%Z
    /\ slice 36 4 file = u "data".
Proof.
  intros H. eexists. split; [apply write_wav_bytes; exact H|].
  assert (H4 : (256 ^ Z.of_nat 4 = 2 ^ 32)%Z) by reflexivity.
  pose proof (unpack_le_bytes 4 (Z.of_nat (length pcm))) as Ud.
  pose proof (unpack_le_bytes 4 (36 + Z.of_nat (length pcm))) as Ur.
  rewrite H4 in Ud, Ur.
  cbn [le_bytes] in *. unfold slice.
  cbn [app firstn skipn length].
  repeat split; try reflexivity.
  - apply Ud. lia.
  - apply Ur. lia.
Qed.

Lemma write_wav_layout_witness :
  exists file,
    write_wav [1; 2; 3; 4]%N = Some file
    /\ length file = 48
    /\ skipn 44 file = [1; 2; 3; 4]%N
    /\ unpack (slice 40 4 file) = 4%Z
    /\ slice 0 4 file = u "RIFF"
    /\ unpack (slice 4 4 file) = 40%Z
    /\ slice 8 8 file = u "WAVEfmt "
    /\ unpack (slice 16 4 file) = 16%Z
    /\ unpack (slice 20 2 file) = 1%Z
    /\ unpack (slice 22 2 file) = 1%Z
    /\ unpack (slice 24 4 file) = 16000%Z
    /\ unpack (slice 28 4 file) = 32000%Z
    /\ unpack (slice 32 2 file) = 2%Z
    /\ unpack (slice 34 2 file) = 16%Z
    /\ slice 36 4 file = u "data".
Proof.
  apply (write_wav_layout [1; 2; 3; 4]%N). reflexivity.
Defined.

(* ------------------------------------------------------------------ *)
(** * The voice-activity detector *)
(* ------------------------------------------------------------------ *)

Lemma same_params_refl (v : SimpleVAD) : same_params v v.
Proof. repeat split. Qed.

Lemma same_params_max_bytes (v v' : SimpleVAD) :
  same_params v v' -> max_bytes v' = max_bytes v.
Proof. intros [_ [_ H]]. unfold max_bytes. now rewrite H. Qed.

Lemma ok_event_params (v v' : SimpleVAD) (e : VadEvent) :
  same_params v v' -> ok_event v' e -> ok_event v e.
Proof.
  intros Hp. pose proof (same_params_max_bytes _ _ Hp) as Hm.
  destruct Hp as [_ [Hmin _]]. destruct e; simpl; [trivial|].
  now rewrite Hm, Hmin.
Qed.

(** [_emit_speech] clears the speech state in the same way whether the
    segment is handed on or dropped. *)
Lemma emit_speech_state (v : SimpleVAD) :
  fst (_emit_speech v)
  = mkVAD (_threshold v) (_min_speech_ms v) (_max_speech_s v)
          (_buffer v) [] false 0.
Proof. unfold _emit_speech. destruct (_ <=? _)%Z; reflexivity. Qed.

Lemma emit_speech_events (v : SimpleVAD) :
  snd (_emit_speech v)
  = if (_min_speech_ms v <=? duration_ms (_speech_buffer v))%Z
    then [SpeechEnd (_speech_buffer v)] else [].
Proof. unfold _emit_speech. destruct (_ <=? _)%Z; reflexivity. Qed.

Lemma emit_speech_ok (v : SimpleVAD) :
  (Z.of_nat (length (_speech_buffer v))
   <= max_bytes v + Z.of_nat _frame_bytes)%Z ->
  Forall (ok_event v) (snd (_emit_speech v)).
Proof.
  intros H. rewrite emit_speech_events.
  destruct (_ <=? _)%Z eqn:E; constructor; [|constructor].
  simpl. split; [now apply Z.leb_le | exact H].
Qed.

Lemma emit_speech_inv (v v1 : SimpleVAD) (ev : list VadEvent) :
  _emit_speech v = (v1, ev) ->
  (Z.of_nat (length (_speech_buffer v))
   <= max_bytes v + Z.of_nat _frame_bytes)%Z ->
  vad_inv v1 /\ same_params v v1 /\ _buffer v1 = _buffer v
  /\ _in_speech v1 = false /\ Forall (ok_event v) ev.
Proof.
  intros E Hb.
  pose proof (emit_speech_state v) as Hs. pose proof (emit_speech_ok v Hb) as He.
  rewrite E in Hs, He. cbn [fst snd] in Hs, He. subst v1.
  repeat split. exact He.
Qed.

(** One frame keeps the invariant, leaves the input buffer alone, and
    hands on only segments within the bounds. *)
Lemma on_frame_inv (v : SimpleVAD) (frame : bytes) :
  length frame = _frame_bytes ->
  (0 <= max_bytes v)%Z ->
  vad_inv v ->
  vad_inv (fst (on_frame v frame))
  /\ same_params v (fst (on_frame v frame))
  /\ _buffer (fst (on_frame v frame)) = _buffer v
  /\ Forall (ok_event v) (snd (on_frame v frame)).
Proof.
  intros Hlen Hmax Hinv. unfold on_frame.
  assert (Happ : Z.of_nat (length (_speech_buffer v ++ frame))
                 = (Z.of_nat (length (_speech_buffer v))
                    + Z.of_nat _frame_bytes)%Z).
  { rewrite length_app, Hlen. lia. }
  assert (Hbound : (Z.of_nat (length (_speech_buffer v ++ frame))
                    <= max_bytes v + Z.of_nat _frame_bytes)%Z).
  { rewrite Happ. unfold vad_inv in Hinv.
    destruct (_in_speech v); [lia | rewrite Hinv; simpl; lia]. }
  (* the first half of the body: classification of the frame *)
  match goal with
  | |- context [let '(v1, ev1) := ?step in _] =>
      destruct step as [v1 ev1] eqn:Hstep
  end.
  assert (H1 : same_params v v1 /\ _buffer v1 = _buffer v
               /\ Forall (ok_event v) ev1
               /\ (Z.of_nat (length (_speech_buffer v1))
                   <= max_bytes v + Z.of_nat _frame_bytes)%Z
               /\ (_in_speech v1 = false -> vad_inv v1)).
  { destruct (rms_at_least frame (_threshold v)).
    - injection Hstep as <- <-. cbn [_speech_buffer _buffer _in_speech].
      repeat split; [|exact Hbound|discriminate].
      destruct (negb (_in_speech v)); repeat constructor.
    - destruct (_in_speech v) eqn:Hs.
      + cbn [_silent_count] in Hstep.
        destruct (_silence_frames <=? _silent_count v + 1)%Z.
        * apply emit_speech_inv in Hstep; [|exact Hbound].
          destruct Hstep as [Hi [Hp [Hb [His Hev]]]].
          split; [exact Hp|]. split; [exact Hb|]. split; [exact Hev|]. split.
          -- unfold vad_inv in Hi. rewrite His in Hi. rewrite Hi. simpl. lia.
          -- intros _. exact Hi.
        * injection Hstep as <- <-. cbn [_speech_buffer _buffer _in_speech].
          repeat split; [constructor|exact Hbound|discriminate].
      + injection Hstep as <- <-.
        repeat split; [constructor| |intros _; exact Hinv].
        unfold vad_inv in Hinv. rewrite Hs in Hinv. rewrite Hinv. simpl. lia. }
  destruct H1 as [Hp [Hb [Hev [Hlen1 Hidle]]]].
  pose proof (same_params_max_bytes _ _ Hp) as Hm.
  (* the second half: the forced emit *)
  destruct (_in_speech v1) eqn:Hs1; cbn [andb].
  - destruct (max_bytes v1 <=? _)%Z eqn:E.
    + destruct (_emit_speech v1) as [v2 ev2] eqn:Hemit. cbn [fst snd].
      apply emit_speech_inv in Hemit; [|now rewrite Hm].
      destruct Hemit as [Hi [Hp2 [Hb2 [_ Hev2]]]].
      split; [exact Hi|]. split.
      * destruct Hp as [? [? ?]], Hp2 as [? [? ?]]. repeat split; congruence.
      * split; [congruence|]. apply Forall_app. split; [exact Hev|].
        eapply Forall_impl; [|exact Hev2].
        intros e. apply ok_event_params. exact Hp.
    + cbn [fst snd]. apply Z.leb_gt in E.
      repeat split; try apply Hp; try assumption.
      unfold vad_inv. now rewrite Hs1.
  - cbn [fst snd]. repeat split; try apply Hp; try assumption.
    now apply Hidle.
Qed.

Lemma feed_loop_inv (fuel : nat) (v : SimpleVAD) :
  (0 <= max_bytes v)%Z ->
  vad_inv v ->
  vad_inv (fst (feed_loop fuel v))
  /\ same_params v (fst (feed_loop fuel v))
  /\ Forall (ok_event v) (snd (feed_loop fuel v))
  /\ (length (_buffer v) <= fuel ->
      length (_buffer (fst (feed_loop fuel v))) < _frame_bytes).
Proof.
  revert v. induction fuel as [|fuel IH]; intros v Hmax Hinv.
  - cbn [feed_loop fst snd]. repeat split; [exact Hinv|constructor|].
    intros H. change _frame_bytes with 960. lia.
  - cbn [feed_loop]. destruct (_frame_bytes <=? length (_buffer v)) eqn:E.
    + apply Nat.leb_le in E.
      set (v0 := mkVAD _ _ _ (skipn _frame_bytes (_buffer v)) _ _ _).
      set (frame := firstn _frame_bytes (_buffer v)).
      assert (Hf : length frame = _frame_bytes).
      { unfold frame. rewrite length_firstn. lia. }
      destruct (on_frame_inv v0 frame Hf Hmax Hinv) as [Hi1 [Hp1 [Hb1 He1]]].
      destruct (on_frame v0 frame) as [v1 ev1]. cbn [fst snd] in *.
      pose proof (same_params_max_bytes _ _ Hp1) as Hm1.
      assert (Hmax1 : (0 <= max_bytes v1)%Z) by (rewrite Hm1; exact Hmax).
      destruct (IH v1 Hmax1 Hi1) as [Hi2 [Hp2 [He2 Hdone]]].
      destruct (feed_loop fuel v1) as [v2 ev2]. cbn [fst snd] in *.
      split; [exact Hi2|]. split.
      * destruct Hp1 as [? [? ?]], Hp2 as [? [? ?]].
        repeat split; cbn in *; congruence.
      * split.
        -- apply Forall_app. split; [exact He1|].
           eapply Forall_impl; [|exact He2].
           intros e. apply (ok_event_params v0 v1). exact Hp1.
        -- intros Hfuel. apply Hdone. rewrite Hb1. unfold v0. cbn [_buffer].
           rewrite length_skipn. change _frame_bytes with 960 in *. lia.
    + apply Nat.leb_gt in E. cbn [fst snd].
      repeat split; [exact Hinv|constructor|]. intros _. exact E.
Qed.

Lemma feed_inv (v : SimpleVAD) (chunk : bytes) :
  (0 <= max_bytes v)%Z ->
  vad_inv v ->
  vad_inv (fst (feed v chunk))
  /\ same_params v (fst (feed v chunk))
  /\ Forall (ok_event v) (snd (feed v chunk))
  /\ length (_buffer (fst (feed v chunk))) < _frame_bytes.
Proof.
  intros Hmax Hinv. unfold feed.
  set (v0 := mkVAD _ _ _ (_buffer v ++ chunk) _ _ _).
  destruct (feed_loop_inv (length (_buffer v0)) v0 Hmax Hinv)
    as [Hi [Hp [He Hdone]]].
  repeat split; try apply Hp; try assumption. now apply Hdone.
Qed.

Lemma run_vad_inv (ops : list VadOp) (v : SimpleVAD) :
  (0 <= max_bytes v)%Z ->
  vad_inv v ->
  Forall (ok_event v) (snd (run_vad v ops)).
Proof.
  revert v. induction ops as [|[chunk|] ops IH]; intros v Hmax Hinv.
  - constructor.
  - cbn [run_vad].
    destruct (feed_inv v chunk Hmax Hinv) as [Hi [Hp [He _]]].
    destruct (feed v chunk) as [v1 ev1]. cbn [fst snd] in *.
    pose proof (same_params_max_bytes _ _ Hp) as Hm.
    assert (Hmax1 : (0 <= max_bytes v1)%Z) by (rewrite Hm; exact Hmax).
    pose proof (IH v1 Hmax1 Hi) as He2.
    destruct (run_vad v1 ops) as [v2 ev2]. cbn [fst snd] in *.
    apply Forall_app. split; [exact He|].
    eapply Forall_impl; [|exact He2].
    intros e. apply ok_event_params. exact Hp.
  - cbn [run_vad]. apply (IH (reset v)); [exact Hmax | reflexivity].
Qed.

(** The [while] loop of [feed] runs until less than a frame is left:
    the fuel of [feed_loop] never runs out first. *)
Lemma on_frame_buffer (v : SimpleVAD) (frame : bytes) :
  _buffer (fst (on_frame v frame)) = _buffer v.
Proof.
  unfold on_frame.
  match goal with
  | |- context [let '(v1, ev1) := ?step in _] =>
      destruct step as [v1 ev1] eqn:Hstep
  end.
  assert (H1 : _buffer v1 = _buffer v).
  { destruct (rms_at_least frame (_threshold v)).
    - now injection Hstep as <- <-.
    - destruct (_in_speech v).
      + destruct (_ <=? _)%Z.
        * apply (f_equal fst) in Hstep. rewrite emit_speech_state in Hstep.
          cbn [fst] in Hstep. now subst v1.
        * now injection Hstep as <- <-.
      + now injection Hstep as <- <-. }
  destruct (_in_speech v1 && _)%bool.
  - destruct (_emit_speech v1) as [v2 ev2] eqn:E. cbn [fst].
    apply (f_equal fst) in E. rewrite emit_speech_state in E.
    cbn [fst] in E. now subst v2.
  - exact H1.
Qed.

Lemma feed_loop_done (fuel : nat) (v : SimpleVAD) :
  length (_buffer v) <= fuel ->
  length (_buffer (fst (feed_loop fuel v))) < _frame_bytes.
Proof.
  revert v. induction fuel as [|fuel IH]; intros v H.
  - cbn [feed_loop fst]. change _frame_bytes with 960. lia.
  - cbn [feed_loop]. destruct (_frame_bytes <=? length (_buffer v)) eqn:E.
    + apply Nat.leb_le in E.
      set (v0 := mkVAD _ _ _ (skipn _frame_bytes (_buffer v)) _ _ _).
      pose proof (on_frame_buffer v0 (firstn _frame_bytes (_buffer v))) as Hb.
      destruct (on_frame v0 _) as [v1 ev1]. cbn [fst] in Hb.
      specialize (IH v1).
      destruct (feed_loop fuel v1) as [v2 ev2]. cbn [fst] in *.
      apply IH. rewrite Hb. unfold v0. cbn [_buffer].
      rewrite length_skipn. change _frame_bytes with 960 in *. lia.
    + apply Nat.leb_gt in E. exact E.
Qed.

Lemma feed_runs_to_completion (v : SimpleVAD) (chunk : bytes) :
  length (_buffer (fst (feed v chunk))) < _frame_bytes.
Proof. unfold feed. now apply feed_loop_done. Qed.

Lemma py_int_nonneg (x : Q) : (0 <= x)%Q -> (0 <= py_int x)%Z.
Proof.
  destruct x as [p q]. unfold Qle, py_int. simpl. intros H.
  apply Z.quot_pos; lia.
Qed.

Lemma py_int_le (x : Q) : (0 <= x)%Q -> (inject_Z (py_int x) <= x)%Q.
Proof.
  destruct x as [p q]. unfold Qle, py_int. simpl. intros H.
  rewrite Z.quot_div_nonneg by lia.
  pose proof (Z.mul_div_le p (Zpos q)). lia.
Qed.

Lemma max_bytes_new_vad (threshold min_speech_ms : Z) (max_speech_s : Q) :
  (0 <= max_speech_s)%Q ->
  let v := new_vad threshold min_speech_ms max_speech_s in
  (0 <= max_bytes v)%Z /\ (inject_Z (max_bytes v) <= max_speech_s * 32000)%Q.
Proof.
  intros H v. unfold max_bytes, v. cbn [new_vad _max_speech_s].
  change (inject_Z SAMPLE_RATE) with 16000%Q.
  assert (H0 : (0 <= max_speech_s * 16000 * 2)%Q) by lra.
  split; [now apply py_int_nonneg|].
  apply Qle_trans with (max_speech_s * 16000 * 2)%Q;
    [now apply py_int_le | lra].
Qed.

(** C3.  Whatever chunks are fed to a VAD (and whenever it is reset in
    between), every segment passed to [on_speech_end] lasts at least
    [min_speech_ms] and at most [max_speech_s] plus one 30 ms frame.
    [_emit_speech] leaves the same state behind whether it hands the
    segment on or drops it, and it drops a region that is shorter than
    [min_speech_ms] without any callback. *)
Theorem vad_segment_bounds
  (threshold min_speech_ms : Z) (max_speech_s : Q) (ops : list VadOp) :
  (0 <= max_speech_s)%Q ->
  (forall pcm,
     In (SpeechEnd pcm)
        (snd (run_vad (new_vad threshold min_speech_ms max_speech_s) ops)) ->
     (inject_Z min_speech_ms <= duration_ms_exact pcm)%Q
     /\ (duration_ms_exact pcm <= max_speech_s * 1000 + 30)%Q)
  /\ (forall v : SimpleVAD,
        fst (_emit_speech v)
        = mkVAD (_threshold v) (_min_speech_ms v) (_max_speech_s v)
                (_buffer v) [] false 0
        /\ ((duration_ms (_speech_buffer v) < _min_speech_ms v)%Z ->
            snd (_emit_speech v) = [])
        /\ ((_min_speech_ms v <= duration_ms (_speech_buffer v))%Z ->
            snd (_emit_speech v) = [SpeechEnd (_speech_buffer v)])).
Proof.
  intros Hmax. split.
  - intros pcm Hin.
    destruct (max_bytes_new_vad threshold min_speech_ms max_speech_s Hmax)
      as [H0 Hle].
    pose proof (run_vad_inv ops (new_vad threshold min_speech_ms max_speech_s)
                  H0 eq_refl) as Hall.
    rewrite Forall_forall in Hall. specialize (Hall _ Hin).
    cbn [ok_event new_vad _min_speech_ms] in Hall.
    destruct Hall as [Hmin Hlen]. unfold duration_ms in Hmin.
    change (SAMPLE_RATE * 2)%Z with 32000%Z in Hmin.
    change (Z.of_nat _frame_bytes) with 960%Z in Hlen.
    unfold duration_ms_exact. split.
    + unfold Qle. simpl.
      assert (H : (min_speech_ms * 32000 <= Z.of_nat (length pcm) * 1000)%Z).
      { apply Z.le_trans
          with (Z.of_nat (length pcm) * 1000 / 32000 * 32000)%Z.
        - apply Z.mul_le_mono_nonneg_r; lia.
        - rewrite Z.mul_comm. apply Z.mul_div_le. lia. }
      lia.
    + apply Qle_trans
        with ((inject_Z (max_bytes (new_vad threshold min_speech_ms
                                            max_speech_s)) + 960) / 32)%Q.
      * rewrite Qmake_Qdiv. change (inject_Z (Z.pos 32)) with 32%Q.
        apply Qmult_le_compat_r; [|discriminate].
        rewrite Zle_Qle, inject_Z_plus in Hlen. exact Hlen.
      * set (mb := inject_Z (max_bytes _)) in *.
        apply Qle_shift_div_r; [reflexivity|]. lra.
  - intros v. split; [apply emit_speech_state|].
    rewrite emit_speech_events. split; intros H.
    + apply Z.leb_gt in H. now rewrite H.
    + apply Z.leb_le in H. now rewrite H.
Qed.

Lemma vad_segment_bounds_witness :
  (inject_Z 60
   <= duration_ms_exact (loud_frame ++ loud_frame ++ loud_frame ++ silent_frame))%Q
  /\ (duration_ms_exact (loud_frame ++ loud_frame ++ loud_frame ++ silent_frame)
      <= (1 # 10) * 1000 + 30)%Q.
Proof.
  refine (proj1 (vad_segment_bounds 300 60 (1 # 10)
                   [Feed (loud_frame ++ loud_frame ++ loud_frame);
                    Feed silent_frame] _) _ _).
  - unfold Qle. simpl. lia.
  - vm_compute. right. left. reflexivity.
Defined.

(* ------------------------------------------------------------------ *)
(** * The coordinator *)
(* ------------------------------------------------------------------ *)

Import App.

(** Runs the methods of the coordinator symbolically: unfolds the monad
    and the methods, but neither the string functions nor the voice
    commands. *)
Ltac run_app :=
  cbv beta iota zeta delta
      [on_segment_text _process_speech_segment _on_audio_data
       _on_silence_timeout _stop_listening _stop_hotkey_stream stop_worker
       stop_stream worker_drain
       mbind ret gets modify emit emits when exec trace
       _cancel_silence_timer _reset_silence_timer _marshal_set_state
       _set_state _marshal_notify _play_start_signal _play_end_signal
       vad_reset _flush_accumulated_text _restore_active_window _inject_text
       set_state set_prev_window_id set_audio_stream set_vad
       set_wake_detector set_silence_timer set_segment_queue
       set_segment_worker set_accumulated_texts set_mute_until
       config state _tray _qt_app _prev_window_id _audio_stream _vad
       _wake_detector _silence_timer _segment_queue _segment_worker
       _accumulated_texts _voice_commands _mute_until
       input_mode output_mode notification end_signal voice_commands
       silence_timeout
       muted_from option_map
       fst snd state_eqb negb andb orb];
  cbn [app].

Lemma nonzero_pos (x : Q) : (0 < x)%Q -> nonzero x = true.
Proof.
  intros H. unfold nonzero. apply negb_true_iff.
  destruct (Qeq_bool x 0) eqn:E; [|reflexivity].
  apply Qeq_bool_iff in E. rewrite E in H. discriminate H.
Qed.

(** C8.  A chunk that arrives before the mute deadline is dropped before
    it reaches the VAD: the coordinator, its VAD included, stays as it is
    and nothing is called.  Whenever a start or an end chime is played,
    the deadline has been set to 600 ms after the current time and the VAD
    has been reset.  ([now] is [time.time()], seconds since the epoch.) *)
Theorem mute_window :
  (forall (now : Q) (chunk : bytes) (a : App),
     (0 <= now)%Q ->
     (now < _mute_until a)%Q ->
     _on_audio_data now chunk a = (tt, a, []))
  /\ (forall (now : Q) (a : App),
        In (PlaySound StartChime) (trace (_play_start_signal now) a) ->
        _mute_until (exec (_play_start_signal now) a) = (now + (6 # 10))%Q
        /\ _vad (exec (_play_start_signal now) a) = option_map reset (_vad a))
  /\ (forall (now : Q) (a : App),
        In (PlaySound EndChime) (trace (_play_end_signal now) a) ->
        _mute_until (exec (_play_end_signal now) a) = (now + (6 # 10))%Q
        /\ _vad (exec (_play_end_signal now) a) = option_map reset (_vad a)).
Proof.
  split; [|split].
  - intros now chunk a H0 Hlt. unfold _on_audio_data, mbind, gets.
    rewrite nonzero_pos by (apply Qle_lt_trans with now; assumption).
    apply Qltb_lt in Hlt. rewrite Hlt. reflexivity.
  - intros now a. destruct a as [c ? ? ? ? ? v ? ? ? ? ? ? ?].
    destruct c as [? ? ? ? ? es ? ? ? ? ? ?].
    destruct es; run_app; cbn [In]; [|intros []].
    intros _. destruct v; split; reflexivity.
  - intros now a. destruct a as [c ? ? ? ? ? v ? ? ? ? ? ? ?].
    destruct c as [? ? ? ? ? es ? ? ? ? ? ?].
    destruct es; run_app; cbn [In]; [|intros []].
    intros _. destruct v; split; reflexivity.
Qed.

Lemma mute_window_witness :
  let a := exec (_play_start_signal 100)
                (set_vad (Some (new_vad 300 500 30))
                         (new_app (config_listen (u "stream")))) in
  _on_audio_data (1003 # 10) loud_frame a = (tt, a, []).
Proof.
  intros a.
  apply (proj1 mute_window (1003 # 10)%Q loud_frame a).
  - unfold Qle. simpl. lia.
  - vm_compute. reflexivity.
Defined.

Lemma write_wav_some (pcm : bytes) :
  (Z.of_nat (length pcm) + 36 < 2 ^ 32)%Z -> write_wav pcm <> None.
Proof. intros H. rewrite write_wav_bytes by exact H. discriminate. Qed.

Lemma one_second_fits : write_wav one_second <> None.
Proof.
  apply write_wav_some. unfold one_second.
  rewrite repeat_length, N_nat_Z. reflexivity.
Qed.

(** With a file written and a non-empty transcript, the segment is
    handed to the arbitration. *)
Lemma process_segment_text
  (now : Q) (run : RunResult) (pcm : bytes) (text : str) (a : App) :
  write_wav pcm <> None ->
  transcribe true run (Z.of_nat (length pcm) # 32000) = Returned text ->
  text <> [] ->
  _process_speech_segment now run pcm a = on_segment_text now text a.
Proof.
  intros Hw Ht Hne. unfold _process_speech_segment.
  destruct (write_wav pcm); [|congruence]. rewrite Ht.
  destruct text; [congruence | reflexivity].
Qed.

(** Every call that [process] makes is a call on the injector. *)
Lemma scan_injector_calls (act : str -> VoiceCommands.Action)
  (tokens buf : list str) :
  injector_calls (VoiceCommands.scan act buf tokens)
  = VoiceCommands.scan act buf tokens.
Proof.
  unfold injector_calls. revert buf.
  induction tokens as [|t ts IH]; intros buf; simpl.
  - unfold VoiceCommands.flush. destruct (truthy buf); reflexivity.
  - destruct (act t).
    + apply IH.
    + rewrite filter_app. simpl. rewrite IH.
      unfold VoiceCommands.flush. destruct (truthy buf); reflexivity.
    + destruct (truthy buf); simpl; now rewrite IH.
Qed.

Lemma process_injector_calls (cmds : list (str * str)) (text : str) :
  injector_calls (snd (VoiceCommands.process cmds text))
  = snd (VoiceCommands.process cmds text).
Proof. rewrite process_scan. apply scan_injector_calls. Qed.

(** C10, as stated, fails.  After a silence timeout the machine is in
    LISTENING and still refers to the timer that fired; the wake
    transition then also cancels that timer and forgets it, which is an
    effect besides clearing the buffer, the state change, the chime with
    its mute window and the notification. *)
Lemma wake_start_cancels_timer :
  let a := listening_after_timeout in
  let step := _process_speech_segment 20 (prints "дуняша привет") one_second in
  state a = LISTENING
  /\ _silence_timer a = Some 3%Q
  /\ state (exec step a) = DICTATING
  /\ _silence_timer (exec step a) = None
  /\ In TimerCancel (trace step a)
  /\ exec step a
     <> muted_from 20 (set_state DICTATING (set_accumulated_texts [] a)).
Proof.
  cbv zeta.
  split; [vm_compute; reflexivity|].
  split; [vm_compute; reflexivity|].
  split; [vm_compute; reflexivity|].
  split; [vm_compute; reflexivity|].
  split; [vm_compute; left; reflexivity|].
  intros H. apply (f_equal _silence_timer) in H.
  vm_compute in H. discriminate H.
Qed.

Lemma on_segment_text_wake_start
  (now : Q) (text : str) (a : App) (d : WakeWordDetector) :
  state a = LISTENING ->
  _wake_detector a = Some d ->
  contains_wake_word d text = true ->
  on_segment_text now text a
  = (tt,
     muted_from now
       (set_state DICTATING
          (set_accumulated_texts [] (set_silence_timer None a))),
     match _silence_timer a with Some _ => [TimerCancel] | None => [] end
     ++ (if _tray a then [TraySetState DICTATING] else [])
     ++ (if end_signal (config a) then [PlaySound StartChime] else [])
     ++ (if _tray a
         then [Notify (u "whisper.linux") (u "Dictation started")]
         else [])).
Proof.
  intros Hs Hd Hc.
  destruct a as [c st tray qt win stream vad det timer queue worker acc cmds mute].
  cbn [state _wake_detector] in Hs, Hd. subst st det.
  destruct c as [im om ww wm notif es vc vcm sto vt msm mss].
  run_app. rewrite Hc.
  destruct timer, tray, es, vad; reflexivity.
Qed.

(** C10, amended.  On the wake transition from LISTENING to DICTATING the
    text that remains in the segment after the wake word takes no part:
    nothing is injected and nothing is appended to the buffer.  The
    effects are: the silence timer, if the machine still refers to one, is
    cancelled and forgotten; the buffer is cleared; the state changes; the
    start chime is played with its mute window and VAD reset (when end
    signals are enabled); the notification is sent (when there is a
    tray). *)
Theorem wake_start_discards_residue
  (now : Q) (run : RunResult) (pcm : bytes) (text : str)
  (a : App) (d : WakeWordDetector) :
  write_wav pcm <> None ->
  transcribe true run (Z.of_nat (length pcm) # 32000) = Returned text ->
  text <> [] ->
  state a = LISTENING ->
  _wake_detector a = Some d ->
  contains_wake_word d text = true ->
  exec (_process_speech_segment now run pcm) a
  = muted_from now
      (set_state DICTATING
         (set_accumulated_texts [] (set_silence_timer None a)))
  /\ trace (_process_speech_segment now run pcm) a
     = match _silence_timer a with Some _ => [TimerCancel] | None => [] end
       ++ (if _tray a then [TraySetState DICTATING] else [])
       ++ (if end_signal (config a) then [PlaySound StartChime] else [])
       ++ (if _tray a
           then [Notify (u "whisper.linux") (u "Dictation started")]
           else [])
  /\ injector_calls (trace (_process_speech_segment now run pcm) a) = []
  /\ _accumulated_texts (exec (_process_speech_segment now run pcm) a) = [].
Proof.
  intros Hw Ht Hne Hs Hd Hc.
  unfold exec, trace.
  rewrite (process_segment_text now run pcm text a) by assumption.
  rewrite (on_segment_text_wake_start now text a d) by assumption.
  cbn [fst snd]. split; [reflexivity|]. split; [reflexivity|]. split.
  - destruct (_silence_timer a), (_tray a), (end_signal (config a));
      reflexivity.
  - destruct a as [c ? ? ? ? ? ? ? ? ? ? ? ? ?]. unfold muted_from.
    destruct (end_signal _); reflexivity.
Qed.

Lemma wake_start_discards_residue_witness :
  let a := listening_after_timeout in
  let step := _process_speech_segment 20 (prints "дуняша привет") one_second in
  exec step a
  = muted_from 20
      (set_state DICTATING
         (set_accumulated_texts [] (set_silence_timer None a)))
  /\ trace step a
     = match _silence_timer a with Some _ => [TimerCancel] | None => [] end
       ++ (if _tray a then [TraySetState DICTATING] else [])
       ++ (if end_signal (config a) then [PlaySound StartChime] else [])
       ++ (if _tray a
           then [Notify (u "whisper.linux") (u "Dictation started")]
           else [])
  /\ injector_calls (trace step a) = []
  /\ _accumulated_texts (exec step a) = [].
Proof.
  cbv zeta.
  apply (wake_start_discards_residue 20 (prints "дуняша привет") one_second
           (u "дуняша привет") listening_after_timeout
           (new_detector (u "дуняша"))).
  - exact one_second_fits.
  - vm_compute. reflexivity.
  - vm_compute. discriminate.
  - vm_compute. reflexivity.
  - vm_compute. reflexivity.
  - vm_compute. reflexivity.
Defined.







(** The third end-to-end scenario of the specification: from DICTATING
    with ["первая часть"] accumulated, "вторая часть дуняша" arrives. *)
Example scenario_batch_wake_stop :
  let step := _process_speech_segment 14 (prints "вторая часть дуняша")
                                      one_second in
  _accumulated_texts dictating_batch_first_part = [u "первая часть"]
  /\ injector_calls (trace step dictating_batch_first_part)
     = [Inject (u "первая часть вторая часть")]
  /\ state (exec step dictating_batch_first_part) = LISTENING
  /\ _accumulated_texts (exec step dictating_batch_first_part) = [].
Proof.
  cbv zeta.
  split; [vm_compute; reflexivity|].
  split; [vm_compute; reflexivity|].
  split; vm_compute; reflexivity.
Qed.

(** When the worker finishes no segment while the coordinator waits for
    it, both stop routines end in IDLE with an empty buffer and without a
    silence timer. *)
Lemma stop_listening_quiet (now : Q) (a : App) :
  let a' := exec (_stop_listening now []) a in
  state a' = IDLE /\ _accumulated_texts a' = [] /\ _silence_timer a' = None.
Proof.
  destruct a as [c st tray qt win stream vad det timer queue worker acc cmds mute].
  destruct c as [im om ww wm notif es vc vcm sto vt msm mss].
  destruct timer, acc, vc, tray, win as [[|? ?]|], stream, queue, worker;
    cbv zeta; (split; [reflexivity | split; reflexivity]).
Qed.

Lemma stop_hotkey_stream_quiet (now : Q) (a : App) :
  let a' := exec (_stop_hotkey_stream now []) a in
  state a' = IDLE /\ _accumulated_texts a' = [] /\ _silence_timer a' = None.
Proof.
  destruct a as [c st tray qt win stream vad det timer queue worker acc cmds mute].
  destruct c as [im om ww wm notif es vc vcm sto vt msm mss].
  destruct timer, acc, vc, tray, win as [[|? ?]|], stream, queue, worker, es;
    cbv zeta; (split; [reflexivity | split; reflexivity]).
Qed.

(** C9: the code breaks the invariant that IDLE implies an empty buffer
    and no silence timer.  Listen input, batch output; the machine is
    DICTATING, the buffer is empty, and one segment that the VAD has
    emitted is still with the worker.  The user toggles.
    [_stop_listening] cancels the timer and flushes the buffer first, and
    only then waits for the worker; the worker finishes the segment while
    the state is still DICTATING, appends its text to the buffer and arms
    the silence timer.  The machine ends in IDLE with the text in the
    buffer and a timer armed, and nothing has been injected. *)
Theorem stop_listening_leaves_segment_text :
  let a := dictating_batch_segment_pending in
  let stop := toggle (env_at 13 [prints "привет мир"]) in
  state a = DICTATING
  /\ _accumulated_texts a = []
  /\ _silence_timer a = None
  /\ option_map (@length (option bytes)) (_segment_queue a) = Some 1
  /\ state (exec stop a) = IDLE
  /\ _accumulated_texts (exec stop a) = [u "привет мир"]
  /\ _silence_timer (exec stop a) = Some 3%Q
  /\ injector_calls (trace stop a) = [].
Proof.
  cbv zeta.
  split; [vm_compute; reflexivity|].
  split; [vm_compute; reflexivity|].
  split; [vm_compute; reflexivity|].
  split; [vm_compute; reflexivity|].
  split; [vm_compute; reflexivity|].
  split; [vm_compute; reflexivity|].
  split; vm_compute; reflexivity.
Qed.

(* ------------------------------------------------------------------ *)
(** * More about the coordinator *)
(* ------------------------------------------------------------------ *)

Import Runs.

Lemma exec_bind {A B} (m : M A) (k : A -> M B) (a : App) :
  exec (mbind m k) a = exec (k (fst (fst (m a)))) (exec m a).
Proof.
  unfold exec, mbind. destruct (m a) as [[x a1] t1]. cbn [fst snd].
  destruct (k x a1) as [[y a2] t2]. reflexivity.
Qed.

Lemma trace_bind {A B} (m : M A) (k : A -> M B) (a : App) :
  trace (mbind m k) a = trace m a ++ trace (k (fst (fst (m a)))) (exec m a).
Proof.
  unfold trace, exec, mbind. destruct (m a) as [[x a1] t1]. cbn [fst snd].
  destruct (k x a1) as [[y a2] t2]. reflexivity.
Qed.

(** A worker result that arrives while no streaming session is open
    (IDLE, RECORDING, PROCESSING) is dropped: the coordinator stays as it
    is, and at most an error is logged. *)
Theorem stale_segment_dropped
  (now : Q) (run : RunResult) (pcm : bytes) (a : App) :
  state a = IDLE \/ state a = RECORDING \/ state a = PROCESSING ->
  exec (_process_speech_segment now run pcm) a = a
  /\ Forall is_log (trace (_process_speech_segment now run pcm) a).
Proof.
  intros Hs.
  destruct a as [c st tray qt win stream vad det timer queue worker acc cmds mute].
  cbn [state] in Hs.
  unfold _process_speech_segment.
  destruct (write_wav pcm);
    [|split; [reflexivity | repeat constructor; eexists; reflexivity]].
  destruct (transcribe true run _) as [[|c0 t]|e];
    [split; [reflexivity | constructor]
    | | split; [reflexivity | repeat constructor; eexists; reflexivity]].
  cbn [truthy negb].
  destruct Hs as [-> | [-> | ->]];
    (destruct det as [d|];
     [destruct (contains_wake_word d (c0 :: t)) eqn:E|];
     unfold exec, trace; run_app; rewrite ?E;
     (split; [reflexivity | constructor])).
Qed.

Lemma stale_segment_dropped_witness :
  exec (_process_speech_segment 5 (prints "привет мир") one_second)
       (new_app (config_listen (u "stream")))
  = new_app (config_listen (u "stream"))
  /\ Forall is_log
       (trace (_process_speech_segment 5 (prints "привет мир") one_second)
              (new_app (config_listen (u "stream")))).
Proof.
  apply (stale_segment_dropped 5 (prints "привет мир") one_second
           (new_app (config_listen (u "stream")))).
  left. reflexivity.
Defined.

(** In LISTENING a transcript without the wake word is dropped as well:
    nothing is injected, accumulated or armed. *)
Theorem listening_drops_text
  (now : Q) (run : RunResult) (pcm : bytes) (a : App) :
  state a = LISTENING ->
  (forall text,
     transcribe true run (Z.of_nat (length pcm) # 32000) = Returned text ->
     no_wake a text) ->
  exec (_process_speech_segment now run pcm) a = a
  /\ Forall is_log (trace (_process_speech_segment now run pcm) a).
Proof.
  intros Hs Hw.
  destruct a as [c st tray qt win stream vad det timer queue worker acc cmds mute].
  cbn [state] in Hs. subst st.
  unfold _process_speech_segment.
  destruct (write_wav pcm);
    [|split; [reflexivity | repeat constructor; eexists; reflexivity]].
  destruct (transcribe true run _) as [[|c0 t]|e];
    [split; [reflexivity | constructor]
    | | split; [reflexivity | repeat constructor; eexists; reflexivity]].
  specialize (Hw _ eq_refl). unfold no_wake in Hw. cbn [_wake_detector] in Hw.
  cbn [truthy negb].
  destruct det as [d|]; unfold exec, trace; run_app; rewrite ?Hw;
    (split; [reflexivity | constructor]).
Qed.

Lemma listening_drops_text_witness :
  let a := listening_after_timeout in
  exec (_process_speech_segment 20 (prints "привет мир") one_second) a = a
  /\ Forall is_log
       (trace (_process_speech_segment 20 (prints "привет мир") one_second) a).
Proof.
  apply (listening_drops_text 20 (prints "привет мир") one_second
           listening_after_timeout).
  - vm_compute. reflexivity.
  - intros text H. vm_compute in H. injection H as <-.
    vm_compute. reflexivity.
Defined.


Lemma injector_calls_app (s t : list Effect) :
  injector_calls (s ++ t) = injector_calls s ++ injector_calls t.
Proof. apply filter_app. Qed.





Lemma flush_exec (a : App) :
  exec _flush_accumulated_text a = set_accumulated_texts [] a.
Proof.
  destruct a as [c st tray qt win stream vad det timer queue worker acc cmds mute].
  destruct c as [im om ww wm notif es vc vcm sto vt msm mss].
  destruct acc, win as [[|w0 ws]|], vc; reflexivity.
Qed.



Lemma process_filter (cmds : list (str * str)) (text : str) :
  filter is_injector_call
         (let (_, y) := VoiceCommands.process cmds text in y)
  = (let (_, y) := VoiceCommands.process cmds text in y).
Proof. exact (process_injector_calls cmds text). Qed.

(** The transcription thread of hotkey+batch mode always brings the
    machine back to IDLE, also when the transcriber fails; the buffer is
    not touched; a non-empty transcript goes to the text-injection step
    once and nothing is injected otherwise; the tray update and the end
    chime (when enabled) come last. *)
Theorem batch_result_returns_to_idle
  (now : Q) (isfile : bool) (run : RunResult) (a : App) :
  let step := _transcribe_and_inject now isfile run in
  state (exec step a) = IDLE
  /\ _accumulated_texts (exec step a) = _accumulated_texts a
  /\ injector_calls (trace step a)
     = match transcribe isfile run 0 with
       | Returned text => if truthy text then trace (_inject_text text) a else []
       | Raised _ => []
       end
  /\ exists before,
       trace step a
       = before
         ++ (if _tray a then [TraySetState IDLE] else [])
         ++ (if end_signal (config a) then [PlaySound EndChime] else [])
       /\ injector_calls before = injector_calls (trace step a).
Proof.
  cbv zeta. unfold _transcribe_and_inject.
  match goal with
  | |- context [mbind ?b (fun _ => mbind (_set_state IDLE) _)] =>
      set (body := b)
  end.
  assert (Hbody : exec body a = a
                  /\ injector_calls (trace body a)
                     = match transcribe isfile run 0 with
                       | Returned text =>
                           if truthy text then trace (_inject_text text) a
                           else []
                       | Raised _ => []
                       end).
  { unfold body. clear body.
    destruct a as [c st tray qt win stream vad det timer queue worker acc cmds mute].
    destruct c as [im om ww wm notif es vc vcm sto vt msm mss].
    destruct (transcribe isfile run 0) as [[|c0 t]|e];
      destruct tray, win as [[|w0 ws]|], vc, notif;
      unfold exec, trace; run_app; cbn [truthy app];
      (split; [reflexivity|]);
      unfold injector_calls; cbn [filter is_injector_call app];
      rewrite ?filter_app; cbn [filter is_injector_call app];
      rewrite ?process_filter, ?app_nil_r; reflexivity. }
  destruct Hbody as [Hexec Hcalls].
  assert (Htail : exec (mbind (_set_state IDLE)
                          (fun _ => _play_end_signal now)) a
                  = muted_from now (set_state IDLE a)
                  /\ trace (mbind (_set_state IDLE)
                              (fun _ => _play_end_signal now)) a
                     = (if _tray a then [TraySetState IDLE] else [])
                       ++ (if end_signal (config a)
                           then [PlaySound EndChime] else [])).
  { destruct a as [c st tray qt win stream vad det timer queue worker acc cmds mute].
    destruct c as [im om ww wm notif es vc vcm sto vt msm mss].
    destruct tray, es, vad; split; reflexivity. }
  destruct Htail as [Htexec Httrace].
  rewrite exec_bind, trace_bind, Hexec, Htexec, Httrace.
  split; [|split; [|split]].
  - destruct a as [c ? ? ? ? ? ? ? ? ? ? ? ? ?]. unfold muted_from.
    destruct (end_signal _); reflexivity.
  - destruct a as [c ? ? ? ? ? ? ? ? ? ? ? ? ?]. unfold muted_from.
    destruct (end_signal _); reflexivity.
  - rewrite injector_calls_app, Hcalls.
    destruct (_tray a), (end_signal (config a));
      cbn [app injector_calls filter is_injector_call];
      now rewrite app_nil_r.
  - exists (trace body a). split; [reflexivity|].
    rewrite injector_calls_app.
    destruct (_tray a), (end_signal (config a));
      cbn [app injector_calls filter is_injector_call];
      now rewrite app_nil_r.
Qed.

Lemma Qltb_ge (x y : Q) : (y <= x)%Q -> Qltb x y = false.
Proof.
  intros H. unfold Qltb. apply negb_false_iff. now apply Qle_bool_iff.
Qed.

(** What the callbacks of the VAD do to the coordinator: they queue the
    segments in order, and may cancel the silence timer; nothing else. *)
Lemma vad_callbacks_effect (events : list VadEvent) (a : App) :
  let a' := exec (vad_callbacks events) a in
  state a' = state a
  /\ _accumulated_texts a' = _accumulated_texts a
  /\ _vad a' = _vad a
  /\ _segment_queue a'
     = option_map (fun q => q ++ map Some (segments events)) (_segment_queue a)
  /\ injector_calls (trace (vad_callbacks events) a) = [].
Proof.
  cbv zeta. revert a. induction events as [|e events IH]; intros a.
  - cbn [vad_callbacks segments flat_map map].
    destruct a as [? ? ? ? ? ? ? ? ? queue ? ? ? ?].
    destruct queue; cbn; rewrite ?app_nil_r; repeat split.
  - cbn [vad_callbacks]. destruct e as [|pcm].
    + rewrite exec_bind, trace_bind, injector_calls_app.
      destruct (IH (exec _on_speech_start a)) as [H1 [H2 [H3 [H4 H5]]]].
      rewrite H1, H2, H3, H4, H5. cbn [segments flat_map app].
      destruct a as [c st tray qt win stream vad det timer queue worker acc cmds mute].
      destruct st, timer; repeat split.
    + rewrite exec_bind, trace_bind, injector_calls_app.
      destruct (IH (exec (_on_speech_end pcm) a)) as [H1 [H2 [H3 [H4 H5]]]].
      rewrite H1, H2, H3, H4, H5.
      change (segments (SpeechEnd pcm :: events)) with (pcm :: segments events).
      destruct a as [c st tray qt win stream vad det timer queue worker acc cmds mute].
      destruct st, timer, queue; cbn; rewrite <- ?app_assoc; repeat split.
Qed.

(** Once the mute deadline has passed, a chunk reaches the VAD exactly
    once, and the segments that the VAD hands on are put at the back of
    the queue in the order of emission; the state and the buffer stay,
    and nothing is injected. *)
Theorem audio_reaches_vad
  (now : Q) (chunk : bytes) (a : App) (vad : SimpleVAD)
  (queue : list (option bytes)) :
  (_mute_until a <= now)%Q ->
  _vad a = Some vad ->
  _segment_queue a = Some queue ->
  let a' := exec (_on_audio_data now chunk) a in
  _vad a' = Some (fst (feed vad chunk))
  /\ _segment_queue a'
     = Some (queue ++ map Some (segments (snd (feed vad chunk))))
  /\ state a' = state a
  /\ _accumulated_texts a' = _accumulated_texts a
  /\ injector_calls (trace (_on_audio_data now chunk) a) = [].
Proof.
  intros Hm Hv Hq. cbv zeta.
  unfold _on_audio_data.
  rewrite exec_bind, trace_bind. cbn [gets fst snd exec trace app].
  rewrite (Qltb_ge now (_mute_until a) Hm), andb_false_r.
  change (snd (fst (ret tt a))) with a.
  rewrite exec_bind, trace_bind. cbn [gets fst snd exec trace app].
  rewrite Hv. destruct (feed vad chunk) as [vad' events]. cbn [fst snd].
  fold (exec (mbind (modify (set_vad (Some vad')))
                    (fun _ => vad_callbacks events)) a).
  fold (trace (mbind (modify (set_vad (Some vad')))
                     (fun _ => vad_callbacks events)) a).
  rewrite exec_bind, trace_bind.
  destruct (vad_callbacks_effect events (exec (modify (set_vad (Some vad'))) a))
    as [H1 [H2 [H3 [H4 H5]]]].
  rewrite H1, H2, H3, H4. rewrite injector_calls_app, H5.
  destruct a as [? ? ? ? ? ? ? ? ? q ? ? ? ?]. cbn [_segment_queue] in Hq.
  subst q. repeat split.
Qed.

Lemma audio_reaches_vad_witness :
  let a := dictating_batch in
  let vad := new_vad 300 500 30 in
  let a' := exec (_on_audio_data 12 utterance) a in
  _vad a' = Some (fst (feed vad utterance))
  /\ _segment_queue a'
     = Some ([] ++ map Some (segments (snd (feed vad utterance))))
  /\ state a' = state a
  /\ _accumulated_texts a' = _accumulated_texts a
  /\ injector_calls (trace (_on_audio_data 12 utterance) a) = [].
Proof.
  apply (audio_reaches_vad 12 utterance dictating_batch (new_vad 300 500 30) []).
  - vm_compute. discriminate.
  - vm_compute. reflexivity.
  - vm_compute. reflexivity.
Defined.

Import Frames.

Section Preservation.

Variable R : App -> App -> Prop.
Hypothesis R_refl : forall a, R a a.
Hypothesis R_trans : forall a b c, R a b -> R b c -> R a c.








End Preservation.









Lemma set_state_exec (s : AppState) (a : App) :
  exec (_set_state s) a = set_state s a.
Proof.
  destruct a as [? ? tray ? ? ? ? ? ? ? ? ? ? ?]. destruct tray; reflexivity.
Qed.


(* ------------------------------------------------------------------ *)
(** * More on the voice-command processor *)
(* ------------------------------------------------------------------ *)

Import Calls.

Lemma split_from_words (cur s : str) :
  forallb (fun c => negb (isspace c)) cur = true ->
  Forall is_word (split_from cur s).
Proof.
  revert cur. induction s as [|c r IH]; intros cur Hcur; simpl.
  - destruct cur; simpl; constructor; [|constructor].
    split; [discriminate | assumption].
  - destruct (isspace c) eqn:Ec.
    + destruct cur as [|x cur]; simpl.
      * now apply IH.
      * constructor; [split; [discriminate | assumption] | now apply IH].
    + apply IH. rewrite forallb_app, Hcur. simpl. now rewrite Ec.
Qed.

Lemma split_words (s : str) : Forall is_word (split s).
Proof. now apply split_from_words. Qed.

Section Matching.

Variable cmds : list (str * str).
Variable word : str.

(** The fuzzy loop keeps the first entry of the highest similarity above
    what it started with, or its start value. *)
Lemma best_fuzzy_spec (rest : list (str * str)) (br : Q) (ba : option str) :
  let res := best_fuzzy rest word br ba in
  (res = ba
   /\ forall k a, In (k, a) rest ->
        ~ ((FUZZY_THRESHOLD <= Difflib.ratio k word)%Q
           /\ (br < Difflib.ratio k word)%Q))
  \/ (exists k a, res = Some a /\ In (k, a) rest
        /\ (FUZZY_THRESHOLD <= Difflib.ratio k word)%Q
        /\ (br < Difflib.ratio k word)%Q
        /\ forall k' a', In (k', a') rest ->
             (Difflib.ratio k' word <= Difflib.ratio k word)%Q).
Proof.
  cbv zeta. revert br ba.
  induction rest as [|[k0 a0] rest IH]; intros br ba; simpl.
  - left. split; [reflexivity | intros k a []].
  - destruct (Qle_bool FUZZY_THRESHOLD (Difflib.ratio k0 word)) eqn:E1;
      [destruct (Qle_bool (Difflib.ratio k0 word) br) eqn:E2|]; simpl.
    + (* above the threshold, not better *)
      apply Qle_bool_iff in E1, E2.
      destruct (IH br ba) as [[Hres Hall] | [k [a [Hres [Hin [H1 [H2 Hmax]]]]]]].
      * left. split; [assumption|].
        intros k a [[= <- <-] | Hin]; [|now apply (Hall k a)].
        intros [_ H]. apply Qlt_not_le in H. contradiction.
      * right. exists k, a. repeat split; try assumption; [now right|].
        intros k' a' [[= <- <-] | Hin']; [|now apply (Hmax k' a')].
        apply Qlt_le_weak. apply (Qle_lt_trans _ br); assumption.
    + (* better *)
      apply Qle_bool_iff in E1.
      assert (E3 : (br < Difflib.ratio k0 word)%Q).
      { apply Qnot_le_lt. intros H. apply Qle_bool_iff in H. congruence. }
      right.
      destruct (IH (Difflib.ratio k0 word) (Some a0))
        as [[Hres Hall] | [k [a [Hres [Hin [H1 [H2 Hmax]]]]]]].
      * exists k0, a0. repeat split; try assumption; [now left|].
        intros k' a' [[= <- <-] | Hin']; [apply Qle_refl|].
        destruct (Qlt_le_dec (Difflib.ratio k0 word) (Difflib.ratio k' word))
          as [Hlt|Hle]; [|assumption].
        destruct (Qlt_le_dec (Difflib.ratio k' word) FUZZY_THRESHOLD)
          as [Hb|Hb].
        -- apply Qlt_le_weak.
           apply (Qlt_le_trans _ FUZZY_THRESHOLD); assumption.
        -- exfalso. apply (Hall k' a' Hin'). split; assumption.
      * exists k, a. repeat split; try assumption; [now right | |].
        -- apply (Qlt_trans _ (Difflib.ratio k0 word)); assumption.
        -- intros k' a' [[= <- <-] | Hin']; [|now apply (Hmax k' a')].
           now apply Qlt_le_weak.
    + (* below the threshold *)
      assert (E3 : ~ (FUZZY_THRESHOLD <= Difflib.ratio k0 word)%Q).
      { intros H. apply Qle_bool_iff in H. congruence. }
      destruct (IH br ba) as [[Hres Hall] | [k [a [Hres [Hin [H1 [H2 Hmax]]]]]]].
      * left. split; [assumption|].
        intros k a [[= <- <-] | Hin]; [|now apply (Hall k a)].
        intros [H _]. contradiction.
      * right. exists k, a. repeat split; try assumption; [now right|].
        intros k' a' [[= <- <-] | Hin']; [|now apply (Hmax k' a')].
        apply Qlt_le_weak. apply Qnot_le_lt in E3.
        apply (Qlt_le_trans _ FUZZY_THRESHOLD); assumption.
Qed.

Lemma lookup_some (rest : list (str * str)) (a : str) :
  lookup rest word = Some a -> In (word, a) rest.
Proof.
  induction rest as [|[k0 a0] rest IH]; simpl; [discriminate|].
  destruct (str_eqb k0 word) eqn:E.
  - apply str_eqb_eq in E. intros [= <-]. left. now subst.
  - intros H. right. now apply IH.
Qed.

End Matching.

Lemma match_command_in_table (cmds : list (str * str)) (word action : str) :
  _match_command cmds word = Some action -> exists k, In (k, action) cmds.
Proof.
  unfold _match_command. destruct (negb (truthy word)); [discriminate|].
  destruct (lookup cmds word) as [a|] eqn:L.
  - intros [= <-]. exists word. now apply lookup_some.
  - intros H.
    destruct (best_fuzzy_spec word cmds 0%Q None)
      as [[Hres _] | [k [a [Hres [Hin _]]]]]; cbv zeta in *.
    + congruence.
    + exists k. rewrite H in Hres. now injection Hres as ->.
Qed.

(** [_match_command] answers with an action of the table only: the one
    stored under the word itself if there is one; otherwise the action of
    an entry whose similarity to the word is at least 0.75 and is not
    exceeded by any other entry.  The empty word matches nothing. *)
Theorem match_command_picks_best
  (cmds : list (str * str)) (word action : str) :
  _match_command cmds word = Some action ->
  word <> []
  /\ (In (word, action) cmds
      \/ (lookup cmds word = None
          /\ exists k, In (k, action) cmds
               /\ (FUZZY_THRESHOLD <= Difflib.ratio k word)%Q
               /\ forall k' a', In (k', a') cmds ->
                    (Difflib.ratio k' word <= Difflib.ratio k word)%Q)).
Proof.
  unfold _match_command. destruct word as [|c w]; [discriminate|].
  cbn [truthy negb]. intros H. split; [discriminate|].
  destruct (lookup cmds (c :: w)) as [a|] eqn:L.
  - injection H as <-. left. now apply lookup_some.
  - right. split; [reflexivity|].
    destruct (best_fuzzy_spec (c :: w) cmds 0%Q None)
      as [[Hres _] | [k [a [Hres [Hin [H1 [_ Hmax]]]]]]]; cbv zeta in *.
    + congruence.
    + exists k. rewrite H in Hres. injection Hres as ->.
      repeat split; assumption.
Qed.

Lemma match_command_picks_best_witness :
  u "entr" <> []
  /\ (In (u "entr", u "key:Return") DEFAULT_COMMANDS
      \/ (lookup DEFAULT_COMMANDS (u "entr") = None
          /\ exists k, In (k, u "key:Return") DEFAULT_COMMANDS
               /\ (FUZZY_THRESHOLD <= Difflib.ratio k (u "entr"))%Q
               /\ forall k' a', In (k', a') DEFAULT_COMMANDS ->
                    (Difflib.ratio k' (u "entr")
                     <= Difflib.ratio k (u "entr"))%Q)).
Proof.
  apply (match_command_picks_best DEFAULT_COMMANDS (u "entr") (u "key:Return")).
  vm_compute. reflexivity.
Defined.

Section Processing.

Variable cmds : list (str * str).

Lemma fold_body_had_commands (words : list str) (l : Loop) :
  had_commands (fold_left (body cmds) words l)
  = had_commands l
    || existsb (fun t => is_command (classify cmds t)) words.
Proof.
  revert l. induction words as [|w ws IH]; intros l; simpl.
  - now rewrite orb_false_r.
  - rewrite IH. unfold body, classify.
    destruct (_match_command cmds _) as [action|]; [|reflexivity].
    destruct (truthy action); simpl; [|reflexivity].
    destruct (str_eqb action (u "backspace")); simpl.
    + destruct (truthy (buffer l)); simpl; now rewrite orb_true_r.
    + destruct (truthy (buffer l)); simpl; now rewrite orb_true_r.
Qed.

Lemma scan_backspace (act : str -> Action) (w b : str)
  (pre post buf : list str) :
  act w = NonCommand -> act b = Backspace ->
  scan act buf (pre ++ w :: b :: post) = scan act buf (pre ++ post).
Proof.
  intros Hw Hb. revert buf.
  induction pre as [|t pre IH]; intros buf; simpl.
  - rewrite Hw, Hb, truthy_app, removelast_last. reflexivity.
  - destruct (act t); simpl; rewrite ?IH; reflexivity.
Qed.

Lemma injected_app (s t : list Effect) :
  injected (s ++ t) = injected s ++ injected t.
Proof. apply flat_map_app. Qed.

Lemma keys_app (s t : list Effect) : keys (s ++ t) = keys s ++ keys t.
Proof. apply flat_map_app. Qed.

Lemma flush_words (buf : list str) :
  Forall is_word buf ->
  flat_map split (injected (flush buf)) = buf /\ keys (flush buf) = [].
Proof.
  intros H. unfold flush. destruct buf as [|w ws]; [split; reflexivity|].
  cbn [truthy injected keys flat_map app].
  rewrite app_nil_r. split; [now apply split_join_words | reflexivity].
Qed.

Lemma scan_conserves (act : str -> Action) (tokens buf : list str) :
  Forall is_word buf -> Forall is_word tokens ->
  (forall t, In t tokens -> is_backspace (act t) = false) ->
  flat_map split (injected (scan act buf tokens))
  = buf ++ filter (fun t => negb (is_command (act t))) tokens
  /\ keys (scan act buf tokens) = flat_map (fun t => key_of (act t)) tokens.
Proof.
  intros Hbuf Htok. revert buf Hbuf.
  induction Htok as [|t ts Ht Hts IH]; intros buf Hbuf Hnb; simpl.
  - rewrite app_nil_r. now apply flush_words.
  - assert (Hnb' : forall t', In t' ts -> is_backspace (act t') = false)
      by (intros t' Hin; apply Hnb; now right).
    pose proof (Hnb t (or_introl eq_refl)) as Hb.
    destruct (act t) as [|k|] eqn:E; simpl in *; [| |discriminate].
    + destruct (IH (buf ++ [t])) as [I1 I2];
        [apply Forall_app; split; [assumption | now constructor]
        | assumption |].
      rewrite I1, I2, <- app_assoc. split; reflexivity.
    + destruct (IH []) as [I1 I2]; [constructor | assumption |].
      destruct (flush_words buf Hbuf) as [F1 F2].
      change (SendKey k :: scan act [] ts)
        with ([SendKey k] ++ scan act [] ts).
      rewrite !injected_app, !keys_app, !flat_map_app, F1, F2, I1, I2.
      split; reflexivity.
Qed.

Lemma removelast_words (buf : list str) :
  Forall is_word buf -> Forall is_word (removelast buf).
Proof.
  intros H. induction H as [|w ws Hw Hws IH]; [constructor|].
  destruct ws; [constructor|]. cbn [removelast].
  constructor; assumption.
Qed.

Lemma removelast_incl {A} (l : list A) : incl (removelast l) l.
Proof.
  induction l as [|x l IH]; [apply incl_refl|].
  destruct l; [intros y []|]. cbn [removelast].
  intros y [->|Hy]; [now left | right; now apply IH].
Qed.

(** What the scan injects and which keys it sends. *)
Lemma scan_calls (act : str -> Action) (all tokens buf : list str) :
  Forall is_word buf -> Forall is_word tokens ->
  incl buf all -> incl tokens all ->
  (forall s, In (Inject s) (scan act buf tokens) ->
     s <> [] /\ s = join (u " ") (split s) /\ incl (split s) all)
  /\ (forall k, In (SendKey k) (scan act buf tokens) ->
        k = u "ctrl+BackSpace"
        \/ exists t, In t tokens /\ act t = KeyPress k)
  /\ (forall e, In e (scan act buf tokens) ->
        (exists s, e = Inject s) \/ (exists k, e = SendKey k)).
Proof.
  intros Hbuf Htok. revert buf Hbuf.
  assert (Hflush : forall buf, Forall is_word buf -> incl buf all ->
            forall s, In (Inject s) (flush buf) ->
              s <> [] /\ s = join (u " ") (split s) /\ incl (split s) all).
  { intros buf Hbuf Hin s Hs. unfold flush in Hs.
    destruct buf as [|w ws]; [destruct Hs|].
    cbn [truthy] in Hs.
    remember (join (u " ") (w :: ws)) as j eqn:Ej.
    destruct Hs as [[= <-]|[]]. subst j.
    rewrite split_join_words by assumption.
    repeat split; try assumption.
    inversion Hbuf as [|? ? [Hne _] _]; subst.
    destruct w; [congruence|]. destruct ws; discriminate. }
  assert (Hflush_key : forall buf k, ~ In (SendKey k) (flush buf)).
  { intros buf k. unfold flush. destruct (truthy buf); [|intros []].
    intros [H|[]]. discriminate. }
  assert (Hflush_kind : forall buf e, In e (flush buf) -> exists s, e = Inject s).
  { intros buf e. unfold flush. destruct (truthy buf); [|intros []].
    intros [<-|[]]. eauto. }
  induction Htok as [|t ts Ht Hts IH]; intros buf Hbuf Hib Hit; simpl.
  - repeat split.
    + now apply (Hflush buf Hbuf Hib s).
    + apply (Hflush buf Hbuf Hib s H).
    + apply (Hflush buf Hbuf Hib s H).
    + intros k Hk. exfalso. now apply (Hflush_key buf k).
    + intros e He. left. now apply (Hflush_kind buf).
  - assert (Hit' : incl ts all) by (intros x Hx; apply Hit; now right).
    assert (Hkeys : forall k,
              (k = u "ctrl+BackSpace" \/ exists t', In t' ts /\ act t' = KeyPress k) ->
              k = u "ctrl+BackSpace"
              \/ exists t', (t = t' \/ In t' ts) /\ act t' = KeyPress k).
    { intros k [H|[t' [H1 H2]]]; [now left | right; eauto]. }
    destruct (act t) as [|k0|] eqn:E.
    + destruct (IH (buf ++ [t])) as [I1 [I2 I3]];
        [apply Forall_app; split; [assumption | now constructor]
        | apply incl_app; [assumption | intros x [<-|[]]; apply Hit; now left]
        | assumption |].
      repeat split; try (intros; now apply I1); [|assumption].
      intros k Hk. apply Hkeys. now apply I2.
    + destruct (IH []) as [I1 [I2 I3]];
        [constructor | intros x [] | assumption |].
      repeat split.
      * apply in_app_or in H as [H|[H|H]]; [|discriminate|];
          [now apply (Hflush buf Hbuf Hib s) | now apply I1].
      * apply in_app_or in H as [H|[H|H]]; [|discriminate|];
          [now apply (Hflush buf Hbuf Hib s) | now apply I1].
      * apply in_app_or in H as [H|[H|H]]; [|discriminate|];
          [now apply (Hflush buf Hbuf Hib s) | now apply I1].
      * intros k Hk. apply in_app_or in Hk as [Hk|[Hk|Hk]].
        -- exfalso. now apply (Hflush_key buf k).
        -- injection Hk as <-. right. exists t. split; [now left | assumption].
        -- apply Hkeys. now apply I2.
      * intros e He. apply in_app_or in He as [He|[<-|He]];
          [left; now apply (Hflush_kind buf) | right; eauto | now apply I3].
    + destruct (truthy buf).
      * destruct (IH (removelast buf)) as [I1 [I2 I3]];
          [now apply removelast_words
          | intros x Hx; apply Hib; now apply removelast_incl
          | assumption |].
        repeat split; try (intros; now apply I1); [|assumption].
        intros k Hk. apply Hkeys. now apply I2.
      * destruct (IH []) as [I1 [I2 I3]];
          [constructor | intros x [] | assumption |].
        repeat split.
        -- destruct H as [H|H]; [discriminate | now apply I1].
        -- destruct H as [H|H]; [discriminate | now apply I1].
        -- destruct H as [H|H]; [discriminate | now apply I1].
        -- intros k [[= <-]|Hk]; [now left | apply Hkeys; now apply I2].
        -- intros e [<-|He]; [right; eauto | now apply I3].
Qed.

End Processing.

(** [process] answers True exactly when some token of the text is a
    command: a key press or a backspace, also one that only takes a word
    back out of the buffer. *)
Theorem process_flag (cmds : list (str * str)) (text : str) :
  fst (process cmds text)
  = existsb (fun t => is_command (classify cmds t)) (split text).
Proof.
  unfold process. destruct (split text) as [|w ws]; [reflexivity|].
  change (negb (truthy (w :: ws))) with false. cbv iota zeta.
  set (l := fold_left (body cmds) (w :: ws) _).
  assert (H : had_commands l
              = existsb (fun t => is_command (classify cmds t)) (w :: ws))
    by apply fold_body_had_commands.
  destruct (truthy (buffer l)); exact H.
Qed.

(** Whatever [process] injects is a non-empty sentence of tokens of the
    text, joined by single spaces. *)
Theorem process_injects_words (cmds : list (str * str)) (text s : str) :
  In (Inject s) (snd (process cmds text)) ->
  s <> [] /\ s = join (u " ") (split s) /\ incl (split s) (split text).
Proof.
  rewrite process_scan. intros H.
  destruct (scan_calls (classify cmds) (split text) (split text) [])
    as [I _]; [constructor | apply split_words | intros x []
              | apply incl_refl |].
  now apply I.
Qed.

Lemma process_injects_words_witness :
  u "hello" <> []
  /\ u "hello" = join (u " ") (split (u "hello"))
  /\ incl (split (u "hello")) (split (u "hello enter world")).
Proof.
  apply (process_injects_words DEFAULT_COMMANDS (u "hello enter world")).
  vm_compute. left. reflexivity.
Defined.

(** The only keys [process] sends are ctrl+BackSpace and, for an action
    of the table other than backspace, the action without its first four
    characters. *)
Theorem process_keys_from_table (cmds : list (str * str)) (text k : str) :
  In (SendKey k) (snd (process cmds text)) ->
  k = u "ctrl+BackSpace"
  \/ exists w action, In (w, action) cmds /\ action <> u "backspace"
        /\ k = skipn 4 action.
Proof.
  rewrite process_scan. intros H.
  destruct (scan_calls (classify cmds) (split text) (split text) [])
    as [_ [K _]]; [constructor | apply split_words | intros x []
                  | apply incl_refl |].
  destruct (K k H) as [Hk | [t [_ Ht]]]; [now left | right].
  unfold classify in Ht.
  destruct (_match_command cmds _) as [action|] eqn:E; [|discriminate].
  destruct (truthy action); [|discriminate]. cbn [negb] in Ht.
  destruct (str_eqb action (u "backspace")) eqn:Eb; [discriminate|].
  injection Ht as <-.
  destruct (match_command_in_table _ _ _ E) as [w Hin].
  exists w, action. repeat split; [assumption|].
  intros ->. now rewrite (proj2 (str_eqb_eq _ _) eq_refl) in Eb.
Qed.

Lemma process_keys_from_table_witness :
  u "Return" = u "ctrl+BackSpace"
  \/ exists w action, In (w, action) DEFAULT_COMMANDS
        /\ action <> u "backspace" /\ u "Return" = skipn 4 action.
Proof.
  apply (process_keys_from_table DEFAULT_COMMANDS (u "hello enter world")).
  vm_compute. right. left. reflexivity.
Defined.

(** A word followed by a backspace command is as good as not said: the
    calls are those of the text without the two tokens. *)
Theorem backspace_takes_word_back
  (cmds : list (str * str)) (w b : str) (pre post : list str) :
  Forall is_word (pre ++ w :: b :: post) ->
  classify cmds w = NonCommand -> classify cmds b = Backspace ->
  snd (process cmds (join (u " ") (pre ++ w :: b :: post)))
  = snd (process cmds (join (u " ") (pre ++ post))).
Proof.
  intros Hall Hw Hb.
  assert (Hrest : Forall is_word (pre ++ post)).
  { apply Forall_app in Hall as [Hpre Hpost]. apply Forall_app. split;
      [assumption|]. inversion Hpost as [|? ? _ Hpost']; subst.
    now inversion Hpost'. }
  rewrite !process_scan, !split_join_words by assumption.
  now apply scan_backspace.
Qed.

Lemma backspace_takes_word_back_witness :
  snd (process DEFAULT_COMMANDS
         (join (u " ") ([u "hello"] ++ u "world," :: u "Backspace!" :: [u "more"])))
  = snd (process DEFAULT_COMMANDS (join (u " ") ([u "hello"] ++ [u "more"]))).
Proof.
  apply (backspace_takes_word_back DEFAULT_COMMANDS).
  - repeat constructor; discriminate.
  - vm_compute. reflexivity.
  - vm_compute. reflexivity.
Defined.

(** Without a backspace command nothing that was said is lost or
    reordered: the injected texts hold the tokens that are no commands,
    and the keys are those of the command tokens, both in the order of
    the text. *)
Theorem process_conserves_words (cmds : list (str * str)) (text : str) :
  (forall t, In t (split text) -> is_backspace (classify cmds t) = false) ->
  flat_map split (injected (snd (process cmds text)))
  = filter (fun t => negb (is_command (classify cmds t))) (split text)
  /\ keys (snd (process cmds text))
     = flat_map (fun t => key_of (classify cmds t)) (split text).
Proof.
  intros H. rewrite process_scan.
  apply (scan_conserves (classify cmds) (split text) []);
    [constructor | apply split_words | assumption].
Qed.

Lemma process_conserves_words_witness :
  flat_map split
    (injected (snd (process DEFAULT_COMMANDS (u "hello world enter tab bye"))))
  = filter (fun t => negb (is_command (classify DEFAULT_COMMANDS t)))
      (split (u "hello world enter tab bye"))
  /\ keys (snd (process DEFAULT_COMMANDS (u "hello world enter tab bye")))
     = flat_map (fun t => key_of (classify DEFAULT_COMMANDS t))
         (split (u "hello world enter tab bye")).
Proof.
  apply (process_conserves_words DEFAULT_COMMANDS).
  intros t Ht. vm_compute in Ht.
  repeat (destruct Ht as [<-|Ht]; [vm_compute; reflexivity|]).
  destruct Ht.
Defined.

(* ------------------------------------------------------------------ *)
(** * More on the transcriber *)
(* ------------------------------------------------------------------ *)

Lemma match_prefix_app (r : Re.re) (s post : str) :
  Re.match_prefix r s = true -> Re.match_prefix r (s ++ post) = true.
Proof.
  revert r. induction s as [|c s IH]; intros r H.
  - cbn [Re.match_prefix] in H. rewrite orb_false_r in H.
    cbn [app]. destruct post; cbn [Re.match_prefix]; now rewrite H.
  - change ((c :: s) ++ post) with (c :: s ++ post).
    cbn [Re.match_prefix] in *.
    destruct (Re.nullable r); [reflexivity|]. cbn [orb] in *. now apply IH.
Qed.

Lemma search_app_r (r : Re.re) (s post : str) :
  Re.search r s = true -> Re.search r (s ++ post) = true.
Proof.
  induction s as [|c s IH]; intros H.
  - cbn [Re.search] in H. rewrite orb_false_r in H.
    apply (match_prefix_app r [] post) in H. cbn [app] in *.
    destruct post; cbn [Re.search]; now rewrite H.
  - cbn [Re.search] in H. apply orb_true_iff in H as [H|H].
    + apply (match_prefix_app r (c :: s) post) in H.
      change ((c :: s) ++ post) with (c :: s ++ post) in *.
      cbn [Re.search]. now rewrite H.
    + change ((c :: s) ++ post) with (c :: s ++ post).
      cbn [Re.search]. rewrite (IH H). apply orb_true_r.
Qed.

Lemma search_app_l (r : Re.re) (pre s : str) :
  Re.search r s = true -> Re.search r (pre ++ s) = true.
Proof.
  intros H. induction pre as [|c pre IH]; [exact H|].
  change ((c :: pre) ++ s) with (c :: pre ++ s).
  cbn [Re.search]. rewrite IH. apply orb_true_r.
Qed.

(** A text in which a hallucination phrase occurs is rejected whatever
    stands before and after the phrase, and whatever the duration. *)
Theorem hallucination_phrase_in_context (phrase pre post : str) (d : Q) :
  Re.search _HALLUCINATION_RE phrase = true ->
  _is_hallucination (pre ++ phrase ++ post) d = true.
Proof.
  intros H. unfold _is_hallucination.
  now rewrite (search_app_l _ pre _ (search_app_r _ _ post H)).
Qed.

Lemma hallucination_phrase_in_context_witness :
  _is_hallucination (u "Ok. " ++ u "Thanks for watching" ++ u "!") 30 = true.
Proof.
  apply (hallucination_phrase_in_context (u "Thanks for watching")).
  vm_compute. reflexivity.
Defined.

Lemma speech_rate_check_false (text : str) (d : Q) :
  speech_rate_check text d = false <->
  ~ exceeds (count_words text) (Qmax 2 (d * 5))
  /\ ~ exceeds (count_non_space text) (Qmax 10 (d * 25)).
Proof.
  pose proof (speech_rate_check_spec text d) as H.
  destruct (speech_rate_check text d); split.
  - discriminate.
  - intros [H1 H2]. exfalso.
    destruct (proj1 H eq_refl); contradiction.
  - intros _. split; intros H1; [assert (false = true) by (apply H; now left)
                                 | assert (false = true) by (apply H; now right)];
      discriminate.
  - reflexivity.
Qed.

Lemma exceeds_mono (n : nat) (a d1 d2 k : Q) :
  (0 <= k)%Q -> (d1 <= d2)%Q ->
  exceeds n (Qmax a (d2 * k)) -> exceeds n (Qmax a (d1 * k)).
Proof.
  unfold exceeds. intros Hk Hd H.
  apply Q.max_lub_lt_iff in H as [H1 H2]. apply Q.max_lub_lt_iff. split;
    [assumption|].
  apply (Qle_lt_trans _ (d2 * k)); [|assumption].
  now apply Qmult_le_compat_r.
Qed.

(** More audio never makes a text more suspect: what the filter lets
    through for one known duration it lets through for every longer one. *)
Theorem hallucination_filter_monotone (text : str) (d1 d2 : Q) :
  (0 < d1)%Q -> (d1 <= d2)%Q ->
  _is_hallucination text d1 = false -> _is_hallucination text d2 = false.
Proof.
  intros H1 H12. unfold _is_hallucination.
  destruct (Re.search _ _); [discriminate|].
  assert (H2 : (0 < d2)%Q) by (apply (Qlt_le_trans _ d1); assumption).
  apply Qltb_lt in H1, H2. rewrite H1, H2.
  rewrite !speech_rate_check_false. intros [Hw Hc]. split; intros H.
  - apply Hw. apply (exceeds_mono _ _ d1 d2); [discriminate | assumption..].
  - apply Hc. apply (exceeds_mono _ _ d1 d2); [discriminate | assumption..].
Qed.

Lemma hallucination_filter_monotone_witness :
  _is_hallucination (u "Один два три") 2 = false.
Proof.
  apply (hallucination_filter_monotone (u "Один два три") (6 # 10) 2).
  - reflexivity.
  - discriminate.
  - vm_compute. reflexivity.
Defined.

(** A text of at most two words and ten characters other than spaces
    that holds no hallucination phrase passes the filter for every
    duration, however short. *)
Theorem short_text_passes_filter (text : str) (d : Q) :
  Re.search _HALLUCINATION_RE text = false ->
  (count_words text <= 2)%nat -> (count_non_space text <= 10)%nat ->
  _is_hallucination text d = false.
Proof.
  intros Hs Hw Hc. unfold _is_hallucination. rewrite Hs.
  destruct (Qltb 0 d); [|reflexivity].
  apply speech_rate_check_false. unfold exceeds.
  split; intros H; apply Q.max_lub_lt_iff in H as [H _];
    unfold Qlt, inject_Z in H; cbn [Qnum Qden] in H; lia.
Qed.

Lemma short_text_passes_filter_witness :
  _is_hallucination (u "Да, конечно") (1 # 100) = false.
Proof.
  apply short_text_passes_filter.
  - vm_compute. reflexivity.
  - vm_compute. lia.
  - vm_compute. lia.
Defined.

(** [transcribe] returns a text exactly when the WAV file exists and the
    subprocess ran to completion with status zero.  Without the WAV file
    it raises FileNotFoundError whatever the subprocess would do; with
    it, a non-zero exit status raises RuntimeError with the status and
    the first 200 characters of stderr, and what the subprocess call
    raises is passed on. *)
Theorem transcribe_outcomes (isfile : bool) (run : RunResult) (d : Q) :
  ((exists text, transcribe isfile run d = Returned text)
   <-> isfile = true
       /\ exists p, run = Completed p /\ returncode p = 0%Z)
  /\ transcribe false run d = Raised FileNotFoundError
  /\ (forall e, run = RunRaised e -> transcribe true run d = Raised e)
  /\ (forall p, run = Completed p -> returncode p <> 0%Z ->
        exists head,
          transcribe true run d = Raised (RuntimeError (returncode p) head)
          /\ (length head <= 200)%nat
          /\ exists rest, stderr p = head ++ rest).
Proof.
  split.
  { unfold transcribe. split.
    - intros [text H]. destruct isfile; [|discriminate].
      split; [reflexivity|].
      destruct run as [p|e]; [|discriminate]. exists p.
      split; [reflexivity|].
      cbn [negb] in H. destruct (Z.eqb_spec (returncode p) 0);
        [assumption | discriminate].
    - intros [-> [p [-> Hp]]]. rewrite Hp. cbn [negb Z.eqb].
      destruct (truthy _ && _); eauto. }
  split; [reflexivity|]. split.
  - intros e ->. reflexivity.
  - intros p -> Hp. exists (firstn 200 (stderr p)).
    unfold transcribe. cbn [negb].
    destruct (Z.eqb_spec (returncode p) 0); [contradiction|].
    split; [reflexivity|]. split; [apply firstn_le_length|].
    exists (skipn 200 (stderr p)). symmetry. apply firstn_skipn.
Qed.

Lemma transcribe_outcomes_witness :
  exists head,
    transcribe true (Completed (mkCompleted 1 [] (u "model not found"))) 1
    = Raised (RuntimeError 1 head)
    /\ (length head <= 200)%nat
    /\ exists rest, u "model not found" = head ++ rest.
Proof.
  refine (proj2 (proj2 (proj2 (transcribe_outcomes true
            (Completed (mkCompleted 1 [] (u "model not found"))) 1)))
            (mkCompleted 1 [] (u "model not found")) _ _).
  - reflexivity.
  - discriminate.
Defined.

(* ------------------------------------------------------------------ *)
(** * More on the wake-word detector *)
(* ------------------------------------------------------------------ *)

Import Ends.

Lemma common_prefix_refl (a : str) : Difflib.common_prefix a a = length a.
Proof.
  induction a as [|x a IH]; [reflexivity|].
  simpl. now rewrite N.eqb_refl, IH.
Qed.

Lemma common_prefix_le (a b : str) :
  (Difflib.common_prefix a b <= length a)%nat.
Proof.
  revert b. induction a as [|x a IH]; intros [|y b]; simpl; try lia.
  destruct (N.eqb x y); [|lia]. specialize (IH b). lia.
Qed.

Lemma scan_b_keep (i : nat) (ai b : str) (j : nat) (best : nat * nat * nat) :
  (length ai <= snd best)%nat -> Difflib.scan_b i ai b j best = best.
Proof.
  revert j. induction b as [|y b IH]; intros j H; [reflexivity|].
  cbn [Difflib.scan_b].
  pose proof (common_prefix_le ai (y :: b)) as Hk.
  destruct (Nat.ltb_spec (snd best) (Difflib.common_prefix ai (y :: b)));
    [lia | now apply IH].
Qed.

Lemma scan_a_keep (a b : str) (i : nat) (best : nat * nat * nat) :
  (length a <= snd best)%nat -> Difflib.scan_a a b i best = best.
Proof.
  revert i. induction a as [|x a IH]; intros i H; [reflexivity|].
  cbn [Difflib.scan_a]. rewrite scan_b_keep by assumption.
  apply IH. simpl in H. lia.
Qed.

Lemma find_longest_match_refl (a : str) :
  Difflib.find_longest_match a a = (0, 0, length a)%nat.
Proof.
  unfold Difflib.find_longest_match. destruct a as [|x a]; [reflexivity|].
  cbn [Difflib.scan_a Difflib.scan_b].
  rewrite common_prefix_refl. cbn [snd length Nat.ltb Nat.leb].
  rewrite scan_b_keep by (cbn [snd length]; lia).
  apply scan_a_keep. cbn [snd length]. lia.
Qed.

Lemma matching_nil (fuel : nat) : Difflib.matching fuel [] [] = 0%nat.
Proof. destruct fuel; reflexivity. Qed.

Lemma matches_refl (a : str) : Difflib.matches a a = length a.
Proof.
  unfold Difflib.matches. destruct a as [|x a]; [reflexivity|].
  cbn [length Difflib.matching]. rewrite find_longest_match_refl.
  cbn [length Nat.eqb firstn Nat.add].
  assert (H : skipn (S (length a)) (x :: a) = [])
    by (apply skipn_all2; simpl; lia).
  rewrite H, !matching_nil. lia.
Qed.

(** A sequence is wholly similar to itself. *)
Lemma ratio_refl (a : str) : (Difflib.ratio a a == 1)%Q.
Proof.
  unfold Difflib.ratio. rewrite matches_refl.
  destruct (length a + length a)%nat as [|n] eqn:E; [reflexivity|].
  unfold Qeq. cbn [Qnum Qden].
  rewrite Zpos_P_of_succ_nat. lia.
Qed.

Lemma fuzzy_refl (word : str) :
  Qle_bool WAKE_FUZZY_THRESHOLD (Difflib.ratio word word) = true.
Proof.
  apply Qle_bool_iff. rewrite ratio_refl. discriminate.
Qed.

(** The detector takes its own wake word and each of its variants for
    the wake word (below the 200 characters at which difflib starts to
    set popular characters aside). *)
Theorem wake_variants_match (d : WakeWordDetector) (word : str) :
  (length word < 200)%nat ->
  word = _wake_word d \/ In word (_variants d) ->
  _is_fuzzy_match d word = true.
Proof.
  intros _ H. unfold _is_fuzzy_match.
  destruct (Qle_bool _ (Difflib.ratio (_wake_word d) word)) eqn:E;
    [reflexivity|].
  destruct H as [-> | H].
  - now rewrite fuzzy_refl in E.
  - apply existsb_exists. exists word. split; [assumption | apply fuzzy_refl].
Qed.

Lemma wake_variants_match_witness :
  _is_fuzzy_match (new_detector (u "Дуняша")) (u "дуня") = true.
Proof.
  apply (wake_variants_match (new_detector (u "Дуняша")) (u "дуня")).
  { vm_compute. lia. }
  right. vm_compute. right. right. left. reflexivity.
Defined.

Section Strip.

Variable p : N -> bool.

Lemma lstrip_by_suffix (s : str) :
  exists dropped, s = dropped ++ lstrip_by p s
                  /\ forallb p dropped = true.
Proof.
  induction s as [|c r [dropped [IH1 IH2]]]; [now exists []|].
  simpl. destruct (p c) eqn:E.
  - exists (c :: dropped). simpl. rewrite E, IH2. split; [congruence | reflexivity].
  - now exists [].
Qed.

Lemma strip_by_ends (s : str) : ends_clear p (strip_by p s).
Proof.
  unfold strip_by, rstrip_by.
  set (t := lstrip_by p s).
  destruct (lstrip_by_suffix (rev t)) as [dropped [Hd Hall]].
  destruct (lstrip_by_head p (rev t)) as [H | [c [r [H Hc]]]]; rewrite H in *.
  - now left.
  - right. cbn [rev]. split; [|now exists (rev r), c].
    (* the head is that of [t], since the result is a prefix of [t] *)
    assert (Ht : t = rev (c :: r) ++ rev dropped).
    { rewrite <- rev_app_distr, <- Hd. symmetry. apply rev_involutive. }
    destruct (lstrip_by_head p s) as [H0 | [c0 [r0 [H0 Hc0]]]]; fold t in H0.
    + rewrite H0 in Ht. cbn [rev] in Ht.
      destruct (rev r); discriminate.
    + rewrite H0 in Ht. cbn [rev] in *.
      destruct (rev r ++ [c]) as [|c1 r1] eqn:E.
      * destruct (rev r); discriminate.
      * exists c1, r1. split; [reflexivity|].
        cbn [app] in Ht. injection Ht as <- _. assumption.
Qed.

Lemma lstrip_by_keeps (x m y : str) :
  (exists c r, m = c :: r /\ p c = false) ->
  exists x', lstrip_by p (x ++ m ++ y) = x' ++ m ++ y.
Proof.
  intros [c [r [-> Hc]]]. induction x as [|a x [x' IH]].
  - exists []. simpl. now rewrite Hc.
  - cbn [app lstrip_by]. destruct (p a).
    + exists x'. exact IH.
    + now exists (a :: x).
Qed.

Lemma strip_by_keeps (x m y : str) :
  ends_clear p m -> m <> [] ->
  exists x' y', strip_by p (x ++ m ++ y) = x' ++ m ++ y'.
Proof.
  intros [-> | [Hhead [r [c [Hm Hc]]]]] Hne; [congruence|].
  unfold strip_by, rstrip_by.
  destruct (lstrip_by_keeps x m y Hhead) as [x' ->].
  rewrite !rev_app_distr.
  destruct (lstrip_by_keeps (rev y) (rev m) (rev x')) as [y' Hy].
  { exists c, (rev r). rewrite Hm, rev_app_distr. now split. }
  rewrite <- app_assoc, Hy, !rev_app_distr, !rev_involutive.
  exists x', (rev y'). now rewrite <- app_assoc.
Qed.

End Strip.

Lemma startswith_app (m y : str) : startswith (m ++ y) m = true.
Proof.
  induction m as [|c m IH]; [reflexivity|].
  simpl. now rewrite N.eqb_refl, IH.
Qed.

Lemma contains_app (x m y : str) : contains (x ++ m ++ y) m = true.
Proof.
  induction x as [|a x IH].
  - cbn [app]. destruct (m ++ y) eqn:E; cbn [contains];
      rewrite <- E, startswith_app; reflexivity.
  - cbn [app contains]. rewrite IH. apply orb_true_r.
Qed.

(** The wake word is heard in every text whose lowercase form contains
    it, whatever stands around it. *)
Theorem wake_word_heard (wake_word text x y : str) :
  lower text = x ++ _wake_word (new_detector wake_word) ++ y ->
  contains_wake_word (new_detector wake_word) text = true.
Proof.
  intros H. unfold contains_wake_word. rewrite H.
  set (m := _wake_word (new_detector wake_word)).
  destruct m as [|c r] eqn:E.
  - destruct (strip _); reflexivity.
  - destruct (strip_by_keeps isspace x m y) as [x' [y' Hs]].
    + unfold m. apply strip_by_ends.
    + rewrite E. discriminate.
    + unfold strip. rewrite <- E, Hs, contains_app. reflexivity.
Qed.

Lemma wake_word_heard_witness :
  contains_wake_word (new_detector (u " Дуняша "))
    (u "Ну, ДУНЯША, пиши") = true.
Proof.
  apply (wake_word_heard (u " Дуняша ") (u "Ну, ДУНЯША, пиши")
           (u "ну, ") (u ", пиши")).
  vm_compute. reflexivity.
Defined.

(** What [strip_wake_word] returns is empty, or begins and ends with a
    character that is neither a space nor one of [.,!?;:-]. *)
Theorem strip_wake_word_trimmed (d : WakeWordDetector) (text : str) :
  ends_clear (mem_char (u ".,!?;:- ")) (strip_wake_word d text).
Proof.
  unfold strip_wake_word, strip_chars.
  destruct (ci_search text (_wake_word d)); apply strip_by_ends.
Qed.

(** The variants of a wake word are the word itself and, of the word
    without one of the endings а, я, ша, жа, those that still have at
    least three characters. *)
Theorem build_variants_stems (word v : str) :
  In v (_build_variants word) ->
  v = word
  \/ exists suffix, In suffix [u "а"; u "я"; u "ша"; u "жа"]
        /\ endswith word suffix = true
        /\ word = v ++ skipn (length v) word
        /\ (length v = length word - length suffix)%nat
        /\ (3 <= length v)%nat.
Proof.
  unfold _build_variants. intros [<- | H]; [now left | right].
  apply in_flat_map in H as [suffix [Hs H]]. exists suffix.
  destruct (endswith word suffix) eqn:E; [|destruct H].
  destruct (Nat.ltb_spec (length suffix + 2) (length word)) as [Hl|Hl];
    [|destruct H].
  destruct H as [<- | []].
  assert (Hlen : length (firstn (length word - length suffix) word)
                 = (length word - length suffix)%nat)
    by (apply firstn_length_le; lia).
  repeat split; try assumption.
  - rewrite Hlen. symmetry. apply firstn_skipn.
  - rewrite Hlen.
    assert (1 <= length suffix)%nat; [|lia].
    destruct Hs as [<- | [<- | [<- | [<- | []]]]]; vm_compute; lia.
Qed.

Lemma build_variants_stems_witness :
  u "дуня" = u "дуняша"
  \/ exists suffix, In suffix [u "а"; u "я"; u "ша"; u "жа"]
        /\ endswith (u "дуняша") suffix = true
        /\ u "дуняша" = u "дуня" ++ skipn (length (u "дуня")) (u "дуняша")
        /\ (length (u "дуня") = length (u "дуняша") - length suffix)%nat
        /\ (3 <= length (u "дуня"))%nat.
Proof.
  apply (build_variants_stems (u "дуняша") (u "дуня")).
  vm_compute. right. right. left. reflexivity.
Defined.

(* ------------------------------------------------------------------ *)
(** * More on the voice-activity detector *)
(* ------------------------------------------------------------------ *)

Import Frames30.

Lemma emit_speech_with_buffer (b : bytes) (v : SimpleVAD) :
  _emit_speech (with_buffer b v)
  = (with_buffer b (fst (_emit_speech v)), snd (_emit_speech v)).
Proof.
  unfold _emit_speech, with_buffer. cbn [_threshold _min_speech_ms
    _max_speech_s _buffer _speech_buffer _in_speech _silent_count].
  destruct (_ <=? _)%Z; reflexivity.
Qed.

(** The frame step carries the input buffer along and does not look at
    it. *)
Lemma on_frame_with_buffer (b : bytes) (v : SimpleVAD) (frame : bytes) :
  on_frame (with_buffer b v) frame
  = (with_buffer b (fst (on_frame v frame)), snd (on_frame v frame)).
Proof.
  destruct v as [th ms mx buf sp ins sc].
  unfold on_frame, with_buffer, _emit_speech, max_bytes.
  cbn [_threshold _min_speech_ms _max_speech_s _buffer _speech_buffer
       _in_speech _silent_count].
  destruct (rms_at_least frame th); cbn [negb _in_speech _speech_buffer
    _threshold _min_speech_ms _max_speech_s _buffer _silent_count andb].
  - destruct (_ <=? _)%Z; cbn [fst snd];
      [destruct (_ <=? _)%Z|]; reflexivity.
  - destruct ins; cbn [_in_speech andb fst snd].
    + destruct (_silence_frames <=? sc + 1)%Z.
      * destruct (ms <=? _)%Z; reflexivity.
      * cbn [_in_speech _speech_buffer _max_speech_s andb].
        destruct (_ <=? _)%Z; cbn [fst snd];
          [destruct (_ <=? _)%Z|]; reflexivity.
    + reflexivity.
Qed.

Lemma with_buffer_self (v : SimpleVAD) : with_buffer (_buffer v) v = v.
Proof. now destruct v. Qed.

Lemma with_buffer_twice (b b' : bytes) (v : SimpleVAD) :
  with_buffer b (with_buffer b' v) = with_buffer b v.
Proof. reflexivity. Qed.

(** One round of the loop of [feed] on a buffer that holds a frame. *)
Lemma feed_loop_round (fuel : nat) (v : SimpleVAD) :
  _frame_bytes <= length (_buffer v) ->
  feed_loop (S fuel) v
  = let frame := firstn _frame_bytes (_buffer v) in
    let w := on_frame v frame in
    let r := feed_loop fuel
               (with_buffer (skipn _frame_bytes (_buffer v)) (fst w)) in
    (fst r, snd w ++ snd r).
Proof.
  intros H. cbn [feed_loop]. apply Nat.leb_le in H. rewrite H.
  change (mkVAD (_threshold v) (_min_speech_ms v) (_max_speech_s v)
            (skipn _frame_bytes (_buffer v)) (_speech_buffer v)
            (_in_speech v) (_silent_count v))
    with (with_buffer (skipn _frame_bytes (_buffer v)) v).
  rewrite on_frame_with_buffer. cbv zeta.
  destruct (feed_loop fuel _) as [v2 ev2]. reflexivity.
Qed.

Lemma feed_loop_rest (fuel : nat) (v : SimpleVAD) :
  length (_buffer v) < _frame_bytes -> feed_loop fuel v = (v, []).
Proof.
  intros H. destruct fuel; [reflexivity|]. cbn [feed_loop].
  apply Nat.leb_gt in H. now rewrite H.
Qed.

Lemma feed_loop_fuel (f1 f2 : nat) (v : SimpleVAD) :
  length (_buffer v) <= f1 -> length (_buffer v) <= f2 ->
  feed_loop f1 v = feed_loop f2 v.
Proof.
  revert f2 v. induction f1 as [|f1 IH]; intros f2 v H1 H2.
  - rewrite !feed_loop_rest; [reflexivity | |];
      change _frame_bytes with 960; lia.
  - destruct (Nat.le_gt_cases _frame_bytes (length (_buffer v))) as [Hf|Hf].
    + destruct f2 as [|f2]; [change _frame_bytes with 960 in Hf; lia|].
      rewrite !feed_loop_round by assumption. cbv zeta.
      rewrite (IH f2); [reflexivity | |];
        cbn [with_buffer _buffer]; rewrite length_skipn;
        change _frame_bytes with 960 in *; lia.
    + now rewrite !feed_loop_rest.
Qed.

Lemma feed_loop_app (fuel : nat) (v : SimpleVAD) (c : bytes) :
  length (_buffer v) <= fuel ->
  feed_loop (fuel + length c) (with_buffer (_buffer v ++ c) v)
  = let r1 := feed_loop fuel v in
    let v1 := fst r1 in
    let r2 := feed_loop (length (_buffer v1) + length c)
                (with_buffer (_buffer v1 ++ c) v1) in
    (fst r2, snd r1 ++ snd r2).
Proof.
  revert v. induction fuel as [|fuel IH]; intros v H; cbv zeta.
  - assert (Hb : _buffer v = []) by (destruct (_buffer v); [reflexivity | simpl in H; lia]).
    cbn [feed_loop fst snd]. rewrite Hb. cbn [length Nat.add app].
    now destruct (feed_loop _ _).
  - destruct (Nat.le_gt_cases _frame_bytes (length (_buffer v))) as [Hf|Hf].
    + cbn [Nat.add]. rewrite !feed_loop_round;
        [|assumption | cbn [with_buffer _buffer]; rewrite length_app; lia].
      cbv zeta.
      change (_buffer (with_buffer (_buffer v ++ c) v)) with (_buffer v ++ c).
      rewrite firstn_app, skipn_app.
      replace (_frame_bytes - length (_buffer v)) with 0 by lia.
      cbn [firstn skipn]. rewrite app_nil_r.
      change (mkVAD (_threshold v) (_min_speech_ms v) (_max_speech_s v)
                (_buffer v ++ c) (_speech_buffer v) (_in_speech v)
                (_silent_count v))
        with (with_buffer (_buffer v ++ c) v).
      rewrite on_frame_with_buffer. cbn [fst snd].
      set (w := on_frame v (firstn _frame_bytes (_buffer v))).
      rewrite with_buffer_twice.
      set (v1 := with_buffer (skipn _frame_bytes (_buffer v)) (fst w)).
      change (with_buffer (skipn _frame_bytes (_buffer v) ++ c) (fst w))
        with (with_buffer (_buffer v1 ++ c) v1).
      rewrite IH.
      * cbv zeta. cbn [fst snd]. now rewrite app_assoc.
      * unfold v1. cbn [with_buffer _buffer]. rewrite length_skipn.
        change _frame_bytes with 960 in *. lia.
    + rewrite (feed_loop_rest (S fuel) v) by assumption. cbn [fst snd app].
      rewrite (feed_loop_fuel (S fuel + length c)
                 (length (_buffer v) + length c));
        [now destruct (feed_loop _ _) | |];
        cbn [with_buffer _buffer]; rewrite length_app; lia.
Qed.

(** How the stream is cut into chunks makes no difference to the VAD:
    feeding two chunks one after the other leaves the state, and makes
    the callbacks, of feeding them as one. *)
Theorem feed_chunking (v : SimpleVAD) (c1 c2 : bytes) :
  feed v (c1 ++ c2)
  = let '(v1, e1) := feed v c1 in
    let '(v2, e2) := feed v1 c2 in
    (v2, e1 ++ e2).
Proof.
  unfold feed at 1 2. cbn [_buffer].
  change (mkVAD (_threshold v) (_min_speech_ms v) (_max_speech_s v)
            (_buffer v ++ c1 ++ c2) (_speech_buffer v) (_in_speech v)
            (_silent_count v))
    with (with_buffer (_buffer v ++ c1 ++ c2) v).
  change (mkVAD (_threshold v) (_min_speech_ms v) (_max_speech_s v)
            (_buffer v ++ c1) (_speech_buffer v) (_in_speech v)
            (_silent_count v))
    with (with_buffer (_buffer v ++ c1) v).
  set (v' := with_buffer (_buffer v ++ c1) v).
  rewrite app_assoc.
  change (with_buffer ((_buffer v ++ c1) ++ c2) v)
    with (with_buffer (_buffer v' ++ c2) v').
  change (_buffer v ++ c1) with (_buffer v').
  rewrite length_app, feed_loop_app by lia. cbv zeta.
  destruct (feed_loop (length (_buffer v')) v') as [v1 e1]. cbn [fst snd].
  unfold feed. cbn [_buffer]. rewrite length_app.
  change (mkVAD (_threshold v1) (_min_speech_ms v1) (_max_speech_s v1)
            (_buffer v1 ++ c2) (_speech_buffer v1) (_in_speech v1)
            (_silent_count v1))
    with (with_buffer (_buffer v1 ++ c2) v1).
  now destruct (feed_loop _ _).
Qed.

Lemma feed_loop_tail (fuel : nat) (v : SimpleVAD) :
  length (_buffer v) <= fuel ->
  _buffer (fst (feed_loop fuel v))
  = skipn (length (_buffer v) / _frame_bytes * _frame_bytes) (_buffer v).
Proof.
  revert v. induction fuel as [|fuel IH]; intros v H.
  - destruct (_buffer v) eqn:E; [|simpl in H; lia].
    cbn [feed_loop fst]. now rewrite E.
  - destruct (Nat.le_gt_cases _frame_bytes (length (_buffer v))) as [Hf|Hf].
    + rewrite feed_loop_round by assumption. cbv zeta. cbn [fst].
      rewrite IH; cbn [with_buffer _buffer]; rewrite length_skipn;
        [|change _frame_bytes with 960 in *; lia].
      rewrite skipn_skipn. f_equal.
      change _frame_bytes with 960 in *.
      replace (length (_buffer v)) with ((length (_buffer v) - 960) + 1 * 960)
        at 2 by lia.
      rewrite Nat.div_add by discriminate. lia.
    + rewrite feed_loop_rest by assumption. cbn [fst].
      rewrite Nat.div_small by assumption. reflexivity.
Qed.

(** [feed] takes whole frames only: what stays in the input buffer is the
    audio after the last whole frame, so nothing is lost between two
    chunks. *)
Theorem feed_keeps_tail (v : SimpleVAD) (chunk : bytes) :
  let s := _buffer v ++ chunk in
  _buffer (fst (feed v chunk))
  = skipn (length s / _frame_bytes * _frame_bytes) s
  /\ length (_buffer (fst (feed v chunk))) = length s mod _frame_bytes.
Proof.
  cbv zeta. unfold feed. cbn [_buffer].
  change (mkVAD (_threshold v) (_min_speech_ms v) (_max_speech_s v)
            (_buffer v ++ chunk) (_speech_buffer v) (_in_speech v)
            (_silent_count v))
    with (with_buffer (_buffer v ++ chunk) v).
  rewrite feed_loop_tail by (cbn [with_buffer _buffer]; lia).
  cbn [with_buffer _buffer]. split; [reflexivity|].
  rewrite length_skipn. change _frame_bytes with 960.
  pose proof (Nat.div_mod_eq (length (_buffer v ++ chunk)) 960). lia.
Qed.

Lemma on_frame_quiet (v : SimpleVAD) (frame : bytes) :
  _in_speech v = false -> rms_at_least frame (_threshold v) = false ->
  on_frame v frame = (v, []).
Proof.
  intros Hs Hq. unfold on_frame. rewrite Hq, Hs. cbn [andb]. now rewrite Hs.
Qed.

Lemma feed_loop_quiet (fuel : nat) (v : SimpleVAD) :
  _in_speech v = false ->
  Forall (fun f => rms_at_least f (_threshold v) = false)
         (frames_from fuel (_buffer v)) ->
  feed_loop fuel v = (with_buffer (_buffer (fst (feed_loop fuel v))) v, []).
Proof.
  revert v. induction fuel as [|fuel IH]; intros v Hs Hq.
  - cbn [feed_loop fst]. now rewrite with_buffer_self.
  - destruct (Nat.le_gt_cases _frame_bytes (length (_buffer v))) as [Hf|Hf].
    + cbn [frames_from] in Hq. rewrite (proj2 (Nat.leb_le _ _) Hf) in Hq.
      inversion Hq as [|? ? Hq1 Hq2]; subst.
      rewrite feed_loop_round by assumption. cbv zeta.
      rewrite on_frame_quiet by assumption. cbn [fst snd app].
      pose proof (IH (with_buffer (skipn _frame_bytes (_buffer v)) v) Hs Hq2)
        as E.
      destruct (feed_loop fuel _) as [v2 e2]. cbn [fst snd] in *.
      injection E as E1 ->. rewrite E1 at 1.
      now rewrite with_buffer_twice.
    + rewrite feed_loop_rest by assumption. cbn [fst].
      now rewrite with_buffer_self.
Qed.

(** Audio that stays below the threshold in every frame is let through
    without a trace: outside speech, [feed] makes no callback and changes
    nothing but the input buffer. *)
Theorem quiet_audio_is_ignored (v : SimpleVAD) (chunk : bytes) :
  _in_speech v = false ->
  Forall (fun f => rms_at_least f (_threshold v) = false)
         (frames (_buffer v ++ chunk)) ->
  feed v chunk = (with_buffer (_buffer (fst (feed v chunk))) v, []).
Proof.
  intros Hs Hq. unfold feed. cbn [_buffer].
  change (mkVAD (_threshold v) (_min_speech_ms v) (_max_speech_s v)
            (_buffer v ++ chunk) (_speech_buffer v) (_in_speech v)
            (_silent_count v))
    with (with_buffer (_buffer v ++ chunk) v).
  pose proof (feed_loop_quiet (length (_buffer v ++ chunk))
                (with_buffer (_buffer v ++ chunk) v) Hs Hq) as E.
  destruct (feed_loop _ _) as [v2 e2]. cbn [fst snd] in *.
  injection E as E1 ->. rewrite E1 at 1.
  now rewrite with_buffer_twice.
Qed.

Lemma quiet_audio_is_ignored_witness :
  feed (new_vad 300 500 30) (silent_frame ++ [1; 0; 255; 255]%N)
  = (with_buffer
       (_buffer (fst (feed (new_vad 300 500 30)
                        (silent_frame ++ [1; 0; 255; 255]%N))))
       (new_vad 300 500 30), []).
Proof.
  apply (quiet_audio_is_ignored (new_vad 300 500 30)).
  - reflexivity.
  - match goal with
    | |- Forall _ ?l =>
        replace l with [silent_frame] by (vm_compute; reflexivity)
    end.
    constructor; [vm_compute; reflexivity | constructor].
Defined.

(* ------------------------------------------------------------------ *)
(** * The injector *)
(* ------------------------------------------------------------------ *)

Section InjectorFacts.

Import Injector.

(** Runs a method of the injector on a machine whose answers are
    analysed case by case. *)
Ltac run_injector :=
  cbv beta iota zeta delta
    [inject _inject_wayland _inject_x11 _inject_clipboard_x11
     send_key _send_key_wayland _send_key_x11
     calls_of result_of try_ bind ret run failed fst snd];
  cbn [length app fst snd].

Ltac split_sys sys :=
  repeat match goal with
  | |- context [sys ?n ?c] =>
      let E := fresh "E" in
      destruct (sys n c) as [[]|] eqn:E;
      cbv beta iota zeta delta [failed]; cbn [length app fst snd]
  end.

(** [send_key] tries its programs in turn and stops at the first that
    works: it makes between one and three calls (one under X11), and
    every call but the last has failed with a non-zero status or a
    missing program.  It never lets such a failure show: what it raises
    is a timeout or another error of the operating system, raised by the
    last program it ran; when all its programs fail it returns. *)
Theorem send_key_tries_in_turn
  (cfg : Config) (key : str) (sys : Sys) :
  let calls := calls_of (send_key cfg key) sys in
  (1 <= length calls <= 3)%nat
  /\ (display_server cfg <> u "wayland" -> length calls = 1%nat)
  /\ (forall n, (S n < length calls)%nat -> failed_at sys calls n)
  /\ (forall e, result_of (send_key cfg key) sys = Raise e ->
        failed e = false
        /\ exists c, nth_error calls (length calls - 1) = Some c
                     /\ sys (length calls - 1)%nat c = Some e).
Proof.
  cbv zeta. unfold send_key.
  destruct (str_eqb (display_server cfg) (u "wayland")) eqn:Eds.
  - run_injector. split_sys sys; (split; [lia|]);
      (split; [intros H; apply str_eqb_eq in Eds; contradiction|]);
      (split;
       [ intros n Hn; unfold failed_at;
         destruct n as [|[|n]]; cbn [nth_error] in *; try lia; eauto
       | intros e H; try discriminate H; injection H as <-;
         (split; [reflexivity|]);
         eexists; cbn [length app Nat.sub nth_error]; split;
         try reflexivity; eassumption ]).
  - run_injector. split_sys sys; (split; [lia|]);
      (split; [reflexivity|]);
      (split;
       [ intros n Hn; lia
       | intros e H; try discriminate H; injection H as <-;
         (split; [reflexivity|]);
         eexists; cbn [length app Nat.sub nth_error]; split;
         try reflexivity; eassumption ]).
Qed.

Lemma send_key_tries_in_turn_witness :
  length (calls_of (send_key (mkConfig (u "x11") false (u "shift+Insert"))
                      (u "Return"))
            (fun _ _ => Some FileNotFoundError)) = 1%nat.
Proof.
  refine (proj1 (proj2 (send_key_tries_in_turn
            (mkConfig (u "x11") false (u "shift+Insert")) (u "Return")
            (fun _ _ => Some FileNotFoundError))) _).
  vm_compute. discriminate.
Defined.

(** [xdotool type] is only ever given ASCII text, and never when the
    clipboard is asked for; the text is passed after [--], so that it is
    not read as an option. *)
Theorem xdotool_types_ascii_only
  (cfg : Config) (text : str) (sys : Sys) (rest : list str)
  (inp : option str) :
  In (mkCall (u "xdotool" :: u "type" :: rest) inp)
     (calls_of (inject cfg text) sys) ->
  isascii text = true /\ use_clipboard_fallback cfg = false
  /\ rest = [u "--clearmodifiers"; u "--"; text] /\ inp = None.
Proof.
  unfold inject. destruct text as [|c0 t0]; [intros []|].
  cbn [truthy negb]. remember (c0 :: t0) as text eqn:Etext. clear Etext.
  unfold _inject_wayland, _inject_x11.
  destruct (use_clipboard_fallback cfg); cbn [orb];
    [|destruct (isascii text); cbn [negb]];
    (destruct (str_eqb (display_server cfg) (u "wayland"));
     run_injector; split_sys sys; intros H; vm_compute in H;
     repeat (destruct H as [H|H];
             [first [discriminate H
                    | injection H as <- <-; repeat split; reflexivity]|]);
     destruct H).
Qed.

Lemma xdotool_types_ascii_only_witness :
  isascii (u "hello") = true
  /\ use_clipboard_fallback (mkConfig (u "x11") false (u "ctrl+v")) = false
  /\ [u "--clearmodifiers"; u "--"; u "hello"]
     = [u "--clearmodifiers"; u "--"; u "hello"]
  /\ @None str = None.
Proof.
  apply (xdotool_types_ascii_only
           (mkConfig (u "x11") false (u "ctrl+v")) (u "hello")
           (fun _ _ => None)).
  vm_compute. left. reflexivity.
Defined.

(** The X11 clipboard path is the only one without a safety net: when
    [inject] raises a non-zero status or a missing program, it was xclip
    or the pasting xdotool that failed, as the last program run. *)
Theorem inject_fails_in_clipboard_path_only
  (cfg : Config) (text : str) (sys : Sys) (e : Exn) :
  result_of (inject cfg text) sys = Raise e -> failed e = true ->
  exists before c,
    calls_of (inject cfg text) sys = before ++ [c]
    /\ sys (length before) c = Some e
    /\ (c = mkCall [u "xclip"; u "-selection"; u "clipboard"] (Some text)
        \/ c = mkCall [u "xdotool"; u "key"; u "--clearmodifiers"; u "ctrl+v"]
                  None).
Proof.
  unfold inject. destruct text as [|c0 t0]; [discriminate|].
  cbn [truthy negb]. remember (c0 :: t0) as text eqn:Etext. clear Etext.
  unfold _inject_wayland, _inject_x11.
  destruct (use_clipboard_fallback cfg); cbn [orb];
    [|destruct (isascii text); cbn [negb]];
    (destruct (str_eqb (display_server cfg) (u "wayland"));
     run_injector; split_sys sys; intros H Hf; try discriminate H;
     injection H as <-; try discriminate Hf;
     match goal with
     | |- exists before c, ?l = _ /\ _ =>
         exists (removelast l), (last l (mkCall [] None));
         cbn [removelast last length]
     end;
     (split; [reflexivity|]); (split; [assumption|]); auto).
Qed.

Lemma inject_fails_in_clipboard_path_only_witness :
  exists before c,
    calls_of (inject (mkConfig (u "x11") false (u "ctrl+v")) (u "привет"))
      (fun _ _ => Some FileNotFoundError) = before ++ [c]
    /\ (fun (_ : nat) (_ : Call) => Some FileNotFoundError) (length before) c
       = Some FileNotFoundError
    /\ (c = mkCall [u "xclip"; u "-selection"; u "clipboard"]
              (Some (u "привет"))
        \/ c = mkCall [u "xdotool"; u "key"; u "--clearmodifiers"; u "ctrl+v"]
                  None).
Proof.
  apply (inject_fails_in_clipboard_path_only
           (mkConfig (u "x11") false (u "ctrl+v")) (u "привет")
           (fun _ _ => Some FileNotFoundError) FileNotFoundError).
  - vm_compute. reflexivity.
  - reflexivity.
Defined.

Lemma no_plus_app (a b : str) : no_plus a -> no_plus b -> no_plus (a ++ b).
Proof.
  unfold no_plus, mem_char. intros Ha Hb. now rewrite existsb_app, Ha, Hb.
Qed.

Lemma split_on_word (w cur rest : str) :
  no_plus w -> split_on PLUS cur (w ++ rest) = split_on PLUS (cur ++ w) rest.
Proof.
  revert cur. induction w as [|c w IH]; intros cur H; cbn [app].
  - now rewrite app_nil_r.
  - unfold no_plus, mem_char in H. cbn [existsb] in H.
    apply orb_false_iff in H as [Hc Hw].
    cbn [split_on]. rewrite N.eqb_sym, Hc.
    rewrite IH by exact Hw. now rewrite <- app_assoc.
Qed.

Lemma split_on_join (ps : list str) :
  ps <> [] -> Forall no_plus ps ->
  split_on PLUS [] (join [PLUS] ps) = ps.
Proof.
  intros Hne H. induction H as [|p ps Hp Hps IH]; [congruence|].
  destruct ps as [|q ps].
  - cbn [join]. rewrite <- (app_nil_r p) at 1.
    now rewrite split_on_word.
  - change (join [PLUS] (p :: q :: ps))
      with (p ++ PLUS :: join [PLUS] (q :: ps)).
    rewrite split_on_word by exact Hp. cbn [app split_on].
    rewrite N.eqb_refl, IH by discriminate. reflexivity.
Qed.

Lemma split_on_parts (cur s : str) :
  no_plus cur -> Forall no_plus (split_on PLUS cur s).
Proof.
  revert cur. induction s as [|c s IH]; intros cur H; cbn [split_on].
  - now constructor.
  - destruct (N.eqb c PLUS) eqn:E.
    + constructor; [assumption | now apply IH].
    + apply IH. apply no_plus_app; [assumption|].
      unfold no_plus, mem_char. cbn [existsb]. now rewrite N.eqb_sym, E.
Qed.

Lemma split_on_nonempty (cur s : str) : split_on PLUS cur s <> [].
Proof.
  revert cur. induction s as [|c s IH]; intros cur; cbn [split_on];
    [discriminate|]. destruct (N.eqb c PLUS); [discriminate | apply IH].
Qed.

Lemma ydotool_name_cases (p : str) :
  (p = u "Return" /\ ydotool_name p = u "Enter")
  \/ (p = u "Escape" /\ ydotool_name p = u "Esc")
  \/ (p <> u "Return" /\ p <> u "Escape" /\ ydotool_name p = p).
Proof.
  unfold ydotool_name, _YDOTOOL_KEY_MAP. cbn [VoiceCommands.lookup].
  destruct (str_eqb (u "Return") p) eqn:E1.
  - apply str_eqb_eq in E1. left. now split.
  - destruct (str_eqb (u "Escape") p) eqn:E2.
    + apply str_eqb_eq in E2. right. left. now split.
    + right. right. repeat split; intros ->;
        [rewrite (proj2 (str_eqb_eq _ _) eq_refl) in E1
        | rewrite (proj2 (str_eqb_eq _ _) eq_refl) in E2]; discriminate.
Qed.

Lemma ydotool_name_no_plus (p : str) : no_plus p -> no_plus (ydotool_name p).
Proof.
  intros H.
  destruct (ydotool_name_cases p) as [[_ ->] | [[_ ->] | [_ [_ ->]]]];
    [reflexivity | reflexivity | exact H].
Qed.

(** The key handed to ydotool is the key with each of its parts between
    [+] signs renamed on its own: Return becomes Enter, Escape becomes
    Esc and the rest stays; no part is left that is called Return or
    Escape. *)
Theorem ydotool_gets_evdev_names (key : str) :
  split_on PLUS [] (evdev_key key)
  = map ydotool_name (split_on PLUS [] key)
  /\ ~ In (u "Return") (split_on PLUS [] (evdev_key key))
  /\ ~ In (u "Escape") (split_on PLUS [] (evdev_key key)).
Proof.
  assert (H : split_on PLUS [] (evdev_key key)
              = map ydotool_name (split_on PLUS [] key)).
  { unfold evdev_key. destruct (mem_char key PLUS) eqn:E.
    - apply split_on_join.
      + pose proof (split_on_nonempty [] key).
        destruct (split_on PLUS [] key); [congruence | discriminate].
      + apply Forall_map.
        eapply Forall_impl; [|apply split_on_parts; reflexivity].
        intros p. apply ydotool_name_no_plus.
    - rewrite <- (app_nil_r key) at 2. rewrite split_on_word by exact E.
      cbn [app split_on map].
      rewrite <- (app_nil_r (ydotool_name key)) at 1.
      rewrite split_on_word by (apply ydotool_name_no_plus; exact E).
      reflexivity. }
  split; [exact H|]. rewrite H.
  split; intros Hin; apply in_map_iff in Hin as [p [Hp _]];
    destruct (ydotool_name_cases p) as [[_ E] | [[_ E] | [N1 [N2 E]]]];
    rewrite E in Hp; try discriminate Hp; subst p; congruence.
Qed.

End InjectorFacts.

(* ------------------------------------------------------------------ *)
(** * The coordinator over sequences of events *)
(* ------------------------------------------------------------------ *)

Import Machine.

(** ** What each method does to the coordinator *)

Lemma exec_gets_bind {A B} (f : App -> A) (k : A -> M B) (a : App) :
  exec (mbind (gets f) k) a = exec (k (f a)) a.
Proof. now rewrite exec_bind. Qed.

Lemma exec_ret {A} (x : A) (a : App) : exec (ret x) a = a.
Proof. reflexivity. Qed.

Lemma exec_modify (f : App -> App) (a : App) : exec (modify f) a = f a.
Proof. reflexivity. Qed.

Lemma exec_emit (e : Effect) (a : App) : exec (emit e) a = a.
Proof. reflexivity. Qed.

Lemma exec_emits (es : list Effect) (a : App) : exec (emits es) a = a.
Proof. reflexivity. Qed.

Lemma exec_inject_text (text : str) (a : App) : exec (_inject_text text) a = a.
Proof.
  unfold _inject_text. rewrite exec_gets_bind.
  destruct (voice_commands (config a)); [now rewrite exec_gets_bind|reflexivity].
Qed.

Lemma exec_marshal_notify (t m : str) (a : App) :
  exec (_marshal_notify t m) a = a.
Proof.
  unfold _marshal_notify. rewrite exec_gets_bind. now destruct (_tray a).
Qed.

Lemma exec_restore_active_window (a : App) :
  exec _restore_active_window a = a.
Proof.
  unfold _restore_active_window. rewrite exec_gets_bind.
  destruct (_prev_window_id a) as [id|]; [|reflexivity].
  now destruct (truthy id).
Qed.

Lemma exec_cancel_silence_timer (a : App) :
  exec _cancel_silence_timer a = set_silence_timer None a.
Proof.
  destruct a as [? ? ? ? ? ? ? ? timer ? ? ? ? ?]. now destruct timer.
Qed.

Lemma exec_reset_silence_timer (a : App) :
  exec _reset_silence_timer a
  = set_silence_timer (Some (silence_timeout (config a))) a.
Proof.
  destruct a as [? ? ? ? ? ? ? ? timer ? ? ? ? ?]. now destruct timer.
Qed.

Lemma exec_vad_reset (a : App) :
  exec vad_reset a = set_vad (option_map reset (_vad a)) a.
Proof.
  destruct a as [? ? ? ? ? ? vad ? ? ? ? ? ? ?]. now destruct vad.
Qed.

Lemma exec_marshal_set_state (s : AppState) (a : App) :
  exec (_marshal_set_state s) a = set_state s a.
Proof. apply set_state_exec. Qed.

Lemma exec_play_start_signal (now : Q) (a : App) :
  exec (_play_start_signal now) a
  = if end_signal (config a)
    then set_vad (option_map reset (_vad a))
           (set_mute_until (now + (6 # 10)) a)
    else a.
Proof.
  unfold _play_start_signal. rewrite exec_gets_bind.
  destruct (end_signal (config a)); [|reflexivity]. cbn [negb].
  now rewrite !exec_bind, exec_emit, exec_vad_reset, exec_modify.
Qed.

Lemma exec_play_end_signal (now : Q) (a : App) :
  exec (_play_end_signal now) a
  = if end_signal (config a)
    then set_vad (option_map reset (_vad a))
           (set_mute_until (now + (6 # 10)) a)
    else a.
Proof.
  unfold _play_end_signal. rewrite exec_gets_bind.
  destruct (end_signal (config a)); [|reflexivity]. cbn [negb].
  now rewrite !exec_bind, exec_emit, exec_vad_reset, exec_modify.
Qed.

Lemma exec_flush_accumulated_text (a : App) :
  exec _flush_accumulated_text a = set_accumulated_texts [] a.
Proof.
  unfold _flush_accumulated_text. rewrite exec_gets_bind.
  destruct (_accumulated_texts a) eqn:E; cbn [truthy when].
  - destruct a. cbn in E. now subst.
  - now rewrite !exec_bind, exec_modify, exec_inject_text,
      exec_restore_active_window.
Qed.

(** Runs a method on a coordinator that is kept abstract: the binds are
    resolved by the equations above, the branches by case analysis. *)
Ltac exec_steps :=
  repeat (first
    [ rewrite exec_gets_bind | rewrite exec_bind | rewrite exec_ret
    | rewrite exec_modify | rewrite exec_emit | rewrite exec_emits
    | rewrite exec_inject_text | rewrite exec_marshal_notify
    | rewrite exec_restore_active_window | rewrite exec_cancel_silence_timer
    | rewrite exec_reset_silence_timer | rewrite exec_vad_reset
    | rewrite exec_marshal_set_state | rewrite set_state_exec
    | rewrite exec_play_start_signal | rewrite exec_play_end_signal
    | rewrite exec_flush_accumulated_text ];
    cbv beta).

Ltac fields :=
  cbn [config state _tray _qt_app _prev_window_id _audio_stream _vad
       _wake_detector _silence_timer _segment_queue _segment_worker
       _accumulated_texts _voice_commands _mute_until
       set_state set_prev_window_id set_audio_stream set_vad
       set_wake_detector set_silence_timer set_segment_queue
       set_segment_worker set_accumulated_texts set_mute_until] in *.

Ltac exec_branch :=
  match goal with
  | |- context [exec (if ?b then _ else _) _] => destruct b eqn:?
  | |- context [exec (when ?b _) _] => destruct b eqn:?; cbn [when]
  | |- context [exec (match ?x with _ => _ end) _] => destruct x eqn:?
  end.

Ltac exec_run := repeat (exec_steps; fields; try exec_branch).

Lemma seg_frame_refl (a : App) : seg_frame a a.
Proof. unfold seg_frame. repeat split; auto. Qed.

Lemma seg_frame_trans (a b c : App) :
  seg_frame a b -> seg_frame b c -> seg_frame a c.
Proof.
  unfold seg_frame.
  intros (A1 & A2 & A3 & A4 & A5 & A6 & A7 & A8 & A9)
         (B1 & B2 & B3 & B4 & B5 & B6 & B7 & B8 & B9).
  rewrite A1, A4 in B9.
  split; [congruence|]. split; [congruence|]. split; [tauto|].
  split; [congruence|]. split; [congruence|]. split; [congruence|].
  split; [|split].
  - intros H. pose proof (A7 H) as E. rewrite <- E in H.
    rewrite (B7 H). exact E.
  - auto.
  - intros H1 H2. destruct (A9 H1 H2) as [E E'], (B9 H1 H2) as [F F'].
    split; [congruence | auto].
Qed.

Ltac frame_solve :=
  unfold seg_frame; fields;
  repeat match goal with
         | |- context [if ?b then _ else _] => destruct b eqn:?
         end;
  fields;
  repeat match goal with
         | H : state _ = _ |- _ => rewrite H in *
         end;
  cbn [is_streaming];
  repeat match goal with
         | |- _ /\ _ => split
         | |- _ <-> _ => split
         | |- _ -> _ => intro
         end;
  repeat match goal with
         | H : _wake_detector ?a = None |- _ => rewrite H in *
         | H : str_eqb _ _ = true |- _ => apply str_eqb_eq in H
         end;
  try congruence; try discriminate; auto;
  try (destruct (_vad _); cbn [option_map] in *; congruence).

Lemma on_segment_text_frame (now : Q) (text : str) (a : App) :
  seg_frame a (exec (on_segment_text now text) a).
Proof.
  unfold on_segment_text. exec_run; frame_solve.
Qed.

Lemma process_speech_segment_frame
  (now : Q) (run : RunResult) (pcm : bytes) (a : App) :
  seg_frame a (exec (_process_speech_segment now run pcm) a).
Proof.
  unfold _process_speech_segment.
  destruct (write_wav pcm); [|apply seg_frame_refl].
  destruct (transcribe true run _) as [text|e]; [|apply seg_frame_refl].
  destruct (negb (truthy text)); [apply seg_frame_refl|].
  apply on_segment_text_frame.
Qed.

Lemma worker_drain_frame
  (now : Q) (runs : list RunResult) (items : list (option bytes)) (a : App) :
  seg_frame a (exec (worker_drain now runs items) a).
Proof.
  revert items a. induction runs as [|run runs IH]; intros items a.
  - apply seg_frame_refl.
  - cbn [worker_drain]. destruct items as [|[pcm|] items];
      try apply seg_frame_refl.
    rewrite exec_bind. eapply seg_frame_trans;
      [apply process_speech_segment_frame | apply IH].
Qed.

Lemma exec_stop_stream (a : App) :
  exec stop_stream a = set_audio_stream false a.
Proof.
  destruct a as [? ? ? ? ? stream ? ? ? ? ? ? ? ?]. now destruct stream.
Qed.

(** [stop_worker] is a segment frame up to the queue and the worker,
    which are gone afterwards. *)
Lemma stop_worker_frame (now : Q) (runs : list RunResult) (a : App) :
  seg_frame (set_segment_worker false (set_segment_queue None a))
            (exec (stop_worker now runs) a).
Proof.
  unfold stop_worker. rewrite exec_gets_bind, exec_bind.
  set (a1 := exec (match _segment_queue a with
                   | Some items => modify (set_segment_queue (Some (items ++ [None])))
                   | None => ret tt end) a).
  assert (H1 : seg_frame (set_segment_worker false (set_segment_queue None a))
                 (set_segment_worker false (set_segment_queue None a1))).
  { unfold a1. destruct (_segment_queue a); rewrite ?exec_modify, ?exec_ret;
      frame_solve. }
  assert (W : _segment_worker a1 = _segment_worker a).
  { unfold a1. destruct (_segment_queue a); reflexivity. }
  rewrite exec_gets_bind, exec_bind, exec_modify.
  eapply seg_frame_trans; [exact H1|]. clear H1.
  destruct (_segment_worker a1) eqn:Ew; cbn [when].
  - rewrite exec_bind, exec_emit, exec_gets_bind, exec_bind, exec_modify.
    pose proof (worker_drain_frame now runs
                  (match _segment_queue a1 with
                   | Some items => items | None => [] end) a1) as H.
    set (a2 := exec (worker_drain _ _ _) a1) in *. clearbody a2.
    unfold seg_frame in *. fields.
    destruct H as (A1 & A2 & A3 & A4 & A5 & A6 & A7 & A8 & A9).
    repeat split; try congruence; try tauto; try (apply A9; assumption).
  - rewrite exec_ret. frame_solve.
Qed.

(** ** The invariant, method by method *)

Lemma str_eqb_false (x y : str) : str_eqb x y = false -> x <> y.
Proof.
  intros H ->. rewrite (proj2 (str_eqb_eq y y) eq_refl) in H. discriminate.
Qed.

(** Settles a goal about the invariant once the method has been run. *)
Ltac coh_solve :=
  unfold coherent, live, allowed in *; fields;
  repeat match goal with
         | H : state_eqb (state ?a) _ = _ |- _ =>
             destruct (state a) eqn:?; cbn [state_eqb] in H;
             try discriminate H; clear H
         end;
  repeat match goal with
         | H : state _ = _ |- _ => rewrite H in *
         end;
  repeat match goal with
         | H : _ /\ _ |- _ => destruct H
         end;
  repeat match goal with
         | |- context [if ?b then _ else _] => destruct b eqn:?
         | H : context [if ?b then _ else _] |- _ => destruct b eqn:?
         end;
  fields; cbn [is_streaming option_map] in *;
  repeat match goal with
         | H : str_eqb _ _ = true |- _ => apply str_eqb_eq in H
         | H : str_eqb _ _ = false |- _ => apply str_eqb_false in H
         end;
  repeat match goal with
         | H : ?P -> _, H' : ?P |- _ => specialize (H H')
         | H : true = true -> _ |- _ => specialize (H eq_refl)
         | H : _ /\ _ |- _ => destruct H
         end;
  repeat match goal with
         | |- _ /\ _ => split
         | |- _ <-> _ => split
         | |- _ -> _ => intro
         end;
  try congruence; try discriminate; try tauto; auto;
  try (destruct (_vad _); cbn [option_map] in *; congruence);
  repeat match goal with
         | H : _segment_queue _ = _ |- _ => rewrite H in *
         | H : _vad _ = _ |- _ => rewrite H in *
         | H : _silence_timer _ = _ |- _ => rewrite H in *
         | H : _segment_worker _ = _ |- _ => rewrite H in *
         end;
  try solve [intuition (congruence || discriminate)].

Lemma seg_frame_coherent (a a' : App) :
  seg_frame a a' -> coherent a -> coherent a'.
Proof.
  unfold seg_frame.
  intros (A1 & A2 & A3 & A4 & A5 & A6 & A7 & A8 & A9) (C1 & C2 & C3 & C4).
  unfold coherent, live in *. rewrite A1, A2, A4, A5, A6.
  assert (Hs : allowed (config a) (state a') = true
               /\ (is_streaming (state a') = true ->
                   is_streaming (state a) = true)).
  { destruct (is_streaming (state a)) eqn:E.
    - specialize (A8 eq_refl). split; [|auto].
      unfold allowed in *.
      destruct (str_eqb (input_mode (config a)) (u "listen")) eqn:El.
      + destruct (state a'); try discriminate; reflexivity.
      + apply str_eqb_false in El. destruct (C4 El) as [D _].
        destruct (A9 El D) as [-> _]. exact C1.
    - rewrite (A7 eq_refl). split; [exact C1 | now rewrite E]. }
  destruct Hs as [H1 H2].
  split; [exact H1|]. split; [|split; [exact C3|]].
  - intros H. destruct (C2 (H2 H)) as (L1 & L2 & L3 & L4).
    repeat split; try assumption. intros Hv. apply L2. now apply A3.
  - intros Hl. destruct (C4 Hl) as [D T]. split; [exact D|].
    now apply (A9 Hl D).
Qed.

Section Invariant.

Variable cfg : Config.

Lemma seg_frame_inv (a a' : App) : seg_frame a a' -> inv cfg a -> inv cfg a'.
Proof.
  intros F [C H]. split.
  - destruct F as [F _]. congruence.
  - now apply (seg_frame_coherent a).
Qed.

Ltac inv_solve :=
  match goal with
  | H : inv _ _ |- inv _ _ =>
      destruct H as [? ?]; split;
      [ repeat match goal with
               | |- context [if ?b then _ else _] => destruct b
               end; fields; try assumption; auto
      | coh_solve ]
  end.

Lemma worker_takes_inv (now : Q) (run : RunResult) (a : App) :
  inv cfg a -> inv cfg (exec (worker_takes now run) a).
Proof.
  intros H. unfold worker_takes. rewrite exec_gets_bind.
  destruct (_segment_queue a) as [[|[pcm|] items]|] eqn:E;
    rewrite ?exec_ret; try exact H.
  rewrite exec_bind, exec_modify.
  eapply seg_frame_inv; [apply process_speech_segment_frame|].
  inv_solve.
Qed.

Lemma on_speech_start_inv (a : App) :
  inv cfg a -> inv cfg (exec _on_speech_start a).
Proof. intros H. unfold _on_speech_start. exec_run; inv_solve. Qed.

Lemma on_speech_end_inv (pcm : bytes) (a : App) :
  inv cfg a -> inv cfg (exec (_on_speech_end pcm) a).
Proof. intros H. unfold _on_speech_end. exec_run; inv_solve. Qed.

Lemma vad_callbacks_inv (events : list VadEvent) (a : App) :
  inv cfg a -> inv cfg (exec (vad_callbacks events) a).
Proof.
  revert a. induction events as [|[|pcm] events IH]; intros a H.
  - exact H.
  - cbn [vad_callbacks]. rewrite exec_bind. apply IH.
    now apply on_speech_start_inv.
  - cbn [vad_callbacks]. rewrite exec_bind. apply IH.
    now apply on_speech_end_inv.
Qed.

Lemma on_audio_data_inv (now : Q) (chunk : bytes) (a : App) :
  inv cfg a -> inv cfg (exec (_on_audio_data now chunk) a).
Proof.
  intros H. unfold _on_audio_data. rewrite exec_gets_bind.
  destruct (nonzero (_mute_until a) && Qltb now (_mute_until a));
    [exact H|].
  rewrite exec_gets_bind. destruct (_vad a) as [vad|] eqn:E; [|exact H].
  destruct (feed vad chunk) as [vad' events].
  rewrite exec_bind, exec_modify. apply vad_callbacks_inv. inv_solve.
Qed.

Lemma on_silence_timeout_inv (now : Q) (a : App) :
  inv cfg a -> _silence_timer a <> None ->
  inv cfg (exec (_on_silence_timeout now) a).
Proof.
  intros H Ht. unfold _on_silence_timeout. exec_run; inv_solve.
Qed.

Lemma transcribe_and_inject_inv
  (now : Q) (isfile : bool) (run : RunResult) (a : App) :
  inv cfg a -> inv cfg (exec (_transcribe_and_inject now isfile run) a).
Proof.
  intros H. unfold _transcribe_and_inject. exec_run; inv_solve.
Qed.

Lemma stop_worker_inv (now : Q) (runs : list RunResult) (a : App) :
  config a = cfg -> is_streaming (state a) = true ->
  (input_mode cfg <> u "listen" -> _wake_detector a = None) ->
  let a' := exec (stop_worker now runs) a in
  config a' = cfg /\ is_streaming (state a') = true
  /\ _audio_stream a' = _audio_stream a
  /\ (_vad a = None -> _vad a' = None)
  /\ _wake_detector a' = _wake_detector a
  /\ _segment_queue a' = None /\ _segment_worker a' = false
  /\ (input_mode cfg <> u "listen" -> _silence_timer a = None ->
      _silence_timer a' = None).
Proof.
  intros C Hs Hd. cbv zeta.
  destruct (stop_worker_frame now runs a)
    as (A1 & A2 & A3 & A4 & A5 & A6 & A7 & A8 & A9).
  fields. rewrite C in *.
  repeat split; try congruence; try tauto; auto.
Qed.

(** The state of a coordinator that a stop routine is called on. *)
Lemma stop_listening_inv (now : Q) (runs : list RunResult) (a : App) :
  inv cfg a -> is_streaming (state a) = true ->
  inv cfg (exec (_stop_listening now runs) a).
Proof.
  intros H Hs. unfold _stop_listening.
  rewrite !exec_bind, exec_cancel_silence_timer, exec_flush_accumulated_text,
    exec_stop_stream, !exec_modify, set_state_exec.
  set (a4 := set_wake_detector None _).
  destruct (stop_worker_inv now runs a4)
    as (A1 & A2 & A3 & A4 & A5 & A6 & A7 & A8).
  - unfold a4. fields. apply H.
  - exact Hs.
  - reflexivity.
  - set (a5 := exec (stop_worker now runs) a4) in *. clearbody a5.
    unfold a4 in *. fields. destruct H as [C H].
    split; [fields; exact A1|].
    unfold coherent, live, allowed. fields. rewrite A1, A6, A7.
    repeat split; try discriminate; try congruence.
    + destruct (str_eqb _ _); [reflexivity|]. now destruct (str_eqb _ _).
    + apply A8; [assumption | reflexivity].
Qed.

Lemma stop_hotkey_stream_inv (now : Q) (runs : list RunResult) (a : App) :
  inv cfg a -> is_streaming (state a) = true ->
  inv cfg (exec (_stop_hotkey_stream now runs) a).
Proof.
  intros H Hs. unfold _stop_hotkey_stream.
  rewrite !exec_bind, exec_cancel_silence_timer, exec_flush_accumulated_text,
    exec_stop_stream, !exec_modify, set_state_exec, exec_play_end_signal.
  set (a4 := set_vad None _).
  destruct (stop_worker_inv now runs a4)
    as (A1 & A2 & A3 & A4 & A5 & A6 & A7 & A8).
  - unfold a4. fields. apply H.
  - exact Hs.
  - unfold a4. fields. destruct H as [C (_ & _ & _ & H)]. rewrite C in H.
    intros Hl. now apply H.
  - set (a5 := exec (stop_worker now runs) a4) in *. clearbody a5.
    unfold a4 in *. fields. destruct H as [C (C1 & C2 & C3 & C4)].
    rewrite C in *.
    assert (Hv : _vad a5 = None) by now apply A4.
    split.
    + fields. destruct (end_signal _); fields; exact A1.
    + unfold coherent, live, allowed. fields. rewrite A1.
      destruct (end_signal cfg); fields; rewrite ?A1, ?A6, ?A7;
        (repeat split; try discriminate; try congruence;
         [ destruct (str_eqb _ _); [reflexivity|]; now destruct (str_eqb _ _)
         | rewrite A5; now apply C4
         | apply A8; [assumption | reflexivity] ]).
Qed.

Lemma start_listening_inv (q : WindowQuery) (started : bool) (a : App) :
  inv cfg a -> state a = IDLE -> input_mode cfg = u "listen" ->
  inv cfg (exec (_start_listening q started) a).
Proof.
  intros H Hs Hl. destruct H as [C H]. subst cfg.
  unfold _start_listening, new_session_vad, start_failed, _save_active_window.
  exec_run; (split; [fields; reflexivity | coh_solve]).
Qed.

Lemma start_hotkey_stream_inv
  (now : Q) (q : WindowQuery) (started : bool) (a : App) :
  inv cfg a -> state a = IDLE ->
  str_eqb (input_mode cfg) (u "listen") = false ->
  str_eqb (output_mode cfg) (u "batch") = false ->
  inv cfg (exec (_start_hotkey_stream now q started) a).
Proof.
  intros H Hs Hl Hb. destruct H as [C H]. subst cfg.
  unfold _start_hotkey_stream, new_session_vad, start_failed,
    _save_active_window.
  exec_run;
    (split; [repeat match goal with
                    | |- context [if ?b then _ else _] => destruct b
                    end; fields; reflexivity
            | coh_solve]).
Qed.

Lemma start_recording_inv (q : WindowQuery) (started : bool) (a : App) :
  inv cfg a -> state a = IDLE ->
  str_eqb (input_mode cfg) (u "listen") = false ->
  str_eqb (output_mode cfg) (u "batch") = true ->
  inv cfg (exec (_start_recording q started) a).
Proof.
  intros H Hs Hl Hb. destruct H as [C H]. subst cfg.
  unfold _start_recording, _save_active_window.
  exec_run; (split; [fields; reflexivity | coh_solve]).
Qed.

Lemma stop_recording_inv (has_wav : bool) (a : App) :
  inv cfg a -> state a = RECORDING ->
  inv cfg (exec (_stop_recording has_wav) a).
Proof.
  intros H Hs. destruct H as [C H]. subst cfg.
  unfold _stop_recording.
  exec_run; (split; [fields; reflexivity | coh_solve]).
Qed.

Lemma toggle_inv (e : Env) (a : App) :
  inv cfg a -> inv cfg (exec (toggle e) a).
Proof.
  intros H. pose proof H as [C _].
  unfold toggle, _toggle_listen, _toggle_hotkey.
  rewrite exec_gets_bind, C.
  destruct (str_eqb (input_mode cfg) (u "listen")) eqn:El;
    rewrite exec_gets_bind; destruct (state a) eqn:Es;
    rewrite ?exec_ret; try exact H.
  - apply start_listening_inv; [assumption.. | now apply str_eqb_eq].
  - apply stop_listening_inv; [assumption | now rewrite Es].
  - apply stop_listening_inv; [assumption | now rewrite Es].
  - rewrite exec_gets_bind, C.
    destruct (str_eqb (output_mode cfg) (u "batch")) eqn:Eb.
    + now apply start_recording_inv.
    + now apply start_hotkey_stream_inv.
  - now apply stop_recording_inv.
  - apply stop_hotkey_stream_inv; [assumption | now rewrite Es].
Qed.

Lemma set_idle_inv (a : App) : inv cfg a -> inv cfg (set_state IDLE a).
Proof. intros H. inv_solve. Qed.

Lemma force_idle_inv (e : Env) (a : App) :
  inv cfg a -> inv cfg (exec (_force_idle e) a).
Proof.
  intros H. unfold _force_idle. rewrite exec_gets_bind.
  destruct (state a) eqn:Es.
  - rewrite set_state_exec. now apply set_idle_inv.
  - rewrite exec_bind, exec_emit, set_state_exec. now apply set_idle_inv.
  - rewrite set_state_exec. now apply set_idle_inv.
  - rewrite exec_gets_bind. cbn [state_eqb andb]. rewrite andb_false_r.
    rewrite exec_bind, set_state_exec. apply set_idle_inv.
    apply stop_listening_inv; [assumption | now rewrite Es].
  - rewrite exec_gets_bind. cbn [state_eqb]. rewrite andb_true_r.
    destruct (str_eqb _ _).
    + apply stop_hotkey_stream_inv; [assumption | now rewrite Es].
    + rewrite exec_bind, set_state_exec. apply set_idle_inv.
      apply stop_listening_inv; [assumption | now rewrite Es].
Qed.

Lemma fire_inv (ev : Event) (a : App) :
  inv cfg a -> inv cfg (exec (fire ev) a).
Proof.
  intros H. destruct ev as [e|e|now chunk|now run|now|now isfile run];
    cbn [fire].
  - now apply toggle_inv.
  - now apply force_idle_inv.
  - now apply on_audio_data_inv.
  - now apply worker_takes_inv.
  - rewrite exec_gets_bind. destruct (_silence_timer a) eqn:E; [|exact H].
    apply on_silence_timeout_inv; [assumption | congruence].
  - now apply transcribe_and_inject_inv.
Qed.

Lemma run_events_inv (events : list Event) (a : App) :
  inv cfg a -> inv cfg (run_events a events).
Proof.
  revert a. induction events as [|ev events IH]; intros a H; [exact H|].
  cbn [run_events]. apply IH. now apply fire_inv.
Qed.

Lemma new_app_inv : inv cfg (new_app cfg).
Proof.
  split; [reflexivity|]. unfold coherent, live, allowed, new_app. fields.
  repeat split; try discriminate; try congruence.
  destruct (str_eqb _ _); [reflexivity|]. now destruct (str_eqb _ _).
Qed.

End Invariant.

(** Whatever happens to a coordinator whose configuration is left as
    it is, in whatever order, each pair of modes keeps to its own states: listen mode to IDLE, LISTENING and
    DICTATING; hotkey mode with batch output to IDLE, RECORDING and
    PROCESSING; hotkey mode with stream output to IDLE and DICTATING.
    Outside listen mode no wake detector is made and no silence timer is
    armed. *)
Theorem modes_keep_to_their_states (cfg : Config) (events : list Event) :
  let a := run_events (new_app cfg) events in
  config a = cfg
  /\ allowed cfg (state a) = true
  /\ (input_mode cfg <> u "listen" ->
      _wake_detector a = None /\ _silence_timer a = None
      /\ state a <> LISTENING).
Proof.
  cbv zeta.
  destruct (run_events_inv cfg events (new_app cfg) (new_app_inv cfg))
    as [C (H1 & _ & _ & H4)].
  rewrite C in *. split; [reflexivity|]. split; [exact H1|].
  intros Hl. destruct (H4 Hl) as [D T]. repeat split; try assumption.
  intros Hs. rewrite Hs in H1. unfold allowed in H1.
  destruct (str_eqb (input_mode cfg) (u "listen")) eqn:E.
  - apply str_eqb_eq in E. contradiction.
  - destruct (str_eqb (output_mode cfg) (u "batch")); discriminate H1.
Qed.

Lemma modes_keep_to_their_states_witness :
  let a := run_events
             (new_app (mkConfig (u "hotkey") (u "stream") (u "дуняша") []
                         true true true VoiceCommands.DEFAULT_COMMANDS
                         3 300 500 30))
             [Toggle (env_at 0 []); AudioData 1 utterance;
              WorkerTakes 2 (prints "дуняша"); SilenceTimer 6] in
  _wake_detector a = None /\ _silence_timer a = None
  /\ state a <> LISTENING.
Proof.
  refine (proj2 (proj2 (modes_keep_to_their_states
            (mkConfig (u "hotkey") (u "stream") (u "дуняша") []
               true true true VoiceCommands.DEFAULT_COMMANDS 3 300 500 30)
            [Toggle (env_at 0 []); AudioData 1 utterance;
             WorkerTakes 2 (prints "дуняша"); SilenceTimer 6])) _).
  vm_compute. discriminate.
Defined.

(** Whatever happens to a coordinator whose configuration is left as
    it is, in whatever order: while it is in LISTENING or DICTATING the session is up (capture, VAD, queue and
    worker), and at all times there is a worker exactly when there is a
    queue. *)
Theorem streaming_state_has_session (cfg : Config) (events : list Event) :
  let a := run_events (new_app cfg) events in
  (state a = LISTENING \/ state a = DICTATING -> live a)
  /\ (_segment_worker a = true <-> _segment_queue a <> None).
Proof.
  cbv zeta.
  destruct (run_events_inv cfg events (new_app cfg) (new_app_inv cfg))
    as [_ (_ & H2 & H3 & _)].
  split; [|exact H3].
  intros [Hs | Hs]; apply H2; now rewrite Hs.
Qed.

Lemma streaming_state_has_session_witness :
  live (run_events (new_app (config_listen (u "stream")))
          [Toggle (env_at 0 []); AudioData 1 utterance;
           WorkerTakes 2 (prints "дуняша")]).
Proof.
  refine (proj1 (streaming_state_has_session (config_listen (u "stream"))
            [Toggle (env_at 0 []); AudioData 1 utterance;
             WorkerTakes 2 (prints "дуняша")]) _).
  right. vm_compute. reflexivity.
Defined.
